(** * terraform-provider-aws: ACM certificate, AppStream fleet, ECS task
      execution and the WAF change-token retryer

    A shallow embedding of the control flow of four resource files of the
    provider.  Calls to AWS are modelled by explicit oracles (the answer of
    the k-th call of an API operation), effects by explicit state passing
    with a log of the calls made, Go's [(value, error)] results by sums and
    options, and run-time panics by [None]. *)

From Stdlib Require Import ZArith NArith Lia Ascii String.
From stdpp Require Import base option list strings gmap.

Local Set Warnings "-register-all".

(** ** Go values, errors and diagnostics shared by the services *)

Module Go.

(** [[]byte]: Go strings are byte sequences, and the conversions
    [[]byte(s)] and [string(b)] keep the bytes. *)
Definition bytes := list ascii.

(** The dynamically typed values ([interface{}]) that the schema layer
    hands to the resource functions. *)
Inductive any : Type :=
| VNil
| VString (s : string)
| VInt (z : Z)
| VBool (b : bool)
| VStrings (l : list string).

#[global] Instance any_eq_dec : EqDecision any.
Proof. solve_decision. Defined.

(** The comma-ok type assertion [v.(string)]. *)
Definition assertString (v : any) : option string :=
  match v with
  | VString s => Some s
  | _ => None
  end.

(** [strings.Join(elems, sep)]. *)
Fixpoint Join (elems : list string) (sep : string) : string :=
  match elems with
  | [] => ""
  | [e] => e
  | e :: rest => e +:+ sep +:+ Join rest sep
  end.

(** Go [error] values.  [Wrapped] is [fmt.Errorf("...: %w", err)];
    [TimeoutError], [UnexpectedStateError] and [NotFoundError] are the
    plugin SDK's error structs with their [LastError] field. *)
Inductive err : Type :=
| AwsError (code message : string)
| New (message : string)
| Wrapped (prefix : string) (cause : err)
| TimeoutError (lastError : option err) (lastState : string)
| UnexpectedStateError (lastError : option err) (state : string)
    (expected : list string)
| NotFoundError (lastError : option err)
| EmptyResultError.

(** A Go [error] interface value; [None] is [nil]. *)
Definition error := option err.

(** [tfawserr.ErrCodeEquals(err, code)]: some error of the chain is an
    AWS error with this code; false on [nil]. *)
Fixpoint errCodeEquals (e : err) (code : string) : bool :=
  match e with
  | AwsError c _ => bool_decide (c = code)
  | Wrapped _ cause => errCodeEquals cause code
  | _ => false
  end.

Definition ErrCodeEquals (e : error) (code : string) : bool :=
  match e with
  | Some e => errCodeEquals e code
  | None => false
  end.

(** [err.Error()]. *)
Fixpoint Error (e : err) : string :=
  match e with
  | AwsError c m => c +:+ ": " +:+ m
  | New m => m
  | Wrapped p cause => p +:+ Error cause
  | TimeoutError _ st => "timeout while waiting for state (last state: " +:+ st +:+ ")"
  | UnexpectedStateError _ st _ => "unexpected state " +:+ st
  | NotFoundError _ => "couldn't find resource"
  | EmptyResultError => "empty result"
  end.

(** [diag.Diagnostics]. *)
Inductive Severity := SeverityError | SeverityWarning.

Record Diagnostic := { Severity_ : Severity; Summary : string }.

Definition Diagnostics := list Diagnostic.

(** [diags.HasError()]. *)
Definition HasError (diags : Diagnostics) : bool :=
  existsb (λ dg, match Severity_ dg with SeverityError => true | _ => false end)
    diags.

(** Modelled from the spec: [sdkdiag.AppendErrorf] (internal/errs/sdkdiag,
    not under src/) appends one error diagnostic whose summary is the
    formatted message; [summary] is that message. *)
Definition AppendErrorf (diags : Diagnostics) (summary : string) : Diagnostics :=
  diags ++ [{| Severity_ := SeverityError; Summary := summary |}].

End Go.

Import Go.

(** ** The plugin SDK's resource data *)

Module Schema.

(** [schema.ResourceData]: the identifier, whether the resource was
    created in this run, the attribute values of the prior state and the
    attribute values being applied. *)
Record ResourceData := {
  Id : string;
  IsNewResource : bool;
  prior : gmap string any;
  planned : gmap string any
}.

Definition SetId (id : string) (d : ResourceData) : ResourceData :=
  {| Id := id; IsNewResource := IsNewResource d;
     prior := prior d; planned := planned d |}.

(** [d.Set(key, value)]. *)
Definition Set_ (key : string) (v : any) (d : ResourceData) : ResourceData :=
  {| Id := Id d; IsNewResource := IsNewResource d;
     prior := prior d; planned := <[key := v]> (planned d) |}.

(** [d.Get(key)]. *)
Definition Get (d : ResourceData) (key : string) : any :=
  default VNil (planned d !! key).

(** [d.Get(key).(string)] for an attribute of [schema.TypeString]: such
    an attribute always reads as a Go string, the empty one when unset. *)
Definition GetString (d : ResourceData) (key : string) : string :=
  match planned d !! key with
  | Some (VString s) => s
  | _ => ""
  end.

Definition isZero (v : any) : bool :=
  match v with
  | VNil => true
  | VString s => bool_decide (s = ""%string)
  | VInt z => bool_decide (z = 0%Z)
  | VBool b => negb b
  | VStrings l => bool_decide (l = [])
  end.

(** [d.GetOk(key)]: the value, and whether it is set to a non-zero value. *)
Definition GetOk (d : ResourceData) (key : string) : any * bool :=
  let v := Get d key in (v, negb (isZero v)).

(** [d.HasChange(key)]: the prior and the applied value differ. *)
Definition HasChange (d : ResourceData) (key : string) : bool :=
  bool_decide (prior d !! key ≠ planned d !! key).

(** [d.HasChanges(keys...)]: the first changed key answers true. *)
Fixpoint HasChanges (d : ResourceData) (keys : list string) : bool :=
  match keys with
  | [] => false
  | key :: rest => if HasChange d key then true else HasChanges d rest
  end.

Lemma HasChanges_true d keys :
  HasChanges d keys = true ↔ ∃ key, key ∈ keys ∧ HasChange d key = true.
Proof.
  induction keys as [|k keys IH]; simpl.
  - split; [discriminate | intros (? & []%elem_of_nil & _)].
  - destruct (HasChange d k) eqn:Hk.
    + split; [|done]. intros _. exists k. split; [left | done].
    + rewrite IH. split.
      * intros (key & Hin & Hc). exists key. split; [by right | done].
      * intros (key & Hin & Hc). apply elem_of_cons in Hin as [-> | Hin];
          [congruence | eauto].
Qed.

Lemma HasChanges_false d keys :
  HasChanges d keys = false ↔ ∀ key, key ∈ keys → HasChange d key = false.
Proof.
  rewrite <- not_true_iff_false, HasChanges_true. split.
  - intros H key Hin. apply not_true_iff_false. intros Hc. apply H. eauto.
  - intros H (key & Hin & Hc). rewrite (H key Hin) in Hc. discriminate.
Qed.

End Schema.

Import Schema.

(** ** ACM certificate: internal/service/acm/certificate.go *)

Module ACM.

Definition ErrCodeResourceNotFoundException : string := "ResourceNotFoundException".
Definition ErrCodeResourceInUseException : string := "ResourceInUseException".

Definition CertificateStatusPendingValidation : string := "PENDING_VALIDATION".
Definition CertificateStatusIssued : string := "ISSUED".
Definition CertificateStatusFailed : string := "FAILED".
Definition CertificateStatusRevoked : string := "REVOKED".
Definition CertificateStatusValidationTimedOut : string := "VALIDATION_TIMED_OUT".

(** The carriage return ['\r']. *)
Definition CR : ascii := "013"%char.

(** *** stripCR

    [c := make([]byte, len(b)); i := 0] and one pass over [b] that
    stores every byte other than ['\r'] at [c[i]] and increments [i];
    the result is [c[:i]].  A store outside [c] panics in Go: the step
    returns [None] there. *)
Definition stripCR_step (st : option (bytes * nat)) (ch : ascii)
  : option (bytes * nat) :=
  '(c, i) ← st;
  if bool_decide (ch ≠ CR)
  then (if bool_decide (i < length c) then Some (<[i := ch]> c, S i) else None)
  else Some (c, i).

Definition stripCR (b : bytes) : option bytes :=
  '(c, i) ← foldl stripCR_step (Some (replicate (length b) Ascii.zero, 0)) b;
  Some (take i c).

(** The bytes of [b] that are not a carriage return, in order. *)
Definition without_CR (b : bytes) : bytes := filter (λ ch, ch ≠ CR) b.

(** *** encoding/hex

    [hex.EncodeToString]: for every byte [v] the two characters
    [hextable[v>>4]] and [hextable[v&0x0f]]. *)
Definition hextable : string := "0123456789abcdef".

Definition hexchar (n : N) : ascii :=
  default Ascii.zero (list_ascii_of_string hextable !! N.to_nat n).

Definition hexpair (v : ascii) : list ascii :=
  [hexchar (N.shiftr (N_of_ascii v) 4); hexchar (N.land (N_of_ascii v) 15)].

Definition EncodeToString (src : bytes) : string :=
  string_of_list_ascii (flat_map hexpair src).

(** The value of a lower-case hexadecimal digit; [None] for any other
    character (upper-case digits included). *)
Definition lower_hex_value (c : ascii) : option N :=
  let n := N_of_ascii c in
  if bool_decide (48 ≤ n ≤ 57)%N then Some (n - 48)%N
  else if bool_decide (97 ≤ n ≤ 102)%N then Some (n - 87)%N
  else None.

(** Decoding of a lower-case hexadecimal string, two digits per byte,
    most significant digit first. *)
Fixpoint lower_hex_decode (l : list ascii) : option bytes :=
  match l with
  | [] => Some []
  | hi :: lo :: rest =>
      h ← lower_hex_value hi;
      l ← lower_hex_value lo;
      tl ← lower_hex_decode rest;
      Some (ascii_of_N (16 * h + l) :: tl)
  | _ => None
  end.

Section CertRemoval.

(** The Go standard library functions [sha1.Sum] (the digest as a
    byte slice) and [strings.TrimSpace]. *)
Variable sha1_Sum : bytes → bytes.
Variable TrimSpace : string → string.

(** *** isChangeNormalizeCertRemoval *)
Definition isChangeNormalizeCertRemoval (oldRaw newRaw : any) : option bool :=
  match assertString oldRaw with
  | None => Some false
  | Some old =>
      match assertString newRaw with
      | None => Some false
      | Some new =>
          stripped ← stripCR (list_ascii_of_string (TrimSpace new));
          let newCleanVal := sha1_Sum stripped in
          Some (bool_decide (EncodeToString newCleanVal = old))
      end
  end.

End CertRemoval.

(** *** The ACM API and the certificate it describes *)

Record CertificateDetail := {
  CertificateArn : option string;
  Status : option string;
  FailureReason : option string;
  RevocationReason : option string
}.

Record DescribeCertificateOutput := {
  Certificate : option CertificateDetail
}.

(** [aws.StringValue]: the string behind a pointer, empty for [nil]. *)
Definition StringValue (p : option string) : string := default ""%string p.

(** [time.Duration] in nanoseconds. *)
Definition Duration := Z.
Definition Minute : Duration := (60 * 1000000000)%Z.
Definition AcmCertificateCrossServicePropagationTimeout : Duration := (20 * Minute)%Z.
Definition AcmCertificateDnsValidationAssignmentTimeout : Duration := (5 * Minute)%Z.

(** The connection: what the k-th call of an operation answers for a
    certificate ARN.  A [nil] output is [None]. *)
Record conn := {
  DescribeCertificate : nat → string → option DescribeCertificateOutput * error;
  DeleteCertificate : nat → string → error
}.

(** [tfresource.NotFound]: the error is, or wraps, a not-found error of
    the SDK; the empty-result error counts as one. *)
Fixpoint notFound (e : err) : bool :=
  match e with
  | NotFoundError _ => true
  | EmptyResultError => true
  | Wrapped _ cause => notFound cause
  | _ => false
  end.

Definition NotFound (e : error) : bool :=
  match e with
  | Some e => notFound e
  | None => false
  end.

(** *** findCertificate *)
Definition findCertificate (c : conn) (k : nat) (arn : string)
  : option CertificateDetail * error :=
  let '(output, err) := DescribeCertificate c k arn in
  if ErrCodeEquals err ErrCodeResourceNotFoundException
  then (None, Some (NotFoundError err))
  else match err with
       | Some e => (None, Some e)
       | None =>
           match output with
           | None => (None, Some EmptyResultError)
           | Some out =>
               match Certificate out with
               | None => (None, Some EmptyResultError)
               | Some cert => (Some cert, None)
               end
           end
       end.

(** *** statusCertificate: the refresh function; its argument is the
    number of the poll. *)
Definition statusCertificate (c : conn) (arn : string) (k : nat)
  : option CertificateDetail * string * error :=
  let '(output, err) := findCertificate c k arn in
  if NotFound err then (None, ""%string, None)
  else match err with
       | Some e => (None, ""%string, Some e)
       | None =>
           match output with
           | Some cert => (Some cert, StringValue (Status cert), None)
           | None => (None, ""%string, None)
           end
       end.

(** *** resource.StateChangeConf *)
Record StateChangeConf (R : Type) := {
  Pending : list string;
  Target : list string;
  Refresh : nat → option R * string * error;
  Timeout : Duration
}.
Arguments Pending {R}.
Arguments Target {R}.
Arguments Refresh {R}.
Arguments Timeout {R}.

Definition NotFoundChecks : nat := 20.

Definition inStates (st : string) (l : list string) : bool :=
  bool_decide (st ∈ l).

(** Modelled from the spec: [StateChangeConf.WaitForState] belongs to the
    plugin SDK and is not part of these sources; the spec calls it a
    bounded polling loop.  [polls] is the number of refreshes that the
    timeout leaves room for, [k] the number of the next refresh and
    [notfoundTick] the count of consecutive refreshes without a result.
    A refresh error ends the loop with that error; a result whose state
    is a target ends it with the result; a state that is neither target
    nor pending ends it with an [UnexpectedStateError] whose [LastError]
    is not set; a pending state polls again; when the polls run out the
    result is [nil] with a [TimeoutError].  The last component counts the
    refreshes made. *)
Fixpoint waitLoop {R} (conf : StateChangeConf R) (polls k notfoundTick : nat)
    (lastState : string) : option R * error * nat :=
  match polls with
  | 0 => (None, Some (TimeoutError None lastState), k)
  | S polls' =>
      let '(res, currentState, err) := Refresh conf k in
      match err with
      | Some e => (res, Some e, S k)
      | None =>
          match res with
          | None =>
              if bool_decide (Target conf = [])
              then (None, None, S k)
              else if bool_decide (NotFoundChecks < S notfoundTick)
              then (None, Some (NotFoundError None), S k)
              else waitLoop conf polls' (S k) (S notfoundTick) currentState
          | Some r =>
              if inStates currentState (Target conf)
              then (Some r, None, S k)
              else if inStates currentState (Pending conf)
              then waitLoop conf polls' (S k) 0 currentState
              else if bool_decide (Pending conf ≠ [])
              then (Some r,
                    Some (UnexpectedStateError None currentState (Target conf)),
                    S k)
              else waitLoop conf polls' (S k) 0 currentState
          end
      end
  end.

(** Modelled from the spec: [tfresource.SetLastError] (internal/tfresource,
    not under src/) stores [lastErr] in the [LastError] field of a timeout
    or unexpected-state error that has none yet, and leaves every other
    error as it is.  The Go function updates the error in place; here
    the updated error is returned. *)
Definition SetLastError (e : error) (lastErr : err) : error :=
  match e with
  | Some (TimeoutError None st) => Some (TimeoutError (Some lastErr) st)
  | Some (UnexpectedStateError None st ex) =>
      Some (UnexpectedStateError (Some lastErr) st ex)
  | _ => e
  end.

Section Waiting.

(** The number of refreshes that fit into a timeout. *)
Variable pollsWithin : Duration → nat.

Definition WaitForState {R} (conf : StateChangeConf R) : option R * error * nat :=
  waitLoop conf (pollsWithin (Timeout conf)) 0 0 ""%string.

(** The [stateConf] literal of [waitCertificateIssued]. *)
Definition certificateIssuedConf (c : conn) (arn : string) (timeout : Duration)
  : StateChangeConf CertificateDetail :=
  {| Pending := [CertificateStatusPendingValidation];
     Target := [CertificateStatusIssued];
     Refresh := statusCertificate c arn;
     Timeout := timeout |}.

(** *** waitCertificateIssued; the last component is the number of
    polls made. *)
Definition waitCertificateIssued (c : conn) (arn : string) (timeout : Duration)
  : option CertificateDetail * error * nat :=
  let stateConf := certificateIssuedConf c arn timeout in
  let '(outputRaw, err, n) := WaitForState stateConf in
  match outputRaw with
  | Some output =>
      let st := StringValue (Status output) in
      let err :=
        if bool_decide (st = CertificateStatusFailed)
        then SetLastError err (New (StringValue (FailureReason output)))
        else if bool_decide (st = CertificateStatusRevoked)
        then SetLastError err (New (StringValue (RevocationReason output)))
        else err in
      (Some output, err, n)
  | None => (None, err, n)
  end.

(** Modelled from the spec: [tfresource.RetryWhenAWSErrCodeEquals]
    (internal/tfresource, not under src/) calls [f] again for as long
    as it fails with the given error code and the timeout leaves room
    for another try; any other answer ends the loop and is returned.
    When the tries run out the last error with that code is returned;
    when not even one try fitted, [f] is called once.  [tries] is the
    number of tries the timeout leaves room for, [k] the number of the
    next call; the last component counts the calls made. *)
Fixpoint retryWhen (tries : nat) (f : nat → error) (code : string)
    (k : nat) (last : error) : error * nat :=
  match tries with
  | 0 =>
      match last with
      | Some e => (Some e, k)
      | None => (f k, S k)
      end
  | S tries' =>
      let e := f k in
      if ErrCodeEquals e code
      then retryWhen tries' f code (S k) e
      else (e, S k)
  end.

Definition RetryWhenAWSErrCodeEquals (timeout : Duration) (f : nat → error)
    (code : string) : error * nat :=
  retryWhen (pollsWithin timeout) f code 0 None.

(** *** resourceCertificateDelete; [id] is [d.Id()]. *)
Definition resourceCertificateDelete (c : conn) (id : string) : error * nat :=
  let '(err, n) :=
    RetryWhenAWSErrCodeEquals AcmCertificateCrossServicePropagationTimeout
      (λ k, DeleteCertificate c k id)
      ErrCodeResourceInUseException in
  if ErrCodeEquals err ErrCodeResourceNotFoundException
  then (None, n)
  else match err with
       | Some e =>
           (Some (Wrapped ("deleting ACM Certificate (" +:+ id +:+ "): ") e), n)
       | None => (None, n)
       end.

End Waiting.

(** *** Facts about stripCR and the hexadecimal encoding *)

Lemma without_CR_cons_keep ch s :
  ch ≠ CR → without_CR (ch :: s) = ch :: without_CR s.
Proof.
  intros H. unfold without_CR.
  by rewrite (filter_cons_True (λ c, c ≠ CR)).
Qed.

Lemma without_CR_cons_drop s : without_CR (CR :: s) = without_CR s.
Proof.
  unfold without_CR.
  rewrite (filter_cons_False (λ c, c ≠ CR)); [done | tauto].
Qed.

(** The loop invariant of [stripCR]: [c] is the bytes kept so far
    followed by the untouched rest of the buffer, [i] is the number of
    bytes kept, and the rest is long enough for what is still to come. *)
Lemma stripCR_loop (s acc rest : bytes) :
  length s ≤ length rest →
  foldl stripCR_step (Some (acc ++ rest, length acc)) s =
  Some (acc ++ without_CR s ++ drop (length (without_CR s)) rest,
        length acc + length (without_CR s)).
Proof.
  revert acc rest. induction s as [|ch s IH]; intros acc rest Hlen.
  - simpl. by rewrite drop_0, Nat.add_0_r.
  - destruct rest as [|r rest]; [simpl in Hlen; lia|].
    simpl in Hlen. simpl foldl.
    change (stripCR_step (Some (acc ++ r :: rest, length acc)) ch)
      with (if bool_decide (ch ≠ CR)
            then (if bool_decide (length acc < length (acc ++ r :: rest))
                  then Some (<[length acc := ch]> (acc ++ r :: rest), S (length acc))
                  else None)
            else Some (acc ++ r :: rest, length acc)).
    destruct (decide (ch = CR)) as [->|Hne].
    + rewrite bool_decide_eq_false_2 by tauto.
      rewrite without_CR_cons_drop.
      apply (IH acc (r :: rest)). simpl. lia.
    + rewrite bool_decide_eq_true_2 by done.
      rewrite bool_decide_eq_true_2 by (rewrite length_app; simpl; lia).
      rewrite without_CR_cons_keep by done.
      replace (<[length acc:=ch]> (acc ++ r :: rest))
        with ((acc ++ [ch]) ++ rest).
      2:{ rewrite insert_app_r_alt by lia.
          rewrite Nat.sub_diag. simpl. by rewrite <- app_assoc. }
      replace (S (length acc)) with (length (acc ++ [ch]))
        by (rewrite length_app; simpl; lia).
      rewrite IH by lia.
      rewrite <- app_assoc. simpl. do 2 f_equal.
      rewrite length_app. simpl. lia.
Qed.

(** [stripCR] never stores out of range, and returns the bytes of its
    argument without the carriage returns. *)
Lemma stripCR_without_CR (b : bytes) : stripCR b = Some (without_CR b).
Proof.
  unfold stripCR.
  pose proof (stripCR_loop b [] (replicate (length b) Ascii.zero)) as H.
  simpl in H. rewrite H by (by rewrite length_replicate).
  simpl. f_equal. by rewrite take_app_length.
Qed.

Lemma hexpair_decode (v : ascii) (rest : list ascii) :
  lower_hex_decode (hexpair v ++ rest) =
  (tl ← lower_hex_decode rest; Some (v :: tl)).
Proof.
  destruct v as [[] [] [] [] [] [] [] []]; reflexivity.
Qed.

Lemma lower_hex_value_hexchar (c : ascii) (n : N) :
  lower_hex_value c = Some n → (n < 16)%N ∧ hexchar n = c.
Proof.
  destruct c as [[] [] [] [] [] [] [] []]; vm_compute;
    intros H; try discriminate H; injection H as <-; split; reflexivity.
Qed.

Lemma hexpair_of_digits (h l : N) :
  (h < 16)%N → (l < 16)%N →
  hexpair (ascii_of_N (16 * h + l)) = [hexchar h; hexchar l].
Proof.
  intros Hh Hl. unfold hexpair.
  rewrite N_ascii_embedding by lia.
  rewrite N.shiftr_div_pow2. change (2 ^ 4)%N with 16%N.
  change 15%N with (N.ones 4). rewrite N.land_ones.
  change (2 ^ 4)%N with 16%N.
  replace ((16 * h + l) / 16)%N with h.
  2:{ apply (N.div_unique _ 16 h l); lia. }
  replace ((16 * h + l) mod 16)%N with l.
  2:{ apply (N.mod_unique _ 16 h l); lia. }
  done.
Qed.

Lemma lower_hex_decode_inv (l : list ascii) :
  ∀ d, lower_hex_decode l = Some d → l = flat_map hexpair d.
Proof.
  induction l as [l IH] using (induction_ltof1 _ (@length ascii)).
  unfold ltof in IH. intros d.
  destruct l as [|hi [|lo rest]]; simpl.
  - by intros [= <-].
  - discriminate.
  - destruct (lower_hex_value hi) as [h|] eqn:Hh; [|discriminate].
    destruct (lower_hex_value lo) as [lw|] eqn:Hl; [|discriminate].
    simpl.
    destruct (lower_hex_decode rest) as [tl|] eqn:Hr; [|discriminate].
    simpl. intros [= <-].
    apply lower_hex_value_hexchar in Hh as [Hh1 Hh2].
    apply lower_hex_value_hexchar in Hl as [Hl1 Hl2].
    change (flat_map hexpair (ascii_of_N (16 * h + lw) :: tl))
      with (hexpair (ascii_of_N (16 * h + lw)) ++ flat_map hexpair tl).
    rewrite hexpair_of_digits by done. simpl. subst hi lo.
    do 2 f_equal. apply IH; [simpl; lia | done].
Qed.

Lemma lower_hex_decode_encode (d : bytes) :
  lower_hex_decode (flat_map hexpair d) = Some d.
Proof.
  induction d as [|v d IH]; [done|].
  change (flat_map hexpair (v :: d)) with (hexpair v ++ flat_map hexpair d).
  rewrite hexpair_decode, IH. done.
Qed.

(** [hex.EncodeToString d] is the one string of lower-case hexadecimal
    digits that decodes to [d]. *)
Lemma EncodeToString_lower_hex (s : string) (d : bytes) :
  EncodeToString d = s ↔ lower_hex_decode (list_ascii_of_string s) = Some d.
Proof.
  unfold EncodeToString. split.
  - intros <-. rewrite list_ascii_of_string_of_list_ascii.
    apply lower_hex_decode_encode.
  - intros H. apply lower_hex_decode_inv in H.
    rewrite <- H. apply string_of_list_ascii_of_string.
Qed.

(** C8.  [isChangeNormalizeCertRemoval] never panics; it answers true
    exactly when both arguments are strings and the old one is the
    lower-case hexadecimal encoding of the SHA-1 digest of the new one
    trimmed of surrounding white space and with every carriage return
    removed; it answers false as soon as one argument is not a string. *)
Theorem isChangeNormalizeCertRemoval_spec
    (sha1_Sum : bytes → bytes) (TrimSpace : string → string)
    (oldRaw newRaw : any) :
  (∃ b, isChangeNormalizeCertRemoval sha1_Sum TrimSpace oldRaw newRaw = Some b)
  ∧ (isChangeNormalizeCertRemoval sha1_Sum TrimSpace oldRaw newRaw = Some true
     ↔ ∃ old new, oldRaw = VString old ∧ newRaw = VString new
         ∧ lower_hex_decode (list_ascii_of_string old)
           = Some (sha1_Sum (without_CR (list_ascii_of_string (TrimSpace new)))))
  ∧ ((assertString oldRaw = None ∨ assertString newRaw = None)
     → isChangeNormalizeCertRemoval sha1_Sum TrimSpace oldRaw newRaw = Some false).
Proof.
  unfold isChangeNormalizeCertRemoval.
  destruct oldRaw as [| old | | |]; simpl;
    try (split; [eauto | split; [split; [discriminate | by intros (? & ? & ? & _)] | done]]).
  destruct newRaw as [| new | | |]; simpl;
    try (split; [eauto | split; [split; [discriminate | by intros (? & ? & _ & ? & _)] | done]]).
  rewrite stripCR_without_CR. simpl.
  split; [eauto|]. split.
  - split.
    + intros [= H%bool_decide_eq_true]. exists old, new.
      split; [done|]. split; [done|]. by apply EncodeToString_lower_hex.
    + intros (o & n & [= <-] & [= <-] & H).
      apply EncodeToString_lower_hex in H.
      by rewrite bool_decide_eq_true_2.
  - intros [H | H]; discriminate H.
Qed.

(** *** Waiting for a certificate to be issued *)

(** The k-th [DescribeCertificate] call succeeds and describes [cert]. *)
Definition describes (c : conn) (arn : string) (k : nat) (cert : CertificateDetail)
  : Prop :=
  DescribeCertificate c k arn = (Some {| Certificate := Some cert |}, None).

Definition pendingAt (c : conn) (arn : string) (k : nat) : Prop :=
  ∃ cert, describes c arn k cert
          ∧ StringValue (Status cert) = CertificateStatusPendingValidation.

(** The reason that [waitCertificateIssued] stores in the error for a
    certificate: the failure reason of a failed one, the revocation
    reason of a revoked one, nothing for any other status. *)
Definition reasonOf (cert : CertificateDetail) : option err :=
  let st := StringValue (Status cert) in
  if bool_decide (st = CertificateStatusFailed)
  then Some (New (StringValue (FailureReason cert)))
  else if bool_decide (st = CertificateStatusRevoked)
  then Some (New (StringValue (RevocationReason cert)))
  else None.

(** What the wait answers for the certificate that ends it. *)
Definition verdict (cert : CertificateDetail) : error :=
  let st := StringValue (Status cert) in
  if bool_decide (st = CertificateStatusIssued) then None
  else Some (UnexpectedStateError (reasonOf cert) st [CertificateStatusIssued]).

(** What the polling loop answers for that certificate, before
    [SetLastError] has added the reason. *)
Definition loopError (cert : CertificateDetail) : error :=
  if bool_decide (StringValue (Status cert) = CertificateStatusIssued)
  then None
  else Some (UnexpectedStateError None (StringValue (Status cert))
               [CertificateStatusIssued]).

Lemma statusCertificate_describes c arn k cert :
  describes c arn k cert →
  statusCertificate c arn k = (Some cert, StringValue (Status cert), None).
Proof.
  unfold describes, statusCertificate, findCertificate. by intros ->.
Qed.

(** A refresh either yields a certificate with its status and no error,
    or no certificate at all. *)
Lemma statusCertificate_shape c arn k :
  (∃ cert, statusCertificate c arn k = (Some cert, StringValue (Status cert), None))
  ∨ (∃ e, statusCertificate c arn k = (None, ""%string, e)).
Proof.
  unfold statusCertificate, findCertificate.
  destruct (DescribeCertificate c k arn) as [output e].
  destruct (ErrCodeEquals e ErrCodeResourceNotFoundException); simpl; [eauto|].
  destruct e as [e|]; simpl.
  - destruct (notFound e); eauto.
  - destruct output as [[[cert|]]|]; simpl; eauto.
Qed.

Lemma inStates_singleton (st x : string) :
  inStates st [x] = bool_decide (st = x).
Proof.
  unfold inStates. apply bool_decide_ext. apply list_elem_of_singleton.
Qed.

Lemma waitLoop_polls {R} (conf : StateChangeConf R) polls :
  ∀ k nf ls, (waitLoop conf polls k nf ls).2 ≤ k + polls.
Proof.
  induction polls as [|polls IH]; intros k nf ls; simpl; [lia|].
  destruct (Refresh conf k) as [[res st] e].
  destruct e; simpl; [lia|].
  destruct res.
  - repeat case_match; simpl; try lia.
    + etrans; [apply IH | lia].
    + etrans; [apply IH | lia].
  - repeat case_match; simpl; try lia.
    etrans; [apply IH | lia].
Qed.

(** Pending polls are skipped, and the first certificate whose status
    is not pending ends the loop with its verdict, before [SetLastError]
    has added the reason. *)
Lemma waitLoop_certificate c arn timeout cert m :
  ∀ polls k nf ls,
    m < polls →
    (∀ j, k ≤ j < k + m → pendingAt c arn j) →
    describes c arn (k + m) cert →
    StringValue (Status cert) ≠ CertificateStatusPendingValidation →
    waitLoop (certificateIssuedConf c arn timeout) polls k nf ls =
    (Some cert, loopError cert, S (k + m)).
Proof.
  unfold loopError.
  induction m as [|m IH]; intros polls k nf ls Hlt Hpend Hdesc Hnp.
  - destruct polls as [|polls]; [lia|]. rewrite Nat.add_0_r in *.
    simpl. rewrite (statusCertificate_describes _ _ _ _ Hdesc).
    rewrite !inStates_singleton.
    destruct (bool_decide (StringValue (Status cert) = CertificateStatusIssued));
      [done|].
    by rewrite (bool_decide_eq_false_2 _ Hnp).
  - destruct polls as [|polls]; [lia|].
    destruct (Hpend k ltac:(lia)) as (pc & Hpc & Hst).
    simpl. rewrite (statusCertificate_describes _ _ _ _ Hpc).
    rewrite !inStates_singleton, Hst. simpl.
    rewrite (IH polls (S k)); [| lia | intros j Hj; apply Hpend; lia | | done].
    + by replace (S k + m) with (k + S m) by lia.
    + by replace (S k + m) with (k + S m) by lia.
Qed.

(** Whenever the loop returns a certificate, its status is not the
    pending one, and the error is the one of its verdict without the
    reason. *)
Lemma waitLoop_returns c arn timeout polls :
  ∀ k nf ls out e n,
    waitLoop (certificateIssuedConf c arn timeout) polls k nf ls = (Some out, e, n) →
    StringValue (Status out) ≠ CertificateStatusPendingValidation
    ∧ e = loopError out.
Proof.
  unfold loopError.
  induction polls as [|polls IH]; intros k nf ls out e n; simpl; [discriminate|].
  destruct (statusCertificate_shape c arn k) as [[cert ->] | [e' ->]].
  - rewrite !inStates_singleton.
    destruct (bool_decide (StringValue (Status cert) = CertificateStatusIssued))
      eqn:Hi.
    + intros [= <- <- <-]. rewrite Hi. apply bool_decide_eq_true in Hi.
      split; [|done]. rewrite Hi. discriminate.
    + destruct (bool_decide (StringValue (Status cert)
                             = CertificateStatusPendingValidation)) eqn:Hp.
      * apply IH.
      * simpl. intros [= <- <- <-]. rewrite Hi.
        by apply bool_decide_eq_false in Hp.
  - destruct e'; [discriminate|]. simpl.
    destruct (bool_decide (NotFoundChecks < S nf)); [discriminate | apply IH].
Qed.

(** [SetLastError] turns the loop's error for a certificate into its
    verdict. *)
Lemma SetLastError_verdict (cert : CertificateDetail) :
  (if bool_decide (StringValue (Status cert) = CertificateStatusFailed)
   then SetLastError (loopError cert) (New (StringValue (FailureReason cert)))
   else if bool_decide (StringValue (Status cert) = CertificateStatusRevoked)
   then SetLastError (loopError cert) (New (StringValue (RevocationReason cert)))
   else loopError cert) = verdict cert.
Proof.
  unfold loopError, verdict, reasonOf.
  destruct (bool_decide (StringValue (Status cert) = CertificateStatusIssued)) eqn:Hi.
  - apply bool_decide_eq_true in Hi. rewrite Hi. reflexivity.
  - repeat case_match; reflexivity.
Qed.

(** C7.  [waitCertificateIssued] polls with PENDING_VALIDATION as the
    one pending state, ISSUED as the one target state and the given
    timeout; it makes no more polls than the timeout leaves room for;
    a certificate it returns has left PENDING_VALIDATION, comes without
    error exactly when it is ISSUED, and otherwise comes with an
    unexpected-state error that holds the failure reason of a FAILED and
    the revocation reason of a REVOKED certificate; and when the polls
    show PENDING_VALIDATION until a poll within the timeout shows another
    status, the certificate of that poll is returned in that way. *)
Theorem waitCertificateIssued_spec (pollsWithin : Duration → nat)
    (c : conn) (arn : string) (timeout : Duration) :
  (Pending (certificateIssuedConf c arn timeout) = [CertificateStatusPendingValidation]
   ∧ Target (certificateIssuedConf c arn timeout) = [CertificateStatusIssued]
   ∧ Timeout (certificateIssuedConf c arn timeout) = timeout)
  ∧ (waitCertificateIssued pollsWithin c arn timeout).2 ≤ pollsWithin timeout
  ∧ (∀ out e n,
       waitCertificateIssued pollsWithin c arn timeout = (Some out, e, n) →
       StringValue (Status out) ≠ CertificateStatusPendingValidation
       ∧ e = verdict out
       ∧ (e = None ↔ StringValue (Status out) = CertificateStatusIssued)
       ∧ (StringValue (Status out) = CertificateStatusFailed →
          e = Some (UnexpectedStateError
                      (Some (New (StringValue (FailureReason out))))
                      CertificateStatusFailed [CertificateStatusIssued]))
       ∧ (StringValue (Status out) = CertificateStatusRevoked →
          e = Some (UnexpectedStateError
                      (Some (New (StringValue (RevocationReason out))))
                      CertificateStatusRevoked [CertificateStatusIssued])))
  ∧ (∀ m cert,
       m < pollsWithin timeout →
       (∀ j, j < m → pendingAt c arn j) →
       describes c arn m cert →
       StringValue (Status cert) ≠ CertificateStatusPendingValidation →
       waitCertificateIssued pollsWithin c arn timeout
       = (Some cert, verdict cert, S m)).
Proof.
  split; [done|]. split; [|split].
  - unfold waitCertificateIssued, WaitForState.
    pose proof (waitLoop_polls (certificateIssuedConf c arn timeout)
                  (pollsWithin timeout) 0 0 ""%string) as H.
    destruct (waitLoop _ _ _ _ _) as [[[out|] e] n]; simpl in *; lia.
  - intros out e n. unfold waitCertificateIssued, WaitForState.
    destruct (waitLoop _ _ _ _ _) as [[[out'|] e'] n'] eqn:Hw; [|discriminate].
    apply waitLoop_returns in Hw as [Hnp ->].
    rewrite (SetLastError_verdict out'). intros [= <- <- <-].
    split; [done|]. split; [done|]. unfold verdict, reasonOf.
    split; [|split].
    + case_bool_decide; split; done.
    + intros ->. reflexivity.
    + intros ->. reflexivity.
  - intros m cert Hm Hpend Hdesc Hnp.
    unfold waitCertificateIssued, WaitForState.
    rewrite (waitLoop_certificate c arn timeout cert m); simpl;
      [| done | intros j Hj; apply Hpend; lia | done | done].
    by rewrite (SetLastError_verdict cert).
Qed.

(** A certificate that is pending at the first two polls and has failed
    at the third. *)
Definition pendingCert : CertificateDetail :=
  {| CertificateArn := Some "arn:cert"%string;
     Status := Some CertificateStatusPendingValidation;
     FailureReason := None; RevocationReason := None |}.

Definition failedCert : CertificateDetail :=
  {| CertificateArn := Some "arn:cert"%string;
     Status := Some CertificateStatusFailed;
     FailureReason := Some "CAA_ERROR"%string; RevocationReason := None |}.

Definition failsAtThirdPoll : conn :=
  {| DescribeCertificate := λ k _,
       (Some {| Certificate := Some (match k with
                                     | 0 | 1 => pendingCert
                                     | _ => failedCert
                                     end) |}, None);
     DeleteCertificate := λ _ _, None |}.

(** The wait at that certificate, with room for five polls: the failed
    certificate comes back after three polls, with its failure reason in
    the error. *)
Lemma waitCertificateIssued_witness :
  waitCertificateIssued (λ _, 5) failsAtThirdPoll "arn:cert" Minute
  = (Some failedCert,
     Some (UnexpectedStateError (Some (New "CAA_ERROR")) "FAILED" ["ISSUED"%string]),
     3).
Proof.
  destruct (waitCertificateIssued_spec (λ _, 5) failsAtThirdPoll "arn:cert" Minute)
    as (_ & _ & _ & H).
  apply (H 2 failedCert).
  - lia.
  - intros [|[|j]] Hj; [by exists pendingCert | by exists pendingCert | lia].
  - reflexivity.
  - done.
Defined.

(** The same wait with room for two polls only: the timeout error, and
    no certificate. *)
Example waitCertificateIssued_times_out :
  waitCertificateIssued (λ _, 2) failsAtThirdPoll "arn:cert" Minute
  = (None, Some (TimeoutError None "PENDING_VALIDATION"), 2).
Proof. reflexivity. Qed.

(** [stripCR] and the encoding on sample bytes. *)
Example stripCR_sample :
  stripCR (list_ascii_of_string ("a" +:+ String CR "b" +:+ String CR ""))
  = Some (list_ascii_of_string "ab").
Proof. reflexivity. Qed.

Example EncodeToString_sample :
  EncodeToString [ascii_of_N 222; ascii_of_N 173; ascii_of_N 0; ascii_of_N 15]
  = "dead000f"%string.
Proof. reflexivity. Qed.

(** *** Deleting a certificate *)

(** The first answer of [f] that does not carry the retried code ends
    [retryWhen], whatever came before. *)
Lemma retryWhen_first (f : nat → error) (code : string) (m : nat) :
  ∀ tries k last,
    m < tries →
    (∀ j, k ≤ j < k + m → ErrCodeEquals (f j) code = true) →
    ErrCodeEquals (f (k + m)) code = false →
    retryWhen tries f code k last = (f (k + m), S (k + m)).
Proof.
  induction m as [|m IH]; intros tries k last Hlt Hretry Hend;
    (destruct tries as [|tries]; [lia|]); simpl.
  - rewrite Nat.add_0_r in *. by rewrite Hend.
  - rewrite (Hretry k) by lia.
    rewrite (IH tries (S k)); [| lia | intros j Hj; apply Hretry; lia |].
    + by replace (S k + m) with (k + S m) by lia.
    + by replace (S k + m) with (k + S m) by lia.
Qed.

(** When every try carries the retried code, the error of the last try
    is returned. *)
Lemma retryWhen_exhausted (f : nat → error) (code : string) (tries : nat) :
  ∀ k last,
    (∀ j, k ≤ j < k + tries → ErrCodeEquals (f j) code = true) →
    ErrCodeEquals last code = true ∨ 0 < tries →
    retryWhen tries f code k last =
    ((if bool_decide (tries = 0) then last else f (k + tries - 1)), k + tries).
Proof.
  induction tries as [|tries IH]; intros k last Hretry Hlast; simpl.
  - destruct Hlast as [Hlast | ?]; [|lia].
    destruct last; [|discriminate]. by rewrite Nat.add_0_r.
  - rewrite (Hretry k) by lia.
    rewrite IH; [| intros j Hj; apply Hretry; lia | left; apply Hretry; lia].
    replace (S k + tries) with (k + S tries) by lia.
    destruct tries; simpl; [|done].
    by replace (k + 1 - 1) with k by lia.
Qed.

(** What [resourceCertificateDelete] makes of the error that ends the
    retries: nothing of none and of a not-found error, and any other
    error wrapped with the identifier. *)
Definition deleteOutcome (id : string) (e : error) : error :=
  match e with
  | None => None
  | Some e' =>
      if errCodeEquals e' ErrCodeResourceNotFoundException then None
      else Some (Wrapped ("deleting ACM Certificate (" +:+ id +:+ "): ") e')
  end.

Lemma resourceCertificateDelete_outcome pollsWithin c id :
  (resourceCertificateDelete pollsWithin c id).1 =
  deleteOutcome id
    (RetryWhenAWSErrCodeEquals pollsWithin
       AcmCertificateCrossServicePropagationTimeout
       (λ k, DeleteCertificate c k id) ErrCodeResourceInUseException).1.
Proof.
  unfold resourceCertificateDelete.
  destruct (RetryWhenAWSErrCodeEquals _ _ _ _) as [[e|] n]; simpl; [|done].
  by destruct (errCodeEquals e ErrCodeResourceNotFoundException).
Qed.

End ACM.

(** ** AppStream fleet: internal/service/appstream/fleet.go *)

Module AppStream.

Definition ErrCodeResourceNotFoundException : string := "ResourceNotFoundException".

(** Modelled from the spec: the attribute-name constants of package
    [names] (not under src/), with the attribute names of the schema. *)
Definition AttrDescription : string := "description".
Definition AttrDisplayName : string := "display_name".
Definition AttrInstanceType : string := "instance_type".
Definition AttrVPCConfig : string := "vpc_config".

(** [appstream.UpdateFleetInput].  A field holds the schema value it is
    built from; the pointer conversions and the expanders of the file only
    reshape that value. *)
Record UpdateFleetInput := {
  Name : string;
  ComputeCapacity : option any;
  Description : option any;
  DomainJoinInfo : option any;
  DisconnectTimeoutInSeconds : option any;
  EnableDefaultInternetAccess : option any;
  IdleDisconnectTimeoutInSeconds : option any;
  DisplayName : option any;
  ImageName : option any;
  ImageArn : option any;
  IamRoleArn : option any;
  StreamView : option any;
  InstanceType : option any;
  MaxSessionsPerInstance : option any;
  MaxUserDurationInSeconds : option any;
  VpcConfig : option any
}.

(** A fleet as [DescribeFleets] reports it: the values that
    [resourceFleetRead] stores, by attribute name. *)
Definition Fleet := list (string * any).

(** The calls that leave the provider, in the order they are made. *)
Inductive call :=
| StopFleet (name : string)
| WaitFleetStateStopped (name : string)
| UpdateFleet (input : UpdateFleetInput)
| StartFleet (name : string)
| WaitFleetStateRunning (name : string)
| DeleteFleet (name : string)
| DescribeFleets (fleetNames : list string).

(** The connection and the two waiters of the package (wait.go, not
    under src/): what each answers when it is the k-th call made. *)
Record conn := {
  StopFleetWithContext : nat → string → error;
  waitFleetStateStopped : nat → string → error;
  UpdateFleetWithContext : nat → UpdateFleetInput → error;
  StartFleetWithContext : nat → string → error;
  waitFleetStateRunning : nat → string → error;
  DeleteFleetWithContext : nat → string → error;
  DescribeFleetsWithContext : nat → list string → list Fleet * error
}.

(** The attributes whose change needs a stopped fleet. *)
Definition stopKeys : list string :=
  [AttrDescription; "domain_join_info"; "enable_default_internet_access";
   "iam_role_arn"; AttrInstanceType; "max_user_duration_in_seconds";
   "stream_view"; AttrVPCConfig]%string.

(** [if d.HasChange(key) { input.Field = ... d.Get(key) ... }]. *)
Definition changed (d : ResourceData) (key : string) : option any :=
  if HasChange d key then Some (Get d key) else None.

(** The request that [resourceFleetUpdate] builds. *)
Definition updateInput (d : ResourceData) : UpdateFleetInput :=
  {| Name := Id d;
     ComputeCapacity := changed d "compute_capacity";
     Description := changed d AttrDescription;
     DomainJoinInfo := changed d "domain_join_info";
     DisconnectTimeoutInSeconds := changed d "disconnect_timeout_in_seconds";
     EnableDefaultInternetAccess := changed d "enable_default_internet_access";
     IdleDisconnectTimeoutInSeconds := changed d "idle_disconnect_timeout_in_seconds";
     DisplayName := changed d AttrDisplayName;
     ImageName := changed d "image_name";
     ImageArn := changed d "image_arn";
     IamRoleArn := changed d "iam_role_arn";
     StreamView := changed d "stream_view";
     InstanceType := changed d AttrInstanceType;
     MaxSessionsPerInstance := changed d "max_sessions_per_instance";
     MaxUserDurationInSeconds := changed d "max_user_duration_in_seconds";
     VpcConfig := changed d AttrVPCConfig |}.

(** The result of a CRUD function: the diagnostics, the resource data and
    the calls made so far. *)
Definition outcome : Type := Diagnostics * ResourceData * list call.

(** *** resourceFleetRead *)
Definition resourceFleetRead (c : conn) (d : ResourceData) (log : list call)
  : outcome :=
  let diags : Diagnostics := [] in
  let '(fleets, err) := DescribeFleetsWithContext c (length log) [Id d] in
  let log := log ++ [DescribeFleets [Id d]] in
  if negb (IsNewResource d) && ErrCodeEquals err ErrCodeResourceNotFoundException
  then (diags, SetId "" d, log)
  else match err with
       | Some e =>
           (AppendErrorf diags
              ("reading Appstream Fleet (" +:+ Id d +:+ "): " +:+ Error e), d, log)
       | None =>
           match fleets with
           | [] =>
               (AppendErrorf diags
                  ("reading Appstream Fleet (" +:+ Id d +:+ "): " +:+ "empty response"),
                d, log)
           | [fleet] =>
               (diags, foldl (λ d' kv, Set_ kv.1 kv.2 d') d fleet, log)
           | _ =>
               (AppendErrorf diags
                  ("reading Appstream Fleet (" +:+ Id d +:+ "): " +:+ "multiple fleets found"),
                d, log)
           end
       end.

(** *** resourceFleetUpdate *)
Definition resourceFleetUpdate (c : conn) (d : ResourceData) (log : list call)
  : outcome :=
  let diags : Diagnostics := [] in
  let shouldStop := HasChanges d stopKeys in
  (* Stop fleet workflow if needed *)
  let stopped : option Diagnostics * list call :=
    if shouldStop then
      let err := StopFleetWithContext c (length log) (Id d) in
      let log := log ++ [StopFleet (Id d)] in
      match err with
      | Some e =>
          (Some (AppendErrorf diags
                   ("stopping Appstream Fleet (" +:+ Id d +:+ "): " +:+ Error e)), log)
      | None =>
          let err := waitFleetStateStopped c (length log) (Id d) in
          let log := log ++ [WaitFleetStateStopped (Id d)] in
          match err with
          | Some e =>
              (Some (AppendErrorf diags
                       ("waiting for Appstream Fleet (" +:+ Id d
                        +:+ ") to be stopped: " +:+ Error e)), log)
          | None => (None, log)
          end
      end
    else (None, log) in
  match stopped with
  | (Some diags, log) => (diags, d, log)
  | (None, log) =>
      let input := updateInput d in
      let err := UpdateFleetWithContext c (length log) input in
      let log := log ++ [UpdateFleet input] in
      match err with
      | Some e =>
          (AppendErrorf diags
             ("updating Appstream Fleet (" +:+ Id d +:+ "): " +:+ Error e), d, log)
      | None =>
          (* Start fleet workflow if stopped *)
          let started : option Diagnostics * list call :=
            if shouldStop then
              let err := StartFleetWithContext c (length log) (Id d) in
              let log := log ++ [StartFleet (Id d)] in
              match err with
              | Some e =>
                  (Some (AppendErrorf diags
                           ("starting Appstream Fleet (" +:+ Id d +:+ "): "
                            +:+ Error e)), log)
              | None =>
                  let err := waitFleetStateRunning c (length log) (Id d) in
                  let log := log ++ [WaitFleetStateRunning (Id d)] in
                  match err with
                  | Some e =>
                      (Some (AppendErrorf diags
                               ("waiting for Appstream Fleet (" +:+ Id d
                                +:+ ") to be running: " +:+ Error e)), log)
                  | None => (None, log)
                  end
              end
            else (None, log) in
          match started with
          | (Some diags, log) => (diags, d, log)
          | (None, log) =>
              let '(rdiags, d, log) := resourceFleetRead c d log in
              (diags ++ rdiags, d, log)
          end
      end
  end.

(** *** resourceFleetDelete *)
Definition resourceFleetDelete (c : conn) (d : ResourceData) (log : list call)
  : outcome :=
  let diags : Diagnostics := [] in
  (* Stop fleet workflow *)
  let err := StopFleetWithContext c (length log) (Id d) in
  let log := log ++ [StopFleet (Id d)] in
  if ErrCodeEquals err ErrCodeResourceNotFoundException
  then (diags, d, log)
  else match err with
       | Some e =>
           (AppendErrorf diags
              ("stopping Appstream Fleet (" +:+ Id d +:+ "): " +:+ Error e), d, log)
       | None =>
           let err := waitFleetStateStopped c (length log) (Id d) in
           let log := log ++ [WaitFleetStateStopped (Id d)] in
           match err with
           | Some e =>
               (AppendErrorf diags
                  ("waiting for Appstream Fleet (" +:+ Id d
                   +:+ ") to be stopped: " +:+ Error e), d, log)
           | None =>
               let err := DeleteFleetWithContext c (length log) (Id d) in
               let log := log ++ [DeleteFleet (Id d)] in
               if ErrCodeEquals err ErrCodeResourceNotFoundException
               then (diags, d, log)
               else match err with
                    | Some e =>
                        (AppendErrorf diags
                           ("deleting Appstream Fleet (" +:+ Id d +:+ "): "
                            +:+ Error e), d, log)
                    | None => (diags, d, log)
                    end
           end
       end.

(** *** The calls of an update *)

(** The calls that an update makes when [k] calls were made before it,
    read off the answers it gets. *)
Definition updateCalls (c : conn) (d : ResourceData) (k : nat) : list call :=
  let id := Id d in
  let input := updateInput d in
  if HasChanges d stopKeys then
    StopFleet id ::
    match StopFleetWithContext c k id with
    | Some _ => []
    | None =>
        WaitFleetStateStopped id ::
        match waitFleetStateStopped c (k + 1) id with
        | Some _ => []
        | None =>
            UpdateFleet input ::
            match UpdateFleetWithContext c (k + 2) input with
            | Some _ => []
            | None =>
                StartFleet id ::
                match StartFleetWithContext c (k + 3) id with
                | Some _ => []
                | None =>
                    WaitFleetStateRunning id ::
                    match waitFleetStateRunning c (k + 4) id with
                    | Some _ => []
                    | None => [DescribeFleets [id]]
                    end
                end
            end
        end
    end
  else
    UpdateFleet input ::
    match UpdateFleetWithContext c k input with
    | Some _ => []
    | None => [DescribeFleets [id]]
    end.

Lemma resourceFleetRead_log c d log :
  (resourceFleetRead c d log).2 = log ++ [DescribeFleets [Id d]].
Proof.
  unfold resourceFleetRead.
  destruct (DescribeFleetsWithContext c (length log) [Id d]) as [fleets e].
  destruct (negb (IsNewResource d) && ErrCodeEquals e ErrCodeResourceNotFoundException);
    [done|].
  destruct e; [done|]. by destruct fleets as [|? [|? ?]].
Qed.

Ltac log_norm :=
  repeat (rewrite length_app; simpl length);
  rewrite <- ?Nat.add_assoc; simpl Nat.add.

(** The properties of a list of calls that is known in full. *)
Ltac calls_case :=
  split_and!; try done;
  try (intros [|[|[|[|[|[|[|i]]]]]]] input Hi; by simplify_eq/=);
  try (intros; simplify_eq/=; split_and!; try done; intros; by simplify_eq/=).

Lemma resourceFleetUpdate_log c d log :
  (resourceFleetUpdate c d log).2 = log ++ updateCalls c d (length log).
Proof.
  unfold resourceFleetUpdate, updateCalls.
  destruct (HasChanges d stopKeys); log_norm.
  - destruct (StopFleetWithContext c (length log) (Id d)); [done|]. log_norm.
    destruct (waitFleetStateStopped c (length log + 1) (Id d));
      [by rewrite <- app_assoc|]. log_norm.
    destruct (UpdateFleetWithContext c (length log + 2) (updateInput d));
      [by rewrite <- !app_assoc|]. log_norm.
    destruct (StartFleetWithContext c (length log + 3) (Id d));
      [by rewrite <- !app_assoc|]. log_norm.
    destruct (waitFleetStateRunning c (length log + 4) (Id d));
      [by rewrite <- !app_assoc|].
    pose proof (resourceFleetRead_log c d
      (((((log ++ [StopFleet (Id d)]) ++ [WaitFleetStateStopped (Id d)])
          ++ [UpdateFleet (updateInput d)]) ++ [StartFleet (Id d)])
          ++ [WaitFleetStateRunning (Id d)])) as Hr.
    destruct (resourceFleetRead c d _) as [[rd d'] log']. simpl in *.
    rewrite Hr. by rewrite <- !app_assoc.
  - destruct (UpdateFleetWithContext c (length log) (updateInput d)); [done|].
    pose proof (resourceFleetRead_log c d (log ++ [UpdateFleet (updateInput d)])) as Hr.
    destruct (resourceFleetRead c d _) as [[rd d'] log']. simpl in *.
    rewrite Hr. by rewrite <- !app_assoc.
Qed.


(** A fleet whose description changes, on a connection that answers
    every call with success. *)
Definition allOk : conn :=
  {| StopFleetWithContext := λ _ _, None;
     waitFleetStateStopped := λ _ _, None;
     UpdateFleetWithContext := λ _ _, None;
     StartFleetWithContext := λ _ _, None;
     waitFleetStateRunning := λ _ _, None;
     DeleteFleetWithContext := λ _ _, None;
     DescribeFleetsWithContext := λ _ _, ([[]], None) |}.

Definition newDescription : ResourceData :=
  {| Id := "fleet-1"; IsNewResource := false;
     prior := {[ "description"%string := VString "old" ]};
     planned := {[ "description"%string := VString "new" ]} |}.

(** A fleet of which only the display name changes. *)
Definition newDisplayName : ResourceData :=
  {| Id := "fleet-1"; IsNewResource := false;
     prior := {[ "display_name"%string := VString "old" ]};
     planned := {[ "display_name"%string := VString "new" ]} |}.

Example resourceFleetUpdate_display_name :
  (resourceFleetUpdate allOk newDisplayName []).2
  = [UpdateFleet (updateInput newDisplayName); DescribeFleets ["fleet-1"%string]].
Proof. vm_compute. reflexivity. Qed.


End AppStream.

(** ** Deleting a resource that is already gone *)

Module Deletion.

(** The error diagnostic that [sdkdiag.AppendErrorf] builds from the
    format ["<action> Appstream Fleet (%s): %s"], the identifier and the
    error. *)
Definition errorDiag (action id : string) (e : err) : Diagnostic :=
  {| Severity_ := SeverityError;
     Summary := action +:+ " Appstream Fleet (" +:+ id +:+ "): " +:+ Error e |}.

(** A sample connection: the certificate is in use at the first
    [DeleteCertificate] call and deleted by the second. *)
Definition inUseOnce : ACM.conn :=
  {| ACM.DescribeCertificate := λ _ _, (None, None);
     ACM.DeleteCertificate := λ k _,
       match k with
       | 0 => Some (AwsError ACM.ErrCodeResourceInUseException
                      "certificate is in use")
       | _ => None
       end |}.

(** A sample connection: [DeleteCertificate] fails with an access error. *)
Definition accessDenied : ACM.conn :=
  {| ACM.DescribeCertificate := λ _ _, (None, None);
     ACM.DeleteCertificate := λ _ _,
       Some (AwsError "AccessDeniedException" "not authorized") |}.

Lemma resourceFleetDelete_stop c d log :
  let k := length log in
  let id := Id d in
  let diags := (AppStream.resourceFleetDelete c d log).1.1 in
  (ErrCodeEquals (AppStream.StopFleetWithContext c k id)
     AppStream.ErrCodeResourceNotFoundException = true → diags = [])
  ∧ (∀ e, AppStream.StopFleetWithContext c k id = Some e →
          errCodeEquals e AppStream.ErrCodeResourceNotFoundException = false →
          diags = [errorDiag "stopping" id e]).
Proof.
  intros k id diags. subst diags. unfold AppStream.resourceFleetDelete.
  fold k id. split.
  - intros H. by rewrite H.
  - intros e H He. rewrite H. simpl. by rewrite He.
Qed.

Lemma resourceFleetDelete_delete c d log :
  let k := length log in
  let id := Id d in
  let diags := (AppStream.resourceFleetDelete c d log).1.1 in
  AppStream.StopFleetWithContext c k id = None →
  AppStream.waitFleetStateStopped c (k + 1) id = None →
  (ErrCodeEquals (AppStream.DeleteFleetWithContext c (k + 2) id)
     AppStream.ErrCodeResourceNotFoundException = true → diags = [])
  ∧ (∀ e, AppStream.DeleteFleetWithContext c (k + 2) id = Some e →
          errCodeEquals e AppStream.ErrCodeResourceNotFoundException = false →
          diags = [errorDiag "deleting" id e]).
Proof.
  intros k id diags Hstop Hwait. subst diags.
  unfold AppStream.resourceFleetDelete. fold k id. rewrite Hstop. simpl.
  AppStream.log_norm. fold k. rewrite Hwait.
  AppStream.log_norm. fold k. split.
  - intros H. by rewrite H.
  - intros e H He. rewrite H. simpl. by rewrite He.
Qed.

Lemma resourceCertificateDelete_ends pollsWithin (c : ACM.conn) id m :
  m < pollsWithin ACM.AcmCertificateCrossServicePropagationTimeout →
  (∀ j, j < m →
     ErrCodeEquals (ACM.DeleteCertificate c j id)
       ACM.ErrCodeResourceInUseException = true) →
  ErrCodeEquals (ACM.DeleteCertificate c m id)
    ACM.ErrCodeResourceInUseException = false →
  ACM.resourceCertificateDelete pollsWithin c id =
  (ACM.deleteOutcome id (ACM.DeleteCertificate c m id), S m).
Proof.
  intros Hm Hretry Hend.
  pose proof (ACM.resourceCertificateDelete_outcome pollsWithin c id) as Ho.
  unfold ACM.resourceCertificateDelete, ACM.RetryWhenAWSErrCodeEquals in *.
  rewrite (ACM.retryWhen_first _ _ m) in *;
    [| done | intros j Hj; apply Hretry; lia | done
     | done | intros j Hj; apply Hretry; lia | done].
  simpl in *.
  destruct (ACM.DeleteCertificate c m id) as [e|]; simpl in *; [|done].
  by destruct (errCodeEquals e ACM.ErrCodeResourceNotFoundException).
Qed.

Lemma resourceCertificateDelete_exhausted pollsWithin (c : ACM.conn) id :
  let tries := pollsWithin ACM.AcmCertificateCrossServicePropagationTimeout in
  0 < tries →
  (∀ j, j < tries →
     ErrCodeEquals (ACM.DeleteCertificate c j id)
       ACM.ErrCodeResourceInUseException = true) →
  ACM.resourceCertificateDelete pollsWithin c id =
  (ACM.deleteOutcome id (ACM.DeleteCertificate c (tries - 1) id), tries).
Proof.
  intros tries Htries Hretry.
  unfold ACM.resourceCertificateDelete, ACM.RetryWhenAWSErrCodeEquals.
  fold tries.
  rewrite ACM.retryWhen_exhausted;
    [| intros j Hj; apply Hretry; lia | by right].
  rewrite bool_decide_eq_false_2 by lia. simpl.
  destruct (ACM.DeleteCertificate c (tries - 1) id) as [e|]; simpl; [|done].
  by destruct (errCodeEquals e ACM.ErrCodeResourceNotFoundException).
Qed.

(** An error that carries the in-use code does not carry the not-found
    code. *)
Lemma inUse_not_notFound (e : err) :
  errCodeEquals e ACM.ErrCodeResourceInUseException = true →
  errCodeEquals e ACM.ErrCodeResourceNotFoundException = false.
Proof.
  induction e; simpl; try done.
  intros ->%bool_decide_eq_true. reflexivity.
Qed.

(** A sample fleet connection: the fleet is gone when it is to be
    stopped. *)
Definition fleetGone : AppStream.conn :=
  {| AppStream.StopFleetWithContext := λ _ _,
       Some (AwsError AppStream.ErrCodeResourceNotFoundException "no such fleet");
     AppStream.waitFleetStateStopped := λ _ _, None;
     AppStream.UpdateFleetWithContext := λ _ _, None;
     AppStream.StartFleetWithContext := λ _ _, None;
     AppStream.waitFleetStateRunning := λ _ _, None;
     AppStream.DeleteFleetWithContext := λ _ _, None;
     AppStream.DescribeFleetsWithContext := λ _ _, ([], None) |}.

Definition sampleFleet : ResourceData :=
  {| Id := "fleet-1"; IsNewResource := false; prior := ∅; planned := ∅ |}.

(** C9, as amended.  [resourceFleetDelete] returns no diagnostics when
    StopFleet or DeleteFleet fails with ResourceNotFoundException, and an
    error diagnostic with the error for any other failure of these calls.
    [resourceCertificateDelete] retries DeleteCertificate for as long as
    it fails with ResourceInUseException and the timeout leaves room; of
    the answer that ends the retries it returns nil when that is
    ResourceNotFoundException and the wrapped error when it is any other
    error; when the tries run out it returns the last
    ResourceInUseException error, wrapped. *)
Theorem delete_gone_resource_spec (fc : AppStream.conn) (d : ResourceData)
    (log : list AppStream.call) (pollsWithin : ACM.Duration → nat)
    (ac : ACM.conn) (arn : string) :
  let k := length log in
  let id := Id d in
  let diags := (AppStream.resourceFleetDelete fc d log).1.1 in
  let tries := pollsWithin ACM.AcmCertificateCrossServicePropagationTimeout in
  let result := (ACM.resourceCertificateDelete pollsWithin ac arn).1 in
  let inUse j := ErrCodeEquals (ACM.DeleteCertificate ac j arn)
                   ACM.ErrCodeResourceInUseException in
  (ErrCodeEquals (AppStream.StopFleetWithContext fc k id)
     AppStream.ErrCodeResourceNotFoundException = true → diags = [])
  ∧ (∀ e, AppStream.StopFleetWithContext fc k id = Some e →
          errCodeEquals e AppStream.ErrCodeResourceNotFoundException = false →
          diags = [errorDiag "stopping" id e])
  ∧ (AppStream.StopFleetWithContext fc k id = None →
     AppStream.waitFleetStateStopped fc (k + 1) id = None →
     (ErrCodeEquals (AppStream.DeleteFleetWithContext fc (k + 2) id)
        AppStream.ErrCodeResourceNotFoundException = true → diags = [])
     ∧ (∀ e, AppStream.DeleteFleetWithContext fc (k + 2) id = Some e →
             errCodeEquals e AppStream.ErrCodeResourceNotFoundException = false →
             diags = [errorDiag "deleting" id e]))
  ∧ (∀ m, m < tries → (∀ j, j < m → inUse j = true) → inUse m = false →
       (ACM.DeleteCertificate ac m arn = None → result = None)
       ∧ (ErrCodeEquals (ACM.DeleteCertificate ac m arn)
            ACM.ErrCodeResourceNotFoundException = true → result = None)
       ∧ (∀ e, ACM.DeleteCertificate ac m arn = Some e →
               errCodeEquals e ACM.ErrCodeResourceNotFoundException = false →
               result = Some (Wrapped ("deleting ACM Certificate ("
                                       +:+ arn +:+ "): ") e)))
  ∧ (0 < tries → (∀ j, j < tries → inUse j = true) →
     ∃ e, ACM.DeleteCertificate ac (tries - 1) arn = Some e
          ∧ errCodeEquals e ACM.ErrCodeResourceInUseException = true
          ∧ result = Some (Wrapped ("deleting ACM Certificate ("
                                    +:+ arn +:+ "): ") e)).
Proof.
  intros k id diags tries result inUse.
  destruct (resourceFleetDelete_stop fc d log) as [Hs1 Hs2].
  split; [done|]. split; [done|]. split; [apply resourceFleetDelete_delete|].
  split.
  - intros m Hm Hretry Hend. subst result.
    rewrite (resourceCertificateDelete_ends pollsWithin ac arn m Hm Hretry Hend).
    simpl. split; [by intros ->|]. split.
    + destruct (ACM.DeleteCertificate ac m arn) as [e|]; simpl; [|done].
      by intros ->.
    + intros e -> He. simpl. by rewrite He.
  - intros Htries Hretry. subst result.
    rewrite (resourceCertificateDelete_exhausted pollsWithin ac arn Htries Hretry).
    fold tries. pose proof (Hretry (tries - 1) ltac:(lia)) as Hlast.
    unfold inUse in Hlast.
    destruct (ACM.DeleteCertificate ac (tries - 1) arn) as [e|]; [|discriminate].
    exists e. split; [done|]. split; [done|]. simpl in *.
    by rewrite (inUse_not_notFound e Hlast).
Qed.

(** The theorem at the sample connections: a fleet that is gone is
    deleted without diagnostics, and an access error of DeleteCertificate
    is returned wrapped. *)
Lemma delete_gone_resource_witness :
  (AppStream.resourceFleetDelete fleetGone sampleFleet []).1.1 = []
  ∧ (ACM.resourceCertificateDelete (λ _, 3) accessDenied "arn:cert").1
    = Some (Wrapped "deleting ACM Certificate (arn:cert): "
              (AwsError "AccessDeniedException" "not authorized")).
Proof.
  destruct (delete_gone_resource_spec fleetGone sampleFleet [] (λ _, 3)
              accessDenied "arn:cert") as (H1 & _ & _ & H4 & _).
  split.
  - apply H1. reflexivity.
  - destruct (H4 0) as (_ & _ & H); [simpl; lia | intros j Hj; lia | reflexivity |].
    apply H; reflexivity.
Defined.

(** The claim as first stated fails: the first DeleteCertificate call
    fails with ResourceInUseException, which is not the not-found error,
    and [resourceCertificateDelete] still returns nil, after a second
    call. *)
Lemma delete_in_use_error_is_retried :
  ACM.DeleteCertificate inUseOnce 0 "arn:cert"
  = Some (AwsError "ResourceInUseException" "certificate is in use")
  ∧ ErrCodeEquals (ACM.DeleteCertificate inUseOnce 0 "arn:cert")
      ACM.ErrCodeResourceNotFoundException = false
  ∧ ACM.resourceCertificateDelete (λ _, 3) inUseOnce "arn:cert" = (None, 2).
Proof. repeat split. Qed.

End Deletion.

(** ** ECS task execution: internal/service/ecs/task_execution_data_source.go *)

Module ECS.

Definition DSNameTaskExecution : string := "Task Execution Data Source".

(** [ecs.RunTaskInput].  An optional field holds the schema value it is
    built from; the expanders only reshape that value. *)
Record RunTaskInput := {
  Cluster : string;
  TaskDefinition : string;
  Tags : option (list (string * string));
  CapacityProviderStrategy : option any;
  ClientToken : option any;
  Count : option any;
  EnableECSManagedTags : option any;
  EnableExecuteCommand : option any;
  Group : option any;
  LaunchType : option any;
  NetworkConfiguration : option any;
  Overrides : option any;
  PlacementConstraints : option any;
  PlacementStrategy : option any;
  PlatformVersion : option any;
  PropagateTags : option any;
  ReferenceId : option any;
  StartedBy : option any
}.

(** [ecs.RunTaskOutput]: the ARNs of the tasks started. *)
Record RunTaskOutput := { Tasks : list string }.

(** What the data source does to the outside and to its identifier, in
    order. *)
Inductive event :=
| SetIdEvent (id : string)
| RunTaskEvent (input : RunTaskInput).

(** [if v, ok := d.GetOk(key); ok { input.Field = ... v ... }]. *)
Definition whenSet (d : ResourceData) (key : string) : option any :=
  let '(v, ok) := GetOk d key in if ok then Some v else None.

(** Modelled from the spec: [create.AppendDiagError] (internal/create, not
    under src/) appends one error diagnostic that names the action, the
    service, the resource, its identifier and the error. *)
Definition AppendDiagError (diags : Diagnostics) (service action resource id : string)
    (e : err) : Diagnostics :=
  diags ++ [{| Severity_ := SeverityError;
               Summary := action +:+ " " +:+ service +:+ " " +:+ resource
                          +:+ " (" +:+ id +:+ "): " +:+ Error e |}].

Definition ErrActionCreating : string := "creating".
Definition ECSServiceName : string := "ECS".

Section Read.

(** Functions of the provider that are not under src/: the merge of the
    default tags with the configured ones without the AWS-reserved keys,
    and the two expanders that can fail. *)
Variable mergedTags : any → list (string * string).
Variable expandPlacementConstraints : any → any + err.
Variable expandPlacementStrategy : any → any + err.

(** The answer of [conn.RunTaskWithContext]; a [nil] output is [None]. *)
Variable RunTaskWithContext : RunTaskInput → option RunTaskOutput * error.

(** *** dataSourceTaskExecutionRead *)
Definition dataSourceTaskExecutionRead (d : ResourceData)
  : Diagnostics * ResourceData * list event :=
  let diags : Diagnostics := [] in
  let cluster := GetString d "cluster" in
  let taskDefinition := GetString d "task_definition" in
  let d := SetId (Join [cluster; taskDefinition] ",") d in
  let log := [SetIdEvent (Id d)] in
  let tags := mergedTags (Get d "tags") in
  let inputTags := if bool_decide (0 < length tags) then Some tags else None in
  (* placement_constraints *)
  let constraints : option any + err :=
    match whenSet d "placement_constraints" with
    | Some v =>
        match expandPlacementConstraints v with
        | inl pc => inl (Some pc)
        | inr e => inr e
        end
    | None => inl None
    end in
  match constraints with
  | inr e =>
      (AppendDiagError diags ECSServiceName ErrActionCreating DSNameTaskExecution
         (Id d) e, d, log)
  | inl pc =>
      (* placement_strategy *)
      let strategy : option any + err :=
        match whenSet d "placement_strategy" with
        | Some v =>
            match expandPlacementStrategy v with
            | inl ps => inl (Some ps)
            | inr e => inr e
            end
        | None => inl None
        end in
      match strategy with
      | inr e =>
          (AppendDiagError diags ECSServiceName ErrActionCreating
             DSNameTaskExecution (Id d) e, d, log)
      | inl ps =>
          let input :=
            {| Cluster := cluster;
               TaskDefinition := taskDefinition;
               Tags := inputTags;
               CapacityProviderStrategy := whenSet d "capacity_provider_strategy";
               ClientToken := whenSet d "client_token";
               Count := whenSet d "desired_count";
               EnableECSManagedTags := whenSet d "enable_ecs_managed_tags";
               EnableExecuteCommand := whenSet d "enable_execute_command";
               Group := whenSet d "group";
               LaunchType := whenSet d "launch_type";
               NetworkConfiguration := whenSet d "network_configuration";
               Overrides := whenSet d "overrides";
               PlacementConstraints := pc;
               PlacementStrategy := ps;
               PlatformVersion := whenSet d "platform_version";
               PropagateTags := whenSet d "propagate_tags";
               ReferenceId := whenSet d "reference_id";
               StartedBy := whenSet d "started_by" |} in
          let '(out, err) := RunTaskWithContext input in
          let log := log ++ [RunTaskEvent input] in
          match err with
          | Some e =>
              (AppendDiagError diags ECSServiceName ErrActionCreating
                 DSNameTaskExecution (Id d) e, d, log)
          | None =>
              match out with
              | None =>
                  (AppendDiagError diags ECSServiceName ErrActionCreating
                     DSNameTaskExecution (Id d) EmptyResultError, d, log)
              | Some o =>
                  if bool_decide (length (Tasks o) = 0)
                  then (AppendDiagError diags ECSServiceName ErrActionCreating
                          DSNameTaskExecution (Id d) EmptyResultError, d, log)
                  else (diags, Set_ "task_arns" (VStrings (Tasks o)) d, log)
              end
          end
      end
  end.

End Read.

(** The three parts of the statement below, for an outcome that is known
    in full. *)
Ltac read_case :=
  cbn [fst snd]; split_and!;
  [ done
  | first [by left | right; eexists; by split_and!]
  | first [by intros dg []%elem_of_nil | by eauto] ].

(** C10.  In every outcome of [dataSourceTaskExecutionRead] the
    identifier is the cluster name, one comma and the task-definition
    name; setting it is the first thing the function does, before the one
    RunTask call if there is one, and it is the identifier that the error
    diagnostics name. *)
Theorem dataSourceTaskExecutionRead_id
    (mergedTags : any → list (string * string))
    (expandPlacementConstraints expandPlacementStrategy : any → any + err)
    (RunTaskWithContext : RunTaskInput → option RunTaskOutput * error)
    (d : ResourceData) :
  let id := (GetString d "cluster" +:+ "," +:+ GetString d "task_definition")%string in
  let r := dataSourceTaskExecutionRead mergedTags expandPlacementConstraints
             expandPlacementStrategy RunTaskWithContext d in
  Id r.1.2 = id
  ∧ (r.2 = [SetIdEvent id]
     ∨ ∃ input, r.2 = [SetIdEvent id; RunTaskEvent input]
                ∧ Cluster input = GetString d "cluster"
                ∧ TaskDefinition input = GetString d "task_definition")
  ∧ (∀ dg, dg ∈ r.1.1 →
       ∃ e, Summary dg = ("creating ECS Task Execution Data Source ("
                          +:+ id +:+ "): " +:+ Error e)%string).
Proof.
  intros id r. subst r. unfold dataSourceTaskExecutionRead.
  change (Join [GetString d "cluster"; GetString d "task_definition"] ",")
    with id.
  change (Id (SetId id d)) with id.
  assert (Hdiag : ∀ e dg,
    dg ∈ AppendDiagError [] ECSServiceName ErrActionCreating DSNameTaskExecution id e →
    ∃ e', Summary dg = ("creating ECS Task Execution Data Source ("
                        +:+ id +:+ "): " +:+ Error e')%string).
  { intros e dg [->|[]%elem_of_nil]%elem_of_cons. by exists e. }
  destruct (whenSet (SetId id d) "placement_constraints") as [v|];
    [destruct (expandPlacementConstraints v) as [pc|e]; [|by read_case] |];
    (destruct (whenSet (SetId id d) "placement_strategy") as [v'|];
      [destruct (expandPlacementStrategy v') as [ps|e]; [|by read_case] |]);
    destruct (RunTaskWithContext _) as [[o|] [e|]];
    try case_bool_decide; by read_case.
Qed.

(** A read that RunTask refuses: the identifier is set all the same. *)
Example dataSourceTaskExecutionRead_refused :
  let d := {| Id := ""; IsNewResource := false; prior := ∅;
              planned := {[ "cluster"%string := VString "main";
                            "task_definition"%string := VString "job:3" ]} |} in
  let r := dataSourceTaskExecutionRead (λ _, []) inl inl
             (λ _, (None, Some (AwsError "AccessDeniedException" "no"))) d in
  Id r.1.2 = "main,job:3"%string
  ∧ Summary <$> r.1.1
    = ["creating ECS Task Execution Data Source (main,job:3): AccessDeniedException: no"%string].
Proof. vm_compute. done. Qed.

End ECS.

(** ** WAF: the change-token retryer and the callers of
       internal/service/waf/regex_match_set_test.go *)

Module WAF.

(** A change token: an opaque string issued by the remote API. *)
Definition ChangeToken := string.

(** The failure conditions of the remote API. *)
Inductive failure :=
| StaleToken
| ConcurrentModification
| NotYetPropagated
| Throttled
| PermissionDenied
| ValidationFailed
| ResourceAbsent
| MalformedRequest.

#[global] Instance failure_eq_dec : EqDecision failure.
Proof. solve_decision. Defined.

(** The retry policy: the time budget, the wait after the k-th attempt
    and the failures that are retried.  Times are in ticks of one clock. *)
Record RetryPolicy := {
  MaxDuration : nat;
  Delay : nat → nat;
  Retryable : failure → bool
}.

(** The failures that are retried by default: a stale token, a
    concurrent modification, a resource that is not visible yet. *)
Definition defaultRetryable (e : failure) : bool :=
  match e with
  | StaleToken | ConcurrentModification | NotYetPropagated => true
  | _ => false
  end.

(** The errors that [RetryWithToken] signals. *)
Inductive retryError :=
| Timeout (last : failure)
| Canceled
| Fatal (cause : failure).

(** The remote side of the token fetch: the answer of the k-th fetch and
    the time it takes. *)
Record remote := {
  FetchChangeToken : nat → ChangeToken + failure;
  fetchDuration : nat → nat
}.

(** A caller-supplied operation: the answer of its k-th invocation for
    the token it is given, and the time that invocation takes. *)
Record operation (R : Type) := {
  invoke : nat → ChangeToken → R + failure;
  invokeDuration : nat → nat
}.
Arguments invoke {R}.
Arguments invokeDuration {R}.

(** What the retryer does, in order. *)
Inductive event :=
| EvFetch (k : nat) (answer : ChangeToken + failure)
| EvInvoke (k : nat) (token : ChangeToken)
| EvWait (start finish : nat).

(** The state of a call of [RetryWithToken] when it returns, or when the
    fuel of the model ran out ([result = None]): the numbers of fetches
    and invocations made, the clock, and the events in order. *)
Record outcome (R : Type) := {
  result : option (R + retryError);
  fetches : nat;
  invocations : nat;
  clock : nat;
  trace : list event
}.
Arguments result {R}.
Arguments fetches {R}.
Arguments invocations {R}.
Arguments clock {R}.
Arguments trace {R}.

(** The events [evs] happened before the outcome [o]. *)
Definition after {R} (evs : list event) (o : outcome R) : outcome R :=
  {| result := result o; fetches := fetches o; invocations := invocations o;
     clock := clock o; trace := evs ++ trace o |}.

(** How a wait between two attempts ends. *)
Inductive waitResult :=
| WaitCanceled (now : nat)
| WaitTimedOut (now : nat)
| WaitDone (now : nat).

(** Modelled from the spec: the wait of [d] ticks that starts at [now]
    under a context that is canceled at [cancelAt] and a budget that ends
    at [MaxDuration].  It ends at the earliest of the cancellation, the
    end of the budget and the end of the delay; a cancellation that is
    already there wins, then the end of the budget. *)
Definition wait (p : RetryPolicy) (cancelAt : option nat) (now d : nat)
  : waitResult :=
  let wake := now + d in
  let deadline := MaxDuration p `max` now in
  let expiry := if bool_decide (deadline ≤ wake) then WaitTimedOut deadline
                else WaitDone wake in
  match cancelAt with
  | Some c =>
      let tc := c `max` now in
      if bool_decide (tc ≤ deadline ∧ tc ≤ wake) then WaitCanceled tc else expiry
  | None => expiry
  end.

Section Retryer.

Context {R : Type}.
Variable p : RetryPolicy.
Variable rm : remote.
Variable cancelAt : option nat.
Variable op : operation R.

(** Modelled from the spec: what follows the failure [e] of attempt [k]
    (section 4.1, steps 4 and 5, and step 1 for a failed fetch).  A
    failure that is not retryable is returned as fatal; after a retryable
    one the retryer waits, and returns the cancellation, or the timeout
    around [e], or goes on with [continue] at the end of the wait. *)
Definition afterFailure (e : failure) (k nf ni now : nat)
    (continue : nat → outcome R) : outcome R :=
  if Retryable p e then
    match wait p cancelAt now (Delay p k) with
    | WaitCanceled t =>
        {| result := Some (inr Canceled); fetches := nf; invocations := ni;
           clock := t; trace := [EvWait now t] |}
    | WaitTimedOut t =>
        {| result := Some (inr (Timeout e)); fetches := nf; invocations := ni;
           clock := t; trace := [EvWait now t] |}
    | WaitDone t => after [EvWait now t] (continue t)
    end
  else
    {| result := Some (inr (Fatal e)); fetches := nf; invocations := ni;
       clock := now; trace := [] |}.

(** Modelled from the spec: the loop of [RetryWithToken] (internal/service/waf,
    not under src/; section 4.1 of the spec).  Each round fetches a token,
    hands it to the operation if the fetch succeeded, returns a success,
    and treats a failure as [afterFailure] says.  The state that one round
    passes to the next is the number of fetches [nf], the number of
    invocations [ni] and the clock: no token.  [fuel] bounds the rounds
    of the model. *)
Fixpoint retryLoop (fuel nf ni now : nat) : outcome R :=
  match fuel with
  | 0 =>
      {| result := None; fetches := nf; invocations := ni; clock := now;
         trace := [] |}
  | S fuel' =>
      let answer := FetchChangeToken rm nf in
      let now := now + fetchDuration rm nf in
      match answer with
      | inr e =>
          after [EvFetch nf answer]
            (afterFailure e nf (S nf) ni now (retryLoop fuel' (S nf) ni))
      | inl token =>
          let r := invoke op ni token in
          let now := now + invokeDuration op ni in
          after [EvFetch nf answer; EvInvoke ni token]
            match r with
            | inl v =>
                {| result := Some (inl v); fetches := S nf; invocations := S ni;
                   clock := now; trace := [] |}
            | inr e =>
                afterFailure e nf (S nf) (S ni) now (retryLoop fuel' (S nf) (S ni))
            end
      end
  end.

Definition RetryWithToken (fuel : nat) : outcome R := retryLoop fuel 0 0 0.

(** *** Runs in which the first attempts fail at the operation *)

(** The instants at which attempt [i] starts and ends when every earlier
    attempt fetched a token, invoked the operation and waited its delay. *)
Fixpoint startOf (i : nat) : nat :=
  match i with
  | 0 => 0
  | S j => startOf j + fetchDuration rm j + invokeDuration op j + Delay p j
  end.

Definition endOf (i : nat) : nat :=
  startOf i + fetchDuration rm i + invokeDuration op i.

(** The instant [t] lies within the budget and before any cancellation. *)
Definition inTime (t : nat) : Prop :=
  t < MaxDuration p ∧ ∀ c, cancelAt = Some c → t < c.

(** Attempt [i] fetches [tok i] and hands it to the operation. *)
Definition fetchesToken (tok : nat → ChangeToken) (i : nat) : Prop :=
  FetchChangeToken rm i = inl (tok i).

(** Each of the first [N] attempts fetches a token, fails at the
    operation with a retryable failure, and its wait ends in time. *)
Definition retriedUntil (N : nat) (tok : nat → ChangeToken) (errs : nat → failure)
  : Prop :=
  ∀ i, i < N →
    fetchesToken tok i
    ∧ invoke op i (tok i) = inr (errs i)
    ∧ Retryable p (errs i) = true
    ∧ inTime (startOf (S i)).

(** The events of a failed attempt that is retried. *)
Definition retriedEvents (tok : nat → ChangeToken) (i : nat) : list event :=
  [EvFetch i (inl (tok i)); EvInvoke i (tok i); EvWait (endOf i) (startOf (S i))].

Definition retriedTrace (tok : nat → ChangeToken) (k m : nat) : list event :=
  flat_map (retriedEvents tok) (seq k m).

(** The two events of an attempt that reaches the operation. *)
Definition invokedEvents (tok : nat → ChangeToken) (i : nat) : list event :=
  [EvFetch i (inl (tok i)); EvInvoke i (tok i)].

Definition isFetch (ev : event) : bool :=
  match ev with EvFetch _ _ => true | _ => false end.

Definition isInvoke (ev : event) : bool :=
  match ev with EvInvoke _ _ => true | _ => false end.

(** The number of the fetch, or of the invocation, that an event records. *)
Definition fetchIndex (ev : event) : option nat :=
  match ev with EvFetch k _ => Some k | _ => None end.

Definition invokeIndex (ev : event) : option nat :=
  match ev with EvInvoke k _ => Some k | _ => None end.

(** The number of events of a kind in a trace. *)
Definition countOf (f : event → bool) (tr : list event) : nat :=
  length (List.filter f tr).

(** The tokens in a trace are used when fresh: an invocation comes right
    after the fetch that answered with its token, and a fetched token is
    handed to the operation right away. *)
Definition freshTokens (tr : list event) : Prop :=
  (∀ i k tok, tr !! i = Some (EvInvoke k tok) →
     ∃ i' j, i = S i' ∧ tr !! i' = Some (EvFetch j (inl tok)))
  ∧ (∀ i j tok, tr !! i = Some (EvFetch j (inl tok)) →
       ∃ k, tr !! (S i) = Some (EvInvoke k tok)).

End Retryer.

(** *** The callers: testAccCheckRegexMatchSetDisappears *)

Record RegexMatchTuple := {
  FieldToMatch : string;
  RegexPatternSetId : string;
  TextTransformation : string
}.

Record RegexMatchSet := {
  RegexMatchSetId : string;
  RegexMatchTuples : list RegexMatchTuple
}.

Record RegexMatchSetUpdate := {
  Action : string;
  UpdateTuple : RegexMatchTuple
}.

Record UpdateRegexMatchSetInput := {
  UpdateChangeToken : ChangeToken;
  UpdateRegexMatchSetId : string;
  Updates : list RegexMatchSetUpdate
}.

Record DeleteRegexMatchSetInput := {
  DeleteChangeToken : ChangeToken;
  DeleteRegexMatchSetId : string
}.

(** The WAF client: the answers of the k-th invocation of a closure that
    calls the operation, and the time the call takes. *)
Record conn := {
  UpdateRegexMatchSet : nat → UpdateRegexMatchSetInput → unit + failure;
  DeleteRegexMatchSet : nat → DeleteRegexMatchSetInput → unit + failure;
  callDuration : nat → nat
}.

(** The first closure: one DELETE update for every tuple of the set, sent
    with the token the closure is given. *)
Definition updateClosure (c : conn) (set : RegexMatchSet) : operation unit :=
  {| invoke := λ k token,
       let req := {| UpdateChangeToken := token;
                     UpdateRegexMatchSetId := RegexMatchSetId set;
                     Updates := [] |} in
       let req :=
         foldl (λ req tuple,
                  {| UpdateChangeToken := UpdateChangeToken req;
                     UpdateRegexMatchSetId := UpdateRegexMatchSetId req;
                     Updates := Updates req
                                ++ [{| Action := "DELETE"; UpdateTuple := tuple |}] |})
               req (RegexMatchTuples set) in
       UpdateRegexMatchSet c k req;
     invokeDuration := callDuration c |}.

(** The second closure: the deletion of the set, sent with the token the
    closure is given. *)
Definition deleteClosure (c : conn) (set : RegexMatchSet) : operation unit :=
  {| invoke := λ k token,
       let opts := {| DeleteChangeToken := token;
                      DeleteRegexMatchSetId := RegexMatchSetId set |} in
       DeleteRegexMatchSet c k opts;
     invokeDuration := callDuration c |}.

(** *** Facts about the retry loop *)

Lemma after_nil {R} (o : outcome R) : after [] o = o.
Proof. by destruct o. Qed.

Lemma after_after {R} (evs evs' : list event) (o : outcome R) :
  after evs (after evs' o) = after (evs ++ evs') o.
Proof. unfold after. simpl. by rewrite app_assoc. Qed.

Section RetryerFacts.

Context {R : Type}.
Variable p : RetryPolicy.
Variable rm : remote.
Variable cancelAt : option nat.
Variable op : operation R.

Local Abbreviation loop := (retryLoop p rm cancelAt op).
Local Abbreviation start := (startOf p rm op).
Local Abbreviation finish := (endOf p rm op).

(** A wait whose end lies within the budget and before any cancellation
    runs to its end. *)
Lemma wait_inTime (now d : nat) :
  inTime p cancelAt (now + d) → wait p cancelAt now d = WaitDone (now + d).
Proof.
  intros [Hd Hc]. unfold wait.
  assert (Hexp : bool_decide (MaxDuration p `max` now ≤ now + d) = false)
    by (apply bool_decide_eq_false_2; lia).
  rewrite Hexp. destruct cancelAt as [c|]; [|done].
  specialize (Hc c eq_refl).
  rewrite bool_decide_eq_false_2; [done | lia].
Qed.

(** A wait that the budget ends, with no cancellation up to then. *)
Lemma wait_timeout (now d : nat) :
  MaxDuration p ≤ now + d →
  (∀ c, cancelAt = Some c → MaxDuration p `max` now < c) →
  wait p cancelAt now d = WaitTimedOut (MaxDuration p `max` now).
Proof.
  intros Hd Hc. unfold wait.
  assert (Hexp : bool_decide (MaxDuration p `max` now ≤ now + d) = true)
    by (apply bool_decide_eq_true_2; lia).
  rewrite Hexp. destruct cancelAt as [c|]; [|done].
  specialize (Hc c eq_refl).
  rewrite bool_decide_eq_false_2; [done | lia].
Qed.

(** A wait during which the context is canceled, within the budget. *)
Lemma wait_canceled (now d c : nat) :
  cancelAt = Some c → now ≤ c → c < now + d → c ≤ MaxDuration p →
  wait p cancelAt now d = WaitCanceled c.
Proof.
  intros -> H1 H2 H3. unfold wait.
  rewrite bool_decide_eq_true_2 by lia.
  f_equal. lia.
Qed.

(** One attempt that fails at the operation and is retried. *)
Lemma retryLoop_retried_once tok errs fuel k now :
  fetchesToken rm tok k →
  invoke op k (tok k) = inr (errs k) →
  Retryable p (errs k) = true →
  let t := now + fetchDuration rm k + invokeDuration op k in
  inTime p cancelAt (t + Delay p k) →
  loop (S fuel) k k now =
  after [EvFetch k (inl (tok k)); EvInvoke k (tok k); EvWait t (t + Delay p k)]
    (loop fuel (S k) (S k) (t + Delay p k)).
Proof.
  intros Hf Hi Hr t Ht. unfold fetchesToken in Hf.
  simpl. rewrite !Hf, Hi. unfold afterFailure.
  rewrite Hr. fold t. rewrite (wait_inTime _ _ Ht).
  by rewrite after_after.
Qed.

(** The first [m] attempts from attempt [k] on, all retried. *)
Lemma retryLoop_retried tok errs m :
  ∀ k fuel,
    (∀ i, k ≤ i < k + m →
       fetchesToken rm tok i
       ∧ invoke op i (tok i) = inr (errs i)
       ∧ Retryable p (errs i) = true
       ∧ inTime p cancelAt (start (S i))) →
    loop (m + fuel) k k (start k) =
    after (retriedTrace p rm op tok k m) (loop fuel (k + m) (k + m) (start (k + m))).
Proof.
  induction m as [|m IH]; intros k fuel H.
  - rewrite Nat.add_0_r. by rewrite after_nil.
  - destruct (H k ltac:(lia)) as (Hf & Hi & Hr & Ht).
    change (S m + fuel) with (S (m + fuel)).
    etrans;
      [exact (retryLoop_retried_once tok errs (m + fuel) k (start k) Hf Hi Hr Ht)|].
    change (start k + fetchDuration rm k + invokeDuration op k + Delay p k)
      with (start (S k)).
    rewrite (IH (S k) fuel) by (intros i Hi'; apply H; lia).
    rewrite after_after.
    replace (S k + m) with (k + S m) by lia.
    reflexivity.
Qed.

Lemma retryLoop_prefix N tok errs fuel :
  retriedUntil p rm cancelAt op N tok errs →
  loop (N + fuel) 0 0 0 =
  after (retriedTrace p rm op tok 0 N) (loop fuel N N (start N)).
Proof.
  intros H.
  apply (retryLoop_retried tok errs N 0 fuel).
  intros i Hi. apply H. lia.
Qed.

Lemma retriedTrace_fetches tok k m :
  countOf isFetch (retriedTrace p rm op tok k m) = m.
Proof.
  revert k. induction m as [|m IH]; intros k; [done|].
  unfold retriedTrace, countOf in *. simpl. by rewrite IH.
Qed.

Lemma retriedTrace_invokes tok k m :
  countOf isInvoke (retriedTrace p rm op tok k m) = m.
Proof.
  revert k. induction m as [|m IH]; intros k; [done|].
  unfold retriedTrace, countOf in *. simpl. by rewrite IH.
Qed.

Lemma countOf_app f (l1 l2 : list event) :
  countOf f (l1 ++ l2) = countOf f l1 + countOf f l2.
Proof. unfold countOf. by rewrite List.filter_app, length_app. Qed.

(** The attempt that ends the call, after [N] retried ones: what the
    call returns is what this attempt returns, and the events of the
    retried attempts come first. *)
Lemma RetryWithToken_last N tok errs fuel :
  retriedUntil p rm cancelAt op N tok errs →
  N < fuel →
  ∃ fuel', RetryWithToken p rm cancelAt op fuel =
           after (retriedTrace p rm op tok 0 N) (loop (S fuel') N N (start N)).
Proof.
  intros H Hfuel. exists (fuel - N - 1). unfold RetryWithToken.
  replace fuel with (N + S (fuel - N - 1)) at 1 by lia.
  by apply retryLoop_prefix with (errs := errs).
Qed.

Lemma loop_succeeds tok v fuel N now :
  fetchesToken rm tok N →
  invoke op N (tok N) = inl v →
  loop (S fuel) N N now =
  after (invokedEvents tok N)
    {| result := Some (inl v); fetches := S N; invocations := S N;
       clock := now + fetchDuration rm N + invokeDuration op N; trace := [] |}.
Proof.
  intros Hf Hi. unfold fetchesToken in Hf. simpl. by rewrite !Hf, Hi.
Qed.

Lemma loop_fatal tok e fuel N now :
  fetchesToken rm tok N →
  invoke op N (tok N) = inr e →
  Retryable p e = false →
  loop (S fuel) N N now =
  after (invokedEvents tok N)
    {| result := Some (inr (Fatal e)); fetches := S N; invocations := S N;
       clock := now + fetchDuration rm N + invokeDuration op N; trace := [] |}.
Proof.
  intros Hf Hi Hr. unfold fetchesToken in Hf. simpl. rewrite !Hf, Hi.
  unfold afterFailure. by rewrite Hr.
Qed.

Lemma loop_timeout tok e fuel N now :
  fetchesToken rm tok N →
  invoke op N (tok N) = inr e →
  Retryable p e = true →
  let t := now + fetchDuration rm N + invokeDuration op N in
  MaxDuration p ≤ t + Delay p N →
  (∀ c, cancelAt = Some c → MaxDuration p `max` t < c) →
  loop (S fuel) N N now =
  after (invokedEvents tok N)
    {| result := Some (inr (Timeout e)); fetches := S N; invocations := S N;
       clock := MaxDuration p `max` t;
       trace := [EvWait t (MaxDuration p `max` t)] |}.
Proof.
  intros Hf Hi Hr t Hd Hc. unfold fetchesToken in Hf. simpl. rewrite !Hf, Hi.
  unfold afterFailure. rewrite Hr. fold t.
  by rewrite (wait_timeout t (Delay p N) Hd Hc).
Qed.

Lemma loop_canceled tok e fuel N now c :
  fetchesToken rm tok N →
  invoke op N (tok N) = inr e →
  Retryable p e = true →
  let t := now + fetchDuration rm N + invokeDuration op N in
  cancelAt = Some c → t ≤ c → c < t + Delay p N → c ≤ MaxDuration p →
  loop (S fuel) N N now =
  after (invokedEvents tok N)
    {| result := Some (inr Canceled); fetches := S N; invocations := S N;
       clock := c; trace := [EvWait t c] |}.
Proof.
  intros Hf Hi Hr t Hc H1 H2 H3. unfold fetchesToken in Hf.
  simpl. rewrite !Hf, Hi.
  unfold afterFailure. rewrite Hr. fold t.
  by rewrite (wait_canceled t (Delay p N) c Hc H1 H2 H3).
Qed.

(** C1.  When the first [N] attempts fail at the operation with a
    retryable failure (a stale token, say) and are retried in time, and
    attempt [N + 1] succeeds with [v], [RetryWithToken] returns [v] after
    exactly [N + 1] token fetches and [N + 1] invocations of the
    operation, given the fuel for [N + 1] rounds. *)
Theorem RetryWithToken_retries_then_succeeds
    (N : nat) (tok : nat → ChangeToken) (errs : nat → failure) (v : R)
    (fuel : nat) :
  retriedUntil p rm cancelAt op N tok errs →
  fetchesToken rm tok N →
  invoke op N (tok N) = inl v →
  N < fuel →
  let o := RetryWithToken p rm cancelAt op fuel in
  result o = Some (inl v)
  ∧ fetches o = N + 1
  ∧ invocations o = N + 1
  ∧ trace o = retriedTrace p rm op tok 0 N ++ invokedEvents tok N
  ∧ countOf isFetch (trace o) = N + 1
  ∧ countOf isInvoke (trace o) = N + 1.
Proof.
  intros H Hf Hi Hfuel o. subst o.
  destruct (RetryWithToken_last N tok errs fuel H Hfuel) as [fuel' ->].
  rewrite (loop_succeeds tok v fuel' N _ Hf Hi). simpl.
  rewrite !countOf_app, retriedTrace_fetches, retriedTrace_invokes.
  split_and!; try done; lia.
Qed.

(** C2.  When the operation fails with an error that is not retryable,
    [RetryWithToken] returns that error as the fatal cause and makes no
    further fetch and no further invocation: after [N] retried attempts
    the counts are [N + 1], and for a fatal error at the first attempt
    ([N = 0]) exactly one fetch and one invocation. *)
Theorem RetryWithToken_fatal_not_retried
    (N : nat) (tok : nat → ChangeToken) (errs : nat → failure) (e : failure)
    (fuel : nat) :
  retriedUntil p rm cancelAt op N tok errs →
  fetchesToken rm tok N →
  invoke op N (tok N) = inr e →
  Retryable p e = false →
  N < fuel →
  let o := RetryWithToken p rm cancelAt op fuel in
  result o = Some (inr (Fatal e))
  ∧ fetches o = N + 1
  ∧ invocations o = N + 1
  ∧ trace o = retriedTrace p rm op tok 0 N ++ invokedEvents tok N
  ∧ countOf isFetch (trace o) = N + 1
  ∧ countOf isInvoke (trace o) = N + 1.
Proof.
  intros H Hf Hi Hr Hfuel o. subst o.
  destruct (RetryWithToken_last N tok errs fuel H Hfuel) as [fuel' ->].
  rewrite (loop_fatal tok e fuel' N _ Hf Hi Hr). simpl.
  rewrite !countOf_app, retriedTrace_fetches, retriedTrace_invokes.
  split_and!; try done; lia.
Qed.

(** C3.  When, after [N] retried attempts, the operation fails again with
    a retryable error [e] and the budget is used up at, or ends during,
    the wait that follows, without a cancellation up to then,
    [RetryWithToken] returns the timeout error around [e], the last
    retryable error met, and makes no further attempt. *)
Theorem RetryWithToken_timeout_wraps_last
    (N : nat) (tok : nat → ChangeToken) (errs : nat → failure) (e : failure)
    (fuel : nat) :
  retriedUntil p rm cancelAt op N tok errs →
  fetchesToken rm tok N →
  invoke op N (tok N) = inr e →
  Retryable p e = true →
  MaxDuration p ≤ finish N + Delay p N →
  (∀ c, cancelAt = Some c → MaxDuration p `max` finish N < c) →
  N < fuel →
  let o := RetryWithToken p rm cancelAt op fuel in
  result o = Some (inr (Timeout e))
  ∧ fetches o = N + 1
  ∧ invocations o = N + 1
  ∧ clock o = MaxDuration p `max` finish N.
Proof.
  intros H Hf Hi Hr Hd Hc Hfuel o. subst o.
  destruct (RetryWithToken_last N tok errs fuel H Hfuel) as [fuel' ->].
  rewrite (loop_timeout tok e fuel' N _ Hf Hi Hr Hd Hc). simpl.
  split_and!; try done; lia.
Qed.


(** *** Every token is used when fresh *)

Lemma freshTokens_nil : freshTokens [].
Proof. split; intros i ? ? H; by rewrite lookup_nil in H. Qed.

(** An event that is neither an invocation nor a fetched token can come
    first. *)
Lemma freshTokens_cons (ev : event) (rest : list event) :
  isInvoke ev = false →
  (∀ j tok, ev ≠ EvFetch j (inl tok)) →
  freshTokens rest → freshTokens (ev :: rest).
Proof.
  intros Hinv Hfetch [H1 H2]. split.
  - intros [|i] k tok Hi; simpl in Hi.
    + injection Hi as ->. discriminate Hinv.
    + destruct (H1 i k tok Hi) as (i' & j & -> & Hi'). by exists (S i'), j.
  - intros [|i] j tok Hi; simpl in Hi.
    + injection Hi as ->. by destruct (Hfetch j tok).
    + destruct (H2 i j tok Hi) as [k Hk]. by exists k.
Qed.

(** A fetched token followed by the invocation with that token can come
    first. *)
Lemma freshTokens_attempt (j k : nat) (tok : ChangeToken) (rest : list event) :
  freshTokens rest →
  freshTokens (EvFetch j (inl tok) :: EvInvoke k tok :: rest).
Proof.
  intros [H1 H2]. split.
  - intros [|[|i]] k' tok' Hi; simpl in Hi.
    + discriminate Hi.
    + simplify_eq. by exists 0, j.
    + destruct (H1 i k' tok' Hi) as (i' & j' & -> & Hi').
      by exists (S (S i')), j'.
  - intros [|[|i]] j' tok' Hi; simpl in Hi.
    + simplify_eq. by exists k.
    + discriminate Hi.
    + destruct (H2 i j' tok' Hi) as [k' Hk]. by exists k'.
Qed.

Lemma afterFailure_fresh e k nf ni now (continue : nat → outcome R) :
  (∀ t, freshTokens (trace (continue t))) →
  freshTokens (trace (afterFailure p cancelAt e k nf ni now continue)).
Proof.
  intros H. unfold afterFailure.
  destruct (Retryable p e); [|apply freshTokens_nil].
  destruct (wait p cancelAt now (Delay p k)); simpl;
    apply freshTokens_cons; try done; auto using freshTokens_nil.
Qed.

Lemma retryLoop_fresh fuel :
  ∀ nf ni now, freshTokens (trace (loop fuel nf ni now)).
Proof.
  induction fuel as [|fuel IH]; intros nf ni now; simpl;
    [apply freshTokens_nil|].
  destruct (FetchChangeToken rm nf) as [tok|e]; simpl.
  - apply freshTokens_attempt.
    destruct (invoke op ni tok) as [v|e]; [apply freshTokens_nil|].
    apply afterFailure_fresh. intros t. apply IH.
  - apply freshTokens_cons; [done | done |].
    apply afterFailure_fresh. intros t. apply IH.
Qed.

Lemma afterFailure_counts e k nf ni now (continue : nat → outcome R) :
  (∀ t, fetches (continue t) = nf + countOf isFetch (trace (continue t))
        ∧ invocations (continue t) = ni + countOf isInvoke (trace (continue t))
        ∧ invocations (continue t) ≤ fetches (continue t)) →
  ni ≤ nf →
  let o := afterFailure p cancelAt e k nf ni now continue in
  fetches o = nf + countOf isFetch (trace o)
  ∧ invocations o = ni + countOf isInvoke (trace o)
  ∧ invocations o ≤ fetches o.
Proof.
  intros H Hle. unfold afterFailure.
  destruct (Retryable p e); [|by simpl; unfold countOf; simpl; lia].
  destruct (wait p cancelAt now (Delay p k)); simpl;
    try (unfold countOf; simpl; lia).
  apply H.
Qed.

(** The counters count the fetch and invocation events, and there are
    never more invocations than fetches. *)
Lemma retryLoop_counts fuel :
  ∀ nf ni now,
    ni ≤ nf →
    let o := loop fuel nf ni now in
    fetches o = nf + countOf isFetch (trace o)
    ∧ invocations o = ni + countOf isInvoke (trace o)
    ∧ invocations o ≤ fetches o.
Proof.
  induction fuel as [|fuel IH]; intros nf ni now Hle; simpl;
    [unfold countOf; simpl; lia|].
  destruct (FetchChangeToken rm nf) as [tok|e]; simpl.
  - destruct (invoke op ni tok) as [v|e]; [unfold countOf; simpl; lia|].
    destruct (afterFailure_counts e nf (S nf) (S ni)
                (now + fetchDuration rm nf + invokeDuration op ni)
                (loop fuel (S nf) (S ni))) as (H1 & H2 & H3);
      [intros t; apply IH; lia | lia |].
    rewrite H1, H2 in *. unfold countOf in *. simpl. lia.
  - destruct (afterFailure_counts e nf (S nf) ni (now + fetchDuration rm nf)
                (loop fuel (S nf) ni)) as (H1 & H2 & H3);
      [intros t; apply IH; lia | lia |].
    rewrite H1, H2 in *. unfold countOf in *. simpl. lia.
Qed.

(** From fetch [nf] and invocation [ni] on, the fetches and invocations
    of an outcome are numbered in order, without gaps or repeats. *)
Definition numbered (nf ni : nat) (o : outcome R) : Prop :=
  ∃ cf ci, fetches o = nf + cf ∧ invocations o = ni + ci
           ∧ omap fetchIndex (trace o) = seq nf cf
           ∧ omap invokeIndex (trace o) = seq ni ci.

Lemma afterFailure_numbered e k nf ni now (continue : nat → outcome R) :
  (∀ t, numbered nf ni (continue t)) →
  numbered nf ni (afterFailure p cancelAt e k nf ni now continue).
Proof.
  intros H. unfold afterFailure.
  destruct (Retryable p e); [|by exists 0, 0].
  destruct (wait p cancelAt now (Delay p k)) as [t|t|t];
    [by exists 0, 0 | by exists 0, 0 |].
  destruct (H t) as (cf & ci & ? & ? & ? & ?). by exists cf, ci.
Qed.

(** One round of the loop, written out. *)
Lemma retryLoop_S fuel nf ni now :
  loop (S fuel) nf ni now =
  match FetchChangeToken rm nf with
  | inr e =>
      after [EvFetch nf (inr e)]
        (afterFailure p cancelAt e nf (S nf) ni (now + fetchDuration rm nf)
           (loop fuel (S nf) ni))
  | inl token =>
      after [EvFetch nf (inl token); EvInvoke ni token]
        match invoke op ni token with
        | inl v =>
            {| result := Some (inl v); fetches := S nf; invocations := S ni;
               clock := now + fetchDuration rm nf + invokeDuration op ni;
               trace := [] |}
        | inr e =>
            afterFailure p cancelAt e nf (S nf) (S ni)
              (now + fetchDuration rm nf + invokeDuration op ni)
              (loop fuel (S nf) (S ni))
        end
  end.
Proof. simpl. by destruct (FetchChangeToken rm nf). Qed.

Lemma numbered_after_fetch nf ni answer (o : outcome R) :
  numbered (S nf) ni o → numbered nf ni (after [EvFetch nf answer] o).
Proof.
  intros (cf & ci & H1 & H2 & H3 & H4). exists (S cf), ci. simpl.
  split_and!; [lia | lia | f_equal; exact H3 | exact H4].
Qed.

Lemma numbered_after_attempt nf ni answer tok (o : outcome R) :
  numbered (S nf) (S ni) o →
  numbered nf ni (after [EvFetch nf answer; EvInvoke ni tok] o).
Proof.
  intros (cf & ci & H1 & H2 & H3 & H4). exists (S cf), (S ci). simpl.
  split_and!; [lia | lia | f_equal; exact H3 | f_equal; exact H4].
Qed.

Lemma retryLoop_numbered fuel :
  ∀ nf ni now, numbered nf ni (loop fuel nf ni now).
Proof.
  induction fuel as [|fuel IH]; intros nf ni now; [by exists 0, 0|].
  rewrite retryLoop_S.
  destruct (FetchChangeToken rm nf) as [tok|e].
  - apply numbered_after_attempt.
    destruct (invoke op ni tok) as [v|e]; [by exists 0, 0|].
    apply afterFailure_numbered. intros t. apply IH.
  - apply numbered_after_fetch.
    apply afterFailure_numbered. intros t. apply IH.
Qed.

(** The answer that a fetch event records is the answer of that fetch. *)
Definition recorded (ev : event) : Prop :=
  match ev with
  | EvFetch k answer => answer = FetchChangeToken rm k
  | _ => True
  end.

Lemma afterFailure_recorded e k nf ni now (continue : nat → outcome R) :
  (∀ t, Forall recorded (trace (continue t))) →
  Forall recorded (trace (afterFailure p cancelAt e k nf ni now continue)).
Proof.
  intros H. unfold afterFailure.
  destruct (Retryable p e); [|by constructor].
  destruct (wait p cancelAt now (Delay p k)) as [t|t|t]; simpl;
    repeat constructor. apply H.
Qed.

Lemma retryLoop_recorded fuel :
  ∀ nf ni now, Forall recorded (trace (loop fuel nf ni now)).
Proof.
  induction fuel as [|fuel IH]; intros nf ni now; simpl; [by constructor|].
  destruct (FetchChangeToken rm nf) as [tok|e] eqn:Hf; simpl.
  - constructor; [done|]. constructor; [done|].
    destruct (invoke op ni tok) as [v|e]; [by constructor|].
    apply afterFailure_recorded. intros t. apply IH.
  - constructor; [done|].
    apply afterFailure_recorded. intros t. apply IH.
Qed.


End RetryerFacts.

(** *** The callers at work *)

Definition sampleTuple : RegexMatchTuple :=
  {| FieldToMatch := "User-Agent"; RegexPatternSetId := "pattern-1";
     TextTransformation := "NONE" |}.

Definition sampleSet : RegexMatchSet :=
  {| RegexMatchSetId := "set-1"; RegexMatchTuples := [sampleTuple] |}.

(** A budget of 900 ticks and a wait of 5 ticks between attempts. *)
Definition samplePolicy : RetryPolicy :=
  {| MaxDuration := 900; Delay := λ _, 5; Retryable := defaultRetryable |}.

(** A budget of 10 ticks and a wait of 5 ticks between attempts. *)
Definition tightPolicy : RetryPolicy :=
  {| MaxDuration := 10; Delay := λ _, 5; Retryable := defaultRetryable |}.

Definition sampleToken (k : nat) : ChangeToken :=
  match k with
  | 0 => "token-a"
  | 1 => "token-b"
  | 2 => "token-c"
  | _ => "token-z"
  end.

(** Every fetch succeeds and takes one tick. *)
Definition sampleRemote : remote :=
  {| FetchChangeToken := λ k, inl (sampleToken k); fetchDuration := λ _, 1 |}.

(** The update meets a stale token, then a concurrent modification, and
    succeeds at the third call; every call takes one tick. *)
Definition staleTwice : conn :=
  {| UpdateRegexMatchSet := λ k _,
       match k with
       | 0 => inr StaleToken
       | 1 => inr ConcurrentModification
       | _ => inl tt
       end;
     DeleteRegexMatchSet := λ _ _, inl tt;
     callDuration := λ _, 1 |}.

(** The update always meets a stale token; the deletion is refused. *)
Definition alwaysStale : conn :=
  {| UpdateRegexMatchSet := λ _ _, inr StaleToken;
     DeleteRegexMatchSet := λ _ _, inr PermissionDenied;
     callDuration := λ _, 1 |}.

Definition sampleErrs (k : nat) : failure :=
  match k with
  | 0 => StaleToken
  | _ => ConcurrentModification
  end.

(** The request of the first closure carries the token it is given and
    one DELETE update per tuple. *)
Example updateClosure_request :
  invoke (updateClosure staleTwice sampleSet) 2 "token-c"
  = UpdateRegexMatchSet staleTwice 2
      {| UpdateChangeToken := "token-c"; UpdateRegexMatchSetId := "set-1";
         Updates := [{| Action := "DELETE"; UpdateTuple := sampleTuple |}] |}.
Proof. reflexivity. Qed.

(** The scenario of the spec: two retryable failures, then a success;
    three fetches and three invocations. *)
Example RetryWithToken_third_attempt :
  RetryWithToken samplePolicy sampleRemote None
    (updateClosure staleTwice sampleSet) 10
  = {| result := Some (inl tt); fetches := 3; invocations := 3; clock := 16;
       trace := [EvFetch 0 (inl "token-a"); EvInvoke 0 "token-a"; EvWait 2 7;
                 EvFetch 1 (inl "token-b"); EvInvoke 1 "token-b"; EvWait 9 14;
                 EvFetch 2 (inl "token-c"); EvInvoke 2 "token-c"] |}.
Proof. reflexivity. Qed.

(** The scenario of the spec: a refused operation is not retried. *)
Example RetryWithToken_permission_denied :
  RetryWithToken samplePolicy sampleRemote None
    (deleteClosure alwaysStale sampleSet) 10
  = {| result := Some (inr (Fatal PermissionDenied)); fetches := 1;
       invocations := 1; clock := 2;
       trace := [EvFetch 0 (inl "token-a"); EvInvoke 0 "token-a"] |}.
Proof. reflexivity. Qed.

(** The first closure of the test, with two failures before the success. *)
Lemma RetryWithToken_retries_then_succeeds_witness :
  result (RetryWithToken samplePolicy sampleRemote None
            (updateClosure staleTwice sampleSet) 10) = Some (inl tt)
  ∧ fetches (RetryWithToken samplePolicy sampleRemote None
               (updateClosure staleTwice sampleSet) 10) = 3
  ∧ invocations (RetryWithToken samplePolicy sampleRemote None
                   (updateClosure staleTwice sampleSet) 10) = 3.
Proof.
  destruct (RetryWithToken_retries_then_succeeds samplePolicy sampleRemote None
              (updateClosure staleTwice sampleSet) 2 sampleToken sampleErrs tt 10)
    as (H1 & H2 & H3 & _).
  - intros [|[|i]] Hi; [| | lia]; (split_and!; [reflexivity..|]);
      (split; [vm_compute; lia | intros c Hc; discriminate Hc]).
  - reflexivity.
  - reflexivity.
  - lia.
  - by split_and!.
Defined.

(** The second closure of the test, refused at the first attempt. *)
Lemma RetryWithToken_fatal_not_retried_witness :
  result (RetryWithToken samplePolicy sampleRemote None
            (deleteClosure alwaysStale sampleSet) 10)
  = Some (inr (Fatal PermissionDenied))
  ∧ fetches (RetryWithToken samplePolicy sampleRemote None
               (deleteClosure alwaysStale sampleSet) 10) = 1
  ∧ invocations (RetryWithToken samplePolicy sampleRemote None
                   (deleteClosure alwaysStale sampleSet) 10) = 1.
Proof.
  destruct (RetryWithToken_fatal_not_retried samplePolicy sampleRemote None
              (deleteClosure alwaysStale sampleSet) 0 sampleToken sampleErrs
              PermissionDenied 10)
    as (H1 & H2 & H3 & _).
  - intros i Hi. lia.
  - reflexivity.
  - reflexivity.
  - reflexivity.
  - lia.
  - by split_and!.
Defined.

(** A budget of 10 ticks: the second stale token is met at tick 9, and
    the wait of 5 ticks that follows does not fit. *)
Lemma RetryWithToken_timeout_wraps_last_witness :
  result (RetryWithToken tightPolicy sampleRemote None
            (updateClosure alwaysStale sampleSet) 10)
  = Some (inr (Timeout StaleToken))
  ∧ fetches (RetryWithToken tightPolicy sampleRemote None
               (updateClosure alwaysStale sampleSet) 10) = 2
  ∧ clock (RetryWithToken tightPolicy sampleRemote None
             (updateClosure alwaysStale sampleSet) 10) = 10.
Proof.
  destruct (RetryWithToken_timeout_wraps_last tightPolicy sampleRemote None
              (updateClosure alwaysStale sampleSet) 1 sampleToken
              (λ _, StaleToken) StaleToken 10)
    as (H1 & H2 & H3 & H4).
  - intros [|i] Hi; [| lia]; (split_and!; [reflexivity..|]);
      (split; [vm_compute; lia | intros c Hc; discriminate Hc]).
  - reflexivity.
  - reflexivity.
  - reflexivity.
  - vm_compute. lia.
  - intros c Hc. discriminate Hc.
  - lia.
  - by split_and!.
Defined.


End WAF.

(** ** Values of nested configuration blocks *)

Module Tf.

(** The [interface{}] values inside a nested block: scalars, lists
    ([[]interface{}]), sets ([*schema.Set], in the order of [List()]) and
    maps ([map[string]interface{}], as the list of their entries). *)
Inductive value : Type :=
| Nil
| Str (s : string)
| Int (z : Z)
| Bool (b : bool)
| List (l : list value)
| SetOf (l : list value)
| Map (m : list (string * value)).

Lemma value_eq_dec : ∀ x y : value, {x = y} + {x ≠ y}.
Proof.
  fix IH 1. intros x y.
  pose proof (@list_eq_dec value IH) as Hl.
  pose proof (@list_eq_dec _ (@prod_eq_dec string _ value IH)) as Hm.
  destruct x as [|s|z|b|l|l|m], y as [|s'|z'|b'|l'|l'|m']; try (right; discriminate).
  - by left.
  - destruct (decide (s = s')) as [->|]; [by left | right; congruence].
  - destruct (decide (z = z')) as [->|]; [by left | right; congruence].
  - destruct (decide (b = b')) as [->|]; [by left | right; congruence].
  - destruct (Hl l l') as [->|]; [by left | right; congruence].
  - destruct (Hl l l') as [->|]; [by left | right; congruence].
  - destruct (Hm m m') as [->|]; [by left | right; congruence].
Defined.

#[global] Instance value_EqDecision : EqDecision value := value_eq_dec.

(** [m[key]] with the comma-ok flag: the first entry of that key. *)
Fixpoint lookupKey (m : list (string * value)) (key : string) : option value :=
  match m with
  | [] => None
  | (k, v) :: rest => if bool_decide (k = key) then Some v else lookupKey rest key
  end.

(** The unchecked assertions [v.(string)], [v.(int)] and
    [v.(map[string]interface{})]: [None] is the panic of a failed one. *)
Definition asString (v : value) : option string :=
  match v with Str s => Some s | _ => None end.

Definition asInt (v : value) : option Z :=
  match v with Int z => Some z | _ => None end.

Definition asMap (v : value) : option (list (string * value)) :=
  match v with Map m => Some m | _ => None end.

(** [v != ""] and [v != 0] on an interface value: only the empty string,
    and only the integer zero, compare equal. *)
Definition notEmptyString (v : value) : bool :=
  match v with Str s => negb (bool_decide (s = ""%string)) | _ => true end.

Definition notZero (v : value) : bool :=
  match v with Int z => negb (bool_decide (z = 0%Z)) | _ => true end.

(** A result that a panic can replace: [None] is the panic. *)
Definition mayPanic (A : Type) : Type := option A.

(** The unchecked assertions of a value to [[]interface{}] and to
    [*schema.Set]. *)
Definition asList (v : value) : mayPanic (list value) :=
  match v with List l => Some l | _ => None end.

Definition asSet (v : value) : mayPanic (list value) :=
  match v with SetOf l => Some l | _ => None end.

(** [tfMap[key].(string)]: a missing key gives the nil interface, whose
    assertion panics like that of any value that is not a string. *)
Definition stringAt (m : list (string * value)) (key : string) : mayPanic string :=
  match lookupKey m key with
  | Some v => asString v
  | None => None
  end.

(** [if v, ok := tfMap[key]; ok { field = f(v) }]: the field stays [nil]
    when the key is missing. *)
Definition optionally {A} (m : list (string * value)) (key : string)
    (f : value → mayPanic A) : mayPanic (option A) :=
  match lookupKey m key with
  | Some v => match f v with Some a => Some (Some a) | None => None end
  | None => Some None
  end.

End Tf.

(** ** AppStream fleet: the expanders and flatteners of fleet.go *)

Module FleetValues.

Import Tf.

Record ComputeCapacity := {
  DesiredInstances : option Z;
  DesiredSessions : option Z
}.

Record ComputeCapacityStatus := {
  Available : option Z;
  Desired : option Z;
  DesiredUserSessions : option Z;
  InUse : option Z;
  Running : option Z
}.

Record DomainJoinInfo := {
  DirectoryName : option string;
  OrganizationalUnitDistinguishedName : option string
}.

#[global] Instance DomainJoinInfo_eq_dec : EqDecision DomainJoinInfo.
Proof. solve_decision. Defined.

(** [if v, ok := m[key]; ok && v != 0 { field = aws.Int64(int64(v.(int))) }]. *)
Definition intField (m : list (string * value)) (key : string)
  : mayPanic (option Z) :=
  match lookupKey m key with
  | Some v => if notZero v then z ← asInt v; Some (Some z) else Some None
  | None => Some None
  end.

(** [if v, ok := m[key]; ok && v != "" { field = aws.String(v.(string)) }]. *)
Definition stringField (m : list (string * value)) (key : string)
  : mayPanic (option string) :=
  match lookupKey m key with
  | Some v => if notEmptyString v then s ← asString v; Some (Some s) else Some None
  | None => Some None
  end.

(** *** expandComputeCapacity; the inner [None] is the [nil] result. *)
Definition expandComputeCapacity (tfList : list value)
  : mayPanic (option ComputeCapacity) :=
  match tfList with
  | [] => Some None
  | first :: _ =>
      attr ← asMap first;
      di ← intField attr "desired_instances";
      ds ← intField attr "desired_sessions";
      let apiObject := {| DesiredInstances := di; DesiredSessions := ds |} in
      match di, ds with
      | None, None => Some None
      | _, _ => Some (Some apiObject)
      end
  end.

(** *** flattenComputeCapacity; [None] is the [nil] map. *)
Definition flattenComputeCapacity (apiObject : option ComputeCapacityStatus)
  : option (list (string * value)) :=
  match apiObject with
  | None => None
  | Some api =>
      let tfMap : list (string * value) := [] in
      let tfMap :=
        match DesiredUserSessions api with
        | Some v => tfMap ++ [("desired_sessions"%string, Int v)]
        | None => tfMap
        end in
      (* desiredInstances is always returned by the API but cannot be used
         in conjunction with desiredSessions *)
      let tfMap :=
        match Desired api, lookupKey tfMap "desired_sessions" with
        | Some v, None => tfMap ++ [("desired_instances"%string, Int v)]
        | _, _ => tfMap
        end in
      let tfMap :=
        match Available api with
        | Some v => tfMap ++ [("available"%string, Int v)]
        | None => tfMap
        end in
      let tfMap :=
        match InUse api with
        | Some v => tfMap ++ [("in_use"%string, Int v)]
        | None => tfMap
        end in
      let tfMap :=
        match Running api with
        | Some v => tfMap ++ [("running"%string, Int v)]
        | None => tfMap
        end in
      match tfMap with
      | [] => None
      | _ => Some tfMap
      end
  end.

(** *** expandDomainJoinInfo *)
Definition expandDomainJoinInfo (tfList : list value)
  : mayPanic (option DomainJoinInfo) :=
  match tfList with
  | [] => Some None
  | first :: _ =>
      match first with
      | Map tfMap =>
          dn ← stringField tfMap "directory_name";
          ou ← stringField tfMap "organizational_unit_distinguished_name";
          let apiObject := {| DirectoryName := dn;
                              OrganizationalUnitDistinguishedName := ou |} in
          match dn, ou with
          | None, None => Some None
          | _, _ => Some (Some apiObject)
          end
      | _ => Some None
      end
  end.

(** *** flattenDomainInfo; [None] is the [nil] map. *)
Definition flattenDomainInfo (apiObject : option DomainJoinInfo)
  : option (list (string * value)) :=
  match apiObject with
  | None => None
  | Some api =>
      let tfMap : list (string * value) := [] in
      let tfMap :=
        match DirectoryName api with
        | Some v =>
            if negb (bool_decide (v = ""%string))
            then tfMap ++ [("directory_name"%string, Str v)]
            else tfMap
        | None => tfMap
        end in
      let tfMap :=
        match OrganizationalUnitDistinguishedName api with
        | Some v =>
            if negb (bool_decide (v = ""%string))
            then tfMap ++ [("organizational_unit_distinguished_name"%string, Str v)]
            else tfMap
        | None => tfMap
        end in
      match tfMap with
      | [] => None
      | _ => Some tfMap
      end
  end.

(** The list element [[]interface{}{flattenDomainInfo(...)}] that
    [resourceFleetRead] stores: a [nil] map is a map without entries. *)
Definition blockOf (m : option (list (string * value))) : list value :=
  [Map (default [] m)].

(** A string pointer that is [nil] or points to the empty string counts
    as unset. *)
Definition nonEmpty (p : option string) : option string :=
  match p with
  | Some s => if bool_decide (s = ""%string) then None else Some s
  | None => None
  end.

(** The API object without its unset fields; [nil] when nothing is left. *)
Definition normalize (apiObject : option DomainJoinInfo) : option DomainJoinInfo :=
  match apiObject with
  | None => None
  | Some api =>
      match nonEmpty (DirectoryName api),
            nonEmpty (OrganizationalUnitDistinguishedName api) with
      | None, None => None
      | dn, ou => Some {| DirectoryName := dn;
                          OrganizationalUnitDistinguishedName := ou |}
      end
  end.

(** *** resourceFleetCustDiff

    The function sees the prior and the planned value of
    ["domain_join_info"] and whether they differ; what it does to the
    diff is the list of [diff.Clear] calls it makes, and [clear] is the
    answer of such a call. *)
Definition resourceFleetCustDiff (hasChange : bool) (o n : value)
    (clear : string → error) : mayPanic (list string * error) :=
  if hasChange then
    ol ← (match o with List l => Some l | _ => None end);
    nl ← (match n with List l => Some l | _ => None end);
    eo ← expandDomainJoinInfo ol;
    en ← expandDomainJoinInfo nl;
    if bool_decide (eo = en)
    then Some (["domain_join_info"%string], clear "domain_join_info"%string)
    else Some ([], None)
  else Some ([], None).

(** *** Facts *)

Lemma intField_nonzero m key z :
  intField m key = Some (Some z) → z ≠ 0%Z.
Proof.
  unfold intField. destruct (lookupKey m key) as [v|]; [|done].
  destruct v; simpl; try done.
  case_bool_decide; simpl; [done|]. by intros [= <-].
Qed.

Lemma stringField_nonempty m key s :
  stringField m key = Some (Some s) → s ≠ ""%string.
Proof.
  unfold stringField. destruct (lookupKey m key) as [v|]; [|done].
  destruct v; simpl; try done.
  case_bool_decide; simpl; [done|]. by intros [= <-].
Qed.




(** What [resourceFleetRead] stores for a domain join info expands to
    that object without its unset fields; an object without unset fields
    is what it is; and whatever [expandDomainJoinInfo] returns has no
    unset field. *)
Theorem expandDomainJoinInfo_flattenDomainInfo
    (apiObject : option DomainJoinInfo) (tfList : list value) :
  expandDomainJoinInfo (blockOf (flattenDomainInfo apiObject))
  = Some (normalize apiObject)
  ∧ normalize (normalize apiObject) = normalize apiObject
  ∧ (∀ o, expandDomainJoinInfo tfList = Some o → normalize o = o).
Proof.
  split_and!.
  - destruct apiObject as [[[dn|] [ou|]]|];
      unfold flattenDomainInfo, normalize, nonEmpty, blockOf,
        expandDomainJoinInfo, stringField;
      repeat (first [progress simpl | case_bool_decide; subst]);
      done.
  - destruct apiObject as [[[dn|] [ou|]]|];
      unfold normalize, nonEmpty;
      repeat (first [progress simpl | case_bool_decide; subst]);
      done.
  - intros o. destruct tfList as [|first rest]; [by intros [= <-]|]. simpl.
    destruct first; try (by intros [= <-]).
    destruct (stringField m "directory_name") as [dn|] eqn:Hdn; [|done].
    destruct (stringField m "organizational_unit_distinguished_name")
      as [ou|] eqn:Hou; [|done].
    simpl.
    destruct dn as [dn|], ou as [ou|]; intros [= <-]; try done;
      try (apply stringField_nonempty in Hdn);
      try (apply stringField_nonempty in Hou);
      unfold normalize, nonEmpty; simpl;
      rewrite ?bool_decide_eq_false_2 by done; reflexivity.
Qed.





End FleetValues.

(** ** AppStream fleet: the VPC configuration *)

Module FleetNetwork.

Import Tf.

Definition AttrSecurityGroupIDs : string := "security_group_ids".
Definition AttrSubnetIDs : string := "subnet_ids".

(** [appstream.VpcConfig]: a slice of string pointers is [None] when
    [nil], and a [nil] pointer in it is [None]. *)
Record VpcConfig := {
  SecurityGroupIds : option (list (option string));
  SubnetIds : option (list (option string))
}.

#[global] Instance VpcConfig_eq_dec : EqDecision VpcConfig.
Proof. solve_decision. Defined.

Section Expand.

(** [flex.ExpandStringList] (internal/flex, not under src/). *)
Variable ExpandStringList : list value → option (list (option string)).

(** *** expandVPCConfig

    [reflect.DeepEqual] with the empty struct holds exactly when both
    slices are [nil]: it tells an empty slice from a [nil] one. *)
Definition expandVPCConfig (tfList : list value) : mayPanic (option VpcConfig) :=
  match tfList with
  | [] => Some None
  | first :: _ =>
      tfMap ← asMap first;
      securityGroupIds ← optionally tfMap AttrSecurityGroupIDs
                           (λ v, l ← asList v; Some (ExpandStringList l));
      subnetIds ← optionally tfMap AttrSubnetIDs
                    (λ v, l ← asList v; Some (ExpandStringList l));
      let apiObject := {| SecurityGroupIds := mjoin securityGroupIds;
                          SubnetIds := mjoin subnetIds |} in
      if bool_decide ({| SecurityGroupIds := None; SubnetIds := None |} = apiObject)
      then Some None
      else Some (Some apiObject)
  end.

End Expand.

(** [aws.StringValueSlice]. *)
Definition StringValueSlice (v : list (option string)) : value :=
  List ((λ p, Str (ACM.StringValue p)) <$> v).

(** *** flattenVPCConfig: the map as the list of its entries, [None] for
    the [nil] map. *)
Definition flattenVPCConfig (apiObject : option VpcConfig)
  : option (list (string * value)) :=
  match apiObject with
  | None => None
  | Some apiObject =>
      let tfMap := [] in
      let tfMap := match SecurityGroupIds apiObject with
                   | Some v => tfMap ++ [(AttrSecurityGroupIDs, StringValueSlice v)]
                   | None => tfMap
                   end in
      let tfMap := match SubnetIds apiObject with
                   | Some v => tfMap ++ [(AttrSubnetIDs, StringValueSlice v)]
                   | None => tfMap
                   end in
      if bool_decide (([] : list (string * value)) = tfMap) then None else Some tfMap
  end.

(** [expandVPCConfig] returns nil for the empty list and reads the first
    element only.  For a map it returns nil exactly when both slices stay
    nil, which, with an [ExpandStringList] that never returns nil, is
    when neither key is in the map: a key with an empty list gives a
    configuration with an empty slice.  It never returns the empty
    configuration.  [flattenVPCConfig] returns nil exactly for nil and
    for a configuration with both slices nil, and otherwise a map with a
    key for each slice that is not nil, holding its strings. *)
Theorem expandVPCConfig_flattenVPCConfig
    (ExpandStringList : list value → option (list (option string))) :
  expandVPCConfig ExpandStringList [] = Some None
  ∧ (∀ first rest, expandVPCConfig ExpandStringList (first :: rest)
                   = expandVPCConfig ExpandStringList [first])
  ∧ (∀ tfList api, expandVPCConfig ExpandStringList tfList = Some (Some api) →
       api ≠ {| SecurityGroupIds := None; SubnetIds := None |})
  ∧ (∀ m rest,
       (∀ l, is_Some (ExpandStringList l)) →
       (expandVPCConfig ExpandStringList (Map m :: rest) = Some None
        ↔ lookupKey m "security_group_ids" = None
          ∧ lookupKey m "subnet_ids" = None)
       ∧ (∀ l, lookupKey m "security_group_ids" = Some (List l) →
               lookupKey m "subnet_ids" = None →
               expandVPCConfig ExpandStringList (Map m :: rest)
               = Some (Some {| SecurityGroupIds := ExpandStringList l;
                               SubnetIds := None |})))
  ∧ (∀ api, flattenVPCConfig api = None
            ↔ api = None
              ∨ api = Some {| SecurityGroupIds := None; SubnetIds := None |})
  ∧ (∀ api tfMap, flattenVPCConfig (Some api) = Some tfMap →
       (∀ v, SecurityGroupIds api = Some v
             → lookupKey tfMap "security_group_ids" = Some (StringValueSlice v))
       ∧ (∀ v, SubnetIds api = Some v
               → lookupKey tfMap "subnet_ids" = Some (StringValueSlice v))
       ∧ (SecurityGroupIds api = None ↔ lookupKey tfMap "security_group_ids" = None)
       ∧ (SubnetIds api = None ↔ lookupKey tfMap "subnet_ids" = None)).
Proof.
  split_and!.
  - done.
  - done.
  - intros [|first rest] api H; [discriminate|]. simpl in H.
    destruct (asMap first) as [m|]; simpl in H; [|discriminate].
    destruct (optionally m AttrSecurityGroupIDs _) as [sg|]; simpl in H;
      [|discriminate].
    destruct (optionally m AttrSubnetIDs _) as [sn|]; simpl in H; [|discriminate].
    case_bool_decide as Heq; [discriminate|]. injection H as <-. congruence.
  - intros m rest Hexp. unfold expandVPCConfig, optionally. simpl.
    unfold AttrSecurityGroupIDs, AttrSubnetIDs.
    split.
    + destruct (lookupKey m "security_group_ids") as [v|]; simpl.
      * destruct (asList v) as [l|]; simpl; [|split; [done | by intros [? _]]].
        destruct (Hexp l) as [sg Hsg].
        destruct (lookupKey m "subnet_ids") as [v'|]; simpl.
        -- destruct (asList v') as [l'|]; simpl; [|split; [done | by intros [? _]]].
           rewrite bool_decide_false by (rewrite Hsg; by intros [=]).
           split; [done | by intros [? _]].
        -- rewrite bool_decide_false by (rewrite Hsg; by intros [=]).
           split; [done | by intros [? _]].
      * destruct (lookupKey m "subnet_ids") as [v'|]; simpl; [|done].
        destruct (asList v') as [l'|]; simpl; [|split; [done | by intros [_ ?]]].
        destruct (Hexp l') as [sn Hsn].
        rewrite bool_decide_false by (rewrite Hsn; by intros [=]).
        split; [done | by intros [_ ?]].
    + intros l -> ->. simpl. destruct (Hexp l) as [sg Hsg].
      rewrite bool_decide_false by (rewrite Hsg; by intros [=]). done.
  - intros [[[sg|] [sn|]]|]; simpl;
      (split; [intros ?; first [done | by left | by right]
              | intros [? | ?]; done]).
  - intros [[sg|] [sn|]] tfMap H; simpl in H; try discriminate;
      injection H as <-; simpl;
      (split_and!; [intros v ? | intros v ? | split; intros ? | split; intros ?]);
      by simplify_eq.
Qed.

(** A VPC configuration block that names no security group. *)
Example expandVPCConfig_empty_list :
  expandVPCConfig (λ l, Some (omap (λ v, Some <$> asString v) l))
    [Map [("security_group_ids"%string, List []);
          ("subnet_ids"%string, List [Str "subnet-1"])]]
  = Some (Some {| SecurityGroupIds := Some [];
                  SubnetIds := Some [Some "subnet-1"%string] |}).
Proof. reflexivity. Qed.

End FleetNetwork.

(** ** AppStream fleet: creation, reading and deletion *)

Module FleetLifecycle.

Import AppStream.

Definition ErrCodeConcurrentModificationException : string :=
  "ConcurrentModificationException".
Definition ErrCodeInvalidRoleException : string := "InvalidRoleException".

(** [strings.Contains(s, substr)]. *)
Fixpoint Contains (s substr : string) : bool :=
  if String.prefix substr s then true
  else match s with
       | EmptyString => false
       | String _ rest => Contains rest substr
       end.

(** [tfawserr.ErrMessageContains(err, code, message)]: an AWS error of
    the chain has this code and a message that contains [message]. *)
Fixpoint errMessageContains (e : err) (code message : string) : bool :=
  match e with
  | AwsError c m => bool_decide (c = code) && Contains m message
  | Wrapped _ cause => errMessageContains cause code message
  | _ => false
  end.

(** [appstream.CreateFleetInput].  A field built from a block holds what
    the expander of the block returned; an optional scalar field holds
    the schema value it is built from. *)
Record CreateFleetInput := {
  CreateName : string;
  CreateInstanceType : string;
  CreateComputeCapacity : option FleetValues.ComputeCapacity;
  CreateTags : list (string * string);
  CreateDescription : option any;
  CreateDisconnectTimeoutInSeconds : option any;
  CreateIdleDisconnectTimeoutInSeconds : option any;
  CreateDisplayName : option any;
  CreateDomainJoinInfo : option FleetValues.DomainJoinInfo;
  CreateEnableDefaultInternetAccess : option any;
  CreateFleetType : option any;
  CreateImageName : option any;
  CreateImageArn : option any;
  CreateIamRoleArn : option any;
  CreateMaxSessionsPerInstance : option any;
  CreateMaxUserDurationInSeconds : option any;
  CreateStreamView : option any;
  CreateVpcConfig : option FleetNetwork.VpcConfig
}.

(** [appstream.CreateFleetOutput]: the fleet, if any, and its name. *)
Record CreateFleetOutput := { CreatedFleet : option (option string) }.

(** [if v, ok := d.GetOk(key); ok { input.Field = ... v ... }]. *)
Definition whenSet (d : ResourceData) (key : string) : option any :=
  let '(v, ok) := GetOk d key in if ok then Some v else None.

(** The errors of CreateFleet that the closure of [resourceFleetCreate]
    marks as retryable. *)
Definition createRetryable (e : err) : bool :=
  errCodeEquals e ErrCodeResourceNotFoundException
  || errCodeEquals e ErrCodeConcurrentModificationException
  || errMessageContains e ErrCodeInvalidRoleException
       "encountered an error because your IAM role".

Section Create.

(** The answer of the k-th CreateFleet call, and the number of tries that
    [fleetOperationTimeout] (wait.go, not under src/) leaves room for. *)
Variable CreateFleetWithContext : nat → CreateFleetInput → option CreateFleetOutput * error.
Variable tries : nat.
Variable c : conn.

(** The expanders of fleet.go ([FleetValues], [FleetNetwork]) on the
    value of a block, which the resource data of [Schema] hold as one
    opaque value; [None] is their panic.  [getTagsIn] is the tags that
    the provider put into the context. *)
Variable expandComputeCapacity : any → Tf.mayPanic (option FleetValues.ComputeCapacity).
Variable expandDomainJoinInfo : any → Tf.mayPanic (option FleetValues.DomainJoinInfo).
Variable expandVPCConfig : any → Tf.mayPanic (option FleetNetwork.VpcConfig).
Variable getTagsIn : list (string * string).

(** The input that [resourceFleetCreate] builds. *)
Definition createInput (d : ResourceData) : Tf.mayPanic CreateFleetInput :=
  computeCapacity ← expandComputeCapacity (Get d "compute_capacity");
  domainJoinInfo ← match whenSet d "domain_join_info" with
                   | Some v => expandDomainJoinInfo v
                   | None => Some None
                   end;
  vpcConfig ← match whenSet d AttrVPCConfig with
              | Some v => expandVPCConfig v
              | None => Some None
              end;
  Some {| CreateName := GetString d "name";
          CreateInstanceType := GetString d AttrInstanceType;
          CreateComputeCapacity := computeCapacity;
          CreateTags := getTagsIn;
          CreateDescription := whenSet d AttrDescription;
          CreateDisconnectTimeoutInSeconds := whenSet d "disconnect_timeout_in_seconds";
          CreateIdleDisconnectTimeoutInSeconds :=
            whenSet d "idle_disconnect_timeout_in_seconds";
          CreateDisplayName := whenSet d AttrDisplayName;
          CreateDomainJoinInfo := domainJoinInfo;
          CreateEnableDefaultInternetAccess := whenSet d "enable_default_internet_access";
          CreateFleetType := whenSet d "fleet_type";
          CreateImageName := whenSet d "image_name";
          CreateImageArn := whenSet d "image_arn";
          CreateIamRoleArn := whenSet d "iam_role_arn";
          CreateMaxSessionsPerInstance := whenSet d "max_sessions_per_instance";
          CreateMaxUserDurationInSeconds := whenSet d "max_user_duration_in_seconds";
          CreateStreamView := whenSet d "stream_view";
          CreateVpcConfig := vpcConfig |}.

(** Modelled from the spec: [retry.RetryContext] belongs to the plugin SDK
    and is not part of these sources.  The closure is run again for as
    long as it asks for a retry and the timeout leaves room; when the
    tries run out the last retryable error is returned, and when not even
    one try fitted the timeout error is, on which [resourceFleetCreate]
    calls CreateFleet once more.  [k] is the number of CreateFleet calls
    made; the result is the last output, the error and the calls made. *)
Fixpoint createRetry (tries k : nat) (input : CreateFleetInput) (last : error)
  : option CreateFleetOutput * error * nat :=
  match tries with
  | 0 =>
      match last with
      | Some e => (None, Some e, k)
      | None =>
          let '(output, err) := CreateFleetWithContext k input in
          (output, err, S k)
      end
  | S tries' =>
      let '(output, err) := CreateFleetWithContext k input in
      match err with
      | Some e =>
          if createRetryable e then createRetry tries' (S k) input (Some e)
          else (output, Some e, S k)
      | None => (output, None, S k)
      end
  end.

(** *** resourceFleetCreate

    The result is the diagnostics, the resource data, the number of
    CreateFleet calls made and the calls made after them; the answers of
    [c] are numbered from the first call after the creation.  [None] is
    the panic of an expander or on an output without a fleet. *)
Definition resourceFleetCreate (d : ResourceData)
  : option (Diagnostics * ResourceData * nat * list call) :=
  let diags : Diagnostics := [] in
  input ← createInput d;
  let '(output, err, n) := createRetry tries 0 input None in
  let log : list call := [] in
  match err with
  | Some e =>
      Some (AppendErrorf diags
              ("creating Appstream Fleet (" +:+ GetString d "name" +:+ "): "
               +:+ Error e), d, n, log)
  | None =>
      out ← output;
      fleet ← CreatedFleet out;
      let d := SetId (ACM.StringValue fleet) d in
      (* Start fleet workflow *)
      let err := StartFleetWithContext c (length log) (Id d) in
      let log := log ++ [StartFleet (Id d)] in
      match err with
      | Some e =>
          Some (AppendErrorf diags
                  ("starting Appstream Fleet (" +:+ Id d +:+ "): " +:+ Error e),
                d, n, log)
      | None =>
          let err := waitFleetStateRunning c (length log) (Id d) in
          let log := log ++ [WaitFleetStateRunning (Id d)] in
          match err with
          | Some e =>
              Some (AppendErrorf diags
                      ("waiting for Appstream Fleet (" +:+ Id d
                       +:+ ") to be running: " +:+ Error e), d, n, log)
          | None =>
              let '(rdiags, d, log) := resourceFleetRead c d log in
              Some (diags ++ rdiags, d, n, log)
          end
      end
  end.

(** The attempts before the [m]-th fail with a retryable error. *)
Definition retriedBefore (input : CreateFleetInput) (m : nat) : Prop :=
  ∀ j, j < m → ∃ output e, CreateFleetWithContext j input = (output, Some e)
                           ∧ createRetryable e = true.

Lemma createRetry_first input m :
  ∀ t k last,
    m < t →
    (∀ j, k ≤ j < k + m →
       ∃ output e, CreateFleetWithContext j input = (output, Some e)
                   ∧ createRetryable e = true) →
    (∀ e, (CreateFleetWithContext (k + m) input).2 = Some e →
          createRetryable e = false) →
    createRetry t k input last =
    (CreateFleetWithContext (k + m) input, S (k + m)).
Proof.
  induction m as [|m IH]; intros t k last Hlt Hretry Hend;
    (destruct t as [|t]; [lia|]); simpl.
  - rewrite Nat.add_0_r in *.
    destruct (CreateFleetWithContext k input) as [output [e|]]; [|done].
    by rewrite (Hend e eq_refl).
  - destruct (Hretry k ltac:(lia)) as (output & e & -> & ->).
    rewrite (IH t (S k)); [| lia | intros j Hj; apply Hretry; lia |].
    + by replace (S k + m) with (k + S m) by lia.
    + by replace (S k + m) with (k + S m) by lia.
Qed.

End Create.

Section CreateFacts.

Variable CreateFleetWithContext : nat → CreateFleetInput → option CreateFleetOutput * error.
Variable tries : nat.
Variable c : conn.
Variable expandComputeCapacity : any → Tf.mayPanic (option FleetValues.ComputeCapacity).
Variable expandDomainJoinInfo : any → Tf.mayPanic (option FleetValues.DomainJoinInfo).
Variable expandVPCConfig : any → Tf.mayPanic (option FleetNetwork.VpcConfig).
Variable getTagsIn : list (string * string).

Local Abbreviation createInput' :=
  (createInput expandComputeCapacity expandDomainJoinInfo expandVPCConfig getTagsIn).
Local Abbreviation resourceFleetCreate' :=
  (resourceFleetCreate CreateFleetWithContext tries c expandComputeCapacity
     expandDomainJoinInfo expandVPCConfig getTagsIn).

(** A creation that CreateFleet refuses with an error that is not one of
    the three retried ones (resource not found, concurrent modification,
    the IAM role not yet usable) ends after that one more call: the error
    is reported, the fleet is not started and the identifier is not set.
    A panic of an expander ends the creation before any call. *)
Theorem resourceFleetCreate_refused (d : ResourceData) (input : CreateFleetInput)
    (m : nat) (output : option CreateFleetOutput) (e : err) :
  m < tries →
  createInput' d = Some input →
  retriedBefore CreateFleetWithContext input m →
  CreateFleetWithContext m input = (output, Some e) →
  createRetryable e = false →
  resourceFleetCreate' d
  = Some ([{| Severity_ := SeverityError;
              Summary := "creating Appstream Fleet (" +:+ GetString d "name"
                         +:+ "): " +:+ Error e |}], d, S m, [])
  ∧ (∀ d0, createInput' d0 = None → resourceFleetCreate' d0 = None).
Proof.
  intros Hm Hinput Hretry Hlast He. split.
  - unfold resourceFleetCreate. rewrite Hinput. simpl.
    rewrite (createRetry_first CreateFleetWithContext input m tries 0 None);
      [| done | intros j Hj; apply Hretry; lia | ].
    + simpl. by rewrite Hlast.
    + simpl. rewrite Hlast. by intros ? [= <-].
  - intros d0 Hnone. unfold resourceFleetCreate. by rewrite Hnone.
Qed.

(** Once CreateFleet has answered with a fleet, the identifier is the
    name of that fleet, and StartFleet for that name is the next call;
    when starting fails, or the wait for the running state fails, the
    error is reported with the identifier still set. *)
Theorem resourceFleetCreate_sets_id (d : ResourceData) (input : CreateFleetInput)
    (m : nat) (name : option string) :
  m < tries →
  createInput' d = Some input →
  retriedBefore CreateFleetWithContext input m →
  CreateFleetWithContext m input = (Some {| CreatedFleet := Some name |}, None) →
  let id := ACM.StringValue name in
  ∃ diags d' log,
    resourceFleetCreate' d = Some (diags, d', S m, log)
    ∧ log !! 0 = Some (StartFleet id)
    ∧ (∀ e, StartFleetWithContext c 0 id = Some e →
         d' = SetId id d ∧ log = [StartFleet id]
         ∧ Summary <$> diags
           = ["starting Appstream Fleet (" +:+ id +:+ "): " +:+ Error e])
    ∧ (StartFleetWithContext c 0 id = None →
       log !! 1 = Some (WaitFleetStateRunning id)
       ∧ (∀ e, waitFleetStateRunning c 1 id = Some e →
            d' = SetId id d ∧ length log = 2
            ∧ Summary <$> diags
              = ["waiting for Appstream Fleet (" +:+ id
                 +:+ ") to be running: " +:+ Error e])
       ∧ (waitFleetStateRunning c 1 id = None →
          log !! 2 = Some (DescribeFleets [id]) ∧ length log = 3)).
Proof.
  intros Hm Hinput Hretry Hlast id. unfold resourceFleetCreate.
  rewrite Hinput. simpl.
  rewrite (createRetry_first CreateFleetWithContext input m tries 0 None);
    [| done | intros j Hj; apply Hretry; lia | simpl; by rewrite Hlast].
  simpl. rewrite Hlast. simpl. fold id.
  destruct (StartFleetWithContext c 0 id) as [e1|] eqn:H1.
  { do 3 eexists. split; [reflexivity|].
    split_and!; [done | by intros e [= <-] | done]. }
  destruct (waitFleetStateRunning c 1 id) as [e2|] eqn:H2.
  { do 3 eexists. split; [reflexivity|].
    split_and!; [done | done |]. intros _.
    split_and!; [done | by intros e [= <-] | done]. }
  pose proof (resourceFleetRead_log c (SetId id d)
                [StartFleet id; WaitFleetStateRunning id]) as Hr.
  destruct (resourceFleetRead c (SetId id d) _) as [[rd d'] log'].
  simpl in Hr. subst log'.
  do 3 eexists. split; [reflexivity|].
  split_and!; [done | done |]. intros _. split_and!; done.
Qed.

End CreateFacts.

(** The connection of a fleet that cannot be started. *)
Definition startRefused : conn :=
  {| StopFleetWithContext := λ _ _, None;
     waitFleetStateStopped := λ _ _, None;
     UpdateFleetWithContext := λ _ _, None;
     StartFleetWithContext := λ _ _,
       Some (AwsError "LimitExceededException" "no capacity");
     waitFleetStateRunning := λ _ _, None;
     DeleteFleetWithContext := λ _ _, None;
     DescribeFleetsWithContext := λ _ _, ([[]], None) |}.

(** CreateFleet meets an IAM role that is not usable yet, then a request
    that is not valid. *)
Definition roleThenInvalid (k : nat) (_ : CreateFleetInput)
  : option CreateFleetOutput * error :=
  match k with
  | 0 => (None, Some (AwsError ErrCodeInvalidRoleException
            "AppStream 2.0 encountered an error because your IAM role is not ready"))
  | _ => (None, Some (AwsError "InvalidParameterCombinationException" "bad"))
  end.

(** CreateFleet meets a concurrent modification, then creates the fleet. *)
Definition busyThenCreated (k : nat) (_ : CreateFleetInput)
  : option CreateFleetOutput * error :=
  match k with
  | 0 => (None, Some (AwsError ErrCodeConcurrentModificationException "busy"))
  | _ => (Some {| CreatedFleet := Some (Some "fleet-1"%string) |}, None)
  end.

Definition newFleet : ResourceData :=
  {| Id := ""; IsNewResource := true; prior := ∅;
     planned := {[ "name"%string := VString "fleet-1" ]} |}.

(** Expanders of a configuration without blocks, and one that panics. *)
Definition noBlock {A} (_ : any) : Tf.mayPanic (option A) := Some None.
Definition panics {A} (_ : any) : Tf.mayPanic (option A) := None.

(** The input built for [newFleet]. *)
Definition newFleetInput : CreateFleetInput :=
  {| CreateName := "fleet-1";
     CreateInstanceType := "";
     CreateComputeCapacity := None;
     CreateTags := [];
     CreateDescription := None;
     CreateDisconnectTimeoutInSeconds := None;
     CreateIdleDisconnectTimeoutInSeconds := None;
     CreateDisplayName := None;
     CreateDomainJoinInfo := None;
     CreateEnableDefaultInternetAccess := None;
     CreateFleetType := None;
     CreateImageName := None;
     CreateImageArn := None;
     CreateIamRoleArn := None;
     CreateMaxSessionsPerInstance := None;
     CreateMaxUserDurationInSeconds := None;
     CreateStreamView := None;
     CreateVpcConfig := None |}.

Lemma resourceFleetCreate_refused_witness :
  resourceFleetCreate roleThenInvalid 5 allOk noBlock noBlock noBlock [] newFleet
  = Some ([{| Severity_ := SeverityError;
              Summary := "creating Appstream Fleet (fleet-1): InvalidParameterCombinationException: bad" |}],
          newFleet, 2, []).
Proof.
  apply (resourceFleetCreate_refused roleThenInvalid 5 allOk noBlock noBlock noBlock []
           newFleet newFleetInput 1 None
           (AwsError "InvalidParameterCombinationException" "bad")).
  - lia.
  - reflexivity.
  - intros [|j] Hj; [|lia].
    exists None. eexists. split; reflexivity.
  - reflexivity.
  - reflexivity.
Defined.

(** A compute capacity block that makes the expander panic: no call. *)
Example resourceFleetCreate_panics :
  resourceFleetCreate busyThenCreated 5 allOk panics noBlock noBlock [] newFleet = None.
Proof. reflexivity. Qed.

Lemma resourceFleetCreate_sets_id_witness :
  ∃ diags,
    resourceFleetCreate busyThenCreated 5 startRefused noBlock noBlock noBlock []
      newFleet
    = Some (diags, SetId "fleet-1" newFleet, 2, [StartFleet "fleet-1"])
    ∧ Summary <$> diags
      = ["starting Appstream Fleet (fleet-1): LimitExceededException: no capacity"%string].
Proof.
  destruct (resourceFleetCreate_sets_id busyThenCreated 5 startRefused
              noBlock noBlock noBlock [] newFleet newFleetInput 1
              (Some "fleet-1"%string))
    as (diags & d' & log & Hres & _ & Hstart & _).
  - lia.
  - reflexivity.
  - intros [|j] Hj; [|lia]. exists None. eexists. split; reflexivity.
  - reflexivity.
  - destruct (Hstart _ eq_refl) as (-> & -> & Hsum).
    exists diags. split; [exact Hres | exact Hsum].
Defined.

(** [resourceFleetDelete] stops the fleet first; DeleteFleet is its third
    call and is made exactly when StopFleet and the wait for the stopped
    state succeeded; the resource data is returned as it came. *)
Theorem resourceFleetDelete_order (c : conn) (d : ResourceData) (log : list call) :
  let k := length log in
  let id := Id d in
  ∃ calls,
    (resourceFleetDelete c d log).2 = log ++ calls
    ∧ (resourceFleetDelete c d log).1.2 = d
    ∧ calls !! 0 = Some (StopFleet id)
    ∧ (∀ i name, calls !! i = Some (DeleteFleet name) →
         i = 2 ∧ name = id
         ∧ StopFleetWithContext c k id = None
         ∧ waitFleetStateStopped c (k + 1) id = None)
    ∧ (StopFleetWithContext c k id = None →
       waitFleetStateStopped c (k + 1) id = None →
       calls = [StopFleet id; WaitFleetStateStopped id; DeleteFleet id])
    ∧ (∀ name, (UpdateFleet name ∉ calls) ∧ (StartFleet id ∉ calls)).
Proof.
  intros k id. unfold resourceFleetDelete. fold k id.
  destruct (StopFleetWithContext c k id) as [e1|] eqn:H1.
  { exists [StopFleet id].
    destruct (ErrCodeEquals (Some e1) ErrCodeResourceNotFoundException);
      split_and!; try done;
      try (intros [|i] name [=]);
      intros name; split; intros H%list_elem_of_singleton; discriminate H. }
  simpl. log_norm. fold k.
  destruct (waitFleetStateStopped c (k + 1) id) as [e2|] eqn:H2.
  { exists [StopFleet id; WaitFleetStateStopped id].
    rewrite <- app_assoc. split_and!; try done;
      try (intros [|[|i]] name [=]);
      intros name; split; intros H;
      repeat (apply elem_of_cons in H as [[=] | H]); by apply elem_of_nil in H. }
  log_norm. fold k.
  exists [StopFleet id; WaitFleetStateStopped id; DeleteFleet id].
  destruct (DeleteFleetWithContext c (k + 2) id) as [e3|]; simpl;
    try destruct (errCodeEquals e3 ErrCodeResourceNotFoundException);
    rewrite <- !app_assoc; (split_and!; try done;
      [ intros [|[|[|i]]] name [=]; by subst
      | intros name; split; intros H;
        repeat (apply elem_of_cons in H as [[=] | H]); by apply elem_of_nil in H ]).
Qed.

(** [resourceFleetRead] makes one DescribeFleets call, for the identifier;
    a fleet that is not found is dropped from the state (the identifier
    is cleared, without an error) unless the resource is new; any other
    error, no fleet and more than one fleet are reported and leave the
    resource data alone; one fleet gives no diagnostics and keeps the
    identifier. *)
Theorem resourceFleetRead_outcomes (c : conn) (d : ResourceData) (log : list call) :
  let answer := DescribeFleetsWithContext c (length log) [Id d] in
  let r := resourceFleetRead c d log in
  r.2 = log ++ [DescribeFleets [Id d]]
  ∧ (IsNewResource d = false →
     ErrCodeEquals answer.2 ErrCodeResourceNotFoundException = true →
     r.1.1 = [] ∧ r.1.2 = SetId "" d)
  ∧ (∀ e, answer.2 = Some e →
       (IsNewResource d = true
        ∨ errCodeEquals e ErrCodeResourceNotFoundException = false) →
       r.1.2 = d
       ∧ Summary <$> r.1.1
         = ["reading Appstream Fleet (" +:+ Id d +:+ "): " +:+ Error e])
  ∧ (answer.2 = None →
     (answer.1 = [] →
      r.1.2 = d
      ∧ Summary <$> r.1.1
        = ["reading Appstream Fleet (" +:+ Id d +:+ "): empty response"])
     ∧ (2 ≤ length answer.1 →
        r.1.2 = d
        ∧ Summary <$> r.1.1
          = ["reading Appstream Fleet (" +:+ Id d +:+ "): multiple fleets found"])
     ∧ (length answer.1 = 1 → r.1.1 = [] ∧ Id r.1.2 = Id d)).
Proof.
  intros answer r. subst r. split; [apply resourceFleetRead_log|].
  unfold resourceFleetRead. fold answer.
  destruct answer as [fleets e]. simpl.
  split_and!.
  - intros -> ->. done.
  - intros e' -> [-> | He]; simpl.
    + done.
    + rewrite He. rewrite andb_false_r. done.
  - intros ->. rewrite andb_false_r. split_and!.
    + by intros ->.
    + destruct fleets as [|f1 [|f2 fleets]]; simpl; [lia | lia | done].
    + destruct fleets as [|f1 [|f2 fleets]]; simpl; try done. intros _.
      split; [done|].
      assert (Hid : ∀ (l : Fleet) d0, Id (foldl (λ d' kv, Set_ kv.1 kv.2 d') d0 l)
                                     = Id d0).
      { clear. induction l as [|kv l IH]; intros d0; [done|]. simpl.
        by rewrite IH. }
      apply Hid.
Qed.

End FleetLifecycle.

(** ** ECS task execution: the expanders of the overrides block *)

Module TaskOverrides.

Import Tf.

(** Attribute names of the [names] package. *)
Definition AttrKey : string := "key".
Definition AttrValue : string := "value".
Definition AttrType : string := "type".
Definition AttrName : string := "name".
Definition AttrDeviceName : string := "device_name".
Definition AttrExecutionRoleARN : string := "execution_role_arn".

(** The API objects.  A field set through [aws.String] is never [nil] and
    is the string itself; a field that can stay [nil] is an option; a
    slice is [None] when [nil]. *)
Record KeyValuePair := { KvName : string; KvValue : string }.

Record ResourceRequirement := { RrType : string; RrValue : string }.

Record InferenceAcceleratorOverride := { DeviceName : string; DeviceType : string }.

Record ContainerOverride := {
  CoName : string;
  Command : option (list string);
  Cpu : option Z;
  Environment : option (list KeyValuePair);
  Memory : option Z;
  MemoryReservation : option Z;
  ResourceRequirements : option (list ResourceRequirement)
}.

Record TaskOverride := {
  ToCpu : option string;
  ToMemory : option string;
  ExecutionRoleArn : option string;
  TaskRoleArn : option string;
  InferenceAcceleratorOverrides : option (list InferenceAcceleratorOverride);
  ContainerOverrides : option (list ContainerOverride)
}.

(** *** expandTaskEnvironment *)
Definition expandTaskEnvironment (tfSet : list value)
  : mayPanic (option (list KeyValuePair)) :=
  if bool_decide (length tfSet = 0) then Some None
  else
    apiObject ← mapM (λ item,
      tfMap ← asMap item;
      name ← stringAt tfMap AttrKey;
      val ← stringAt tfMap AttrValue;
      Some {| KvName := name; KvValue := val |}) tfSet;
    Some (Some apiObject).

(** *** expandResourceRequirements *)
Definition expandResourceRequirements (tfSet : list value)
  : mayPanic (option (list ResourceRequirement)) :=
  if bool_decide (length tfSet = 0) then Some None
  else
    apiObject ← mapM (λ item,
      tfMap ← asMap item;
      ty ← stringAt tfMap AttrType;
      val ← stringAt tfMap AttrValue;
      Some {| RrType := ty; RrValue := val |}) tfSet;
    Some (Some apiObject).

(** *** expandInferenceAcceleratorOverrides *)
Definition expandInferenceAcceleratorOverrides (tfSet : list value)
  : mayPanic (option (list InferenceAcceleratorOverride)) :=
  if bool_decide (length tfSet = 0) then Some None
  else
    apiObject ← mapM (λ item,
      tfMap ← asMap item;
      name ← stringAt tfMap AttrDeviceName;
      ty ← stringAt tfMap "device_type";
      Some {| DeviceName := name; DeviceType := ty |}) tfSet;
    Some (Some apiObject).

Section Containers.

(** [flex.ExpandStringList] (internal/flex, not under src/). *)
Variable ExpandStringList : list value → list string.

(** The body of the loop of [expandContainerOverride]. *)
Definition containerOverride (item : value) : mayPanic ContainerOverride :=
  tfMap ← asMap item;
  name ← stringAt tfMap AttrName;
  command ← optionally tfMap "command"
              (λ v, commandStrings ← asList v; Some (ExpandStringList commandStrings));
  cpu ← optionally tfMap "cpu" asInt;
  environment ← optionally tfMap "environment"
                  (λ v, tfSet ← asSet v; expandTaskEnvironment tfSet);
  memory ← optionally tfMap "memory" asInt;
  memoryReservation ← optionally tfMap "memory_reservation" asInt;
  resourceRequirements ← optionally tfMap "resource_requirements"
                           (λ v, tfSet ← asSet v; expandResourceRequirements tfSet);
  Some {| CoName := name;
          Command := command;
          Cpu := cpu;
          Environment := mjoin environment;
          Memory := memory;
          MemoryReservation := memoryReservation;
          ResourceRequirements := mjoin resourceRequirements |}.

(** *** expandContainerOverride *)
Definition expandContainerOverride (tfList : list value)
  : mayPanic (option (list ContainerOverride)) :=
  if bool_decide (length tfList = 0) then Some None
  else
    apiObject ← mapM containerOverride tfList;
    Some (Some apiObject).

(** *** expandTaskOverride *)
Definition expandTaskOverride (tfList : list value) : mayPanic (option TaskOverride) :=
  match tfList with
  | [] => Some None
  | first :: _ =>
      tfMap ← asMap first;
      cpu ← optionally tfMap "cpu" asString;
      memory ← optionally tfMap "memory" asString;
      executionRoleArn ← optionally tfMap AttrExecutionRoleARN asString;
      taskRoleArn ← optionally tfMap "task_role_arn" asString;
      accelerators ← optionally tfMap "inference_accelerator_overrides"
                       (λ v, tfSet ← asSet v; expandInferenceAcceleratorOverrides tfSet);
      containers ← optionally tfMap "container_overrides"
                     (λ v, tfList ← asList v; expandContainerOverride tfList);
      Some (Some {| ToCpu := cpu;
                    ToMemory := memory;
                    ExecutionRoleArn := executionRoleArn;
                    TaskRoleArn := taskRoleArn;
                    InferenceAcceleratorOverrides := mjoin accelerators;
                    ContainerOverrides := mjoin containers |})
  end.

End Containers.

(** An item of a set of pairs: a map that holds a string under each of the
    two keys. *)
Definition holds (k1 k2 : string) (item : value) (v1 v2 : string) : Prop :=
  ∃ m, item = Map m ∧ lookupKey m k1 = Some (Str v1) ∧ lookupKey m k2 = Some (Str v2).

Lemma stringAt_Some m key s :
  stringAt m key = Some s ↔ lookupKey m key = Some (Str s).
Proof.
  unfold stringAt. destruct (lookupKey m key) as [[]|]; simpl; naive_solver.
Qed.

Lemma pair_item {A} (mk : string → string → A) (p1 p2 : A → string) k1 k2 item a :
  (∀ x y, p1 (mk x y) = x) → (∀ x y, p2 (mk x y) = y) →
  (∀ b, mk (p1 b) (p2 b) = b) →
  (tfMap ← asMap item; x ← stringAt tfMap k1; y ← stringAt tfMap k2; Some (mk x y))
  = Some a
  ↔ holds k1 k2 item (p1 a) (p2 a).
Proof.
  intros H1 H2 H3. unfold holds. split.
  - intros H. destruct item as [| | | | |  |m]; try discriminate. simpl in H.
    destruct (stringAt m k1) as [x|] eqn:Hx; [|discriminate]. simpl in H.
    destruct (stringAt m k2) as [y|] eqn:Hy; [|discriminate]. simpl in H.
    injection H as <-. exists m. rewrite H1, H2.
    by rewrite <- !stringAt_Some.
  - intros (m & -> & Hx & Hy). simpl.
    apply stringAt_Some in Hx, Hy. rewrite Hx. simpl. rewrite Hy. simpl.
    by rewrite H3.
Qed.

Lemma pairs_spec {A} (mk : string → string → A) (p1 p2 : A → string) k1 k2 tfSet :
  (∀ x y, p1 (mk x y) = x) → (∀ x y, p2 (mk x y) = y) →
  (∀ b, mk (p1 b) (p2 b) = b) →
  let r := if bool_decide (length tfSet = 0) then Some None
           else apiObject ← mapM (λ item,
                  tfMap ← asMap item;
                  x ← stringAt tfMap k1;
                  y ← stringAt tfMap k2;
                  Some (mk x y)) tfSet;
                Some (Some apiObject) in
  (r = Some None ↔ tfSet = [])
  ∧ (∀ l, r = Some (Some l)
          ↔ tfSet ≠ [] ∧ Forall2 (λ item a, holds k1 k2 item (p1 a) (p2 a)) tfSet l)
  ∧ (r = None ↔ Exists (λ item, ∀ x y, ¬ holds k1 k2 item x y) tfSet).
Proof.
  intros Hp1 Hp2 Hmk r. subst r.
  pose proof (λ item a, pair_item mk p1 p2 k1 k2 item a Hp1 Hp2 Hmk) as Hf.
  case_bool_decide as Hlen.
  { apply nil_length_inv in Hlen as ->. split_and!; [done | |].
    - intros l. split; [done | by intros [? _]].
    - split; [done|]. by intros ?%Exists_nil. }
  assert (tfSet ≠ []) as Hne by (by intros ->).
  split_and!.
  - split; [|done]. destruct (mapM _ tfSet); discriminate.
  - intros l. split.
    + intros H. split; [done|].
      destruct (mapM _ tfSet) as [k|] eqn:Hk; [|discriminate].
      simpl in H. injection H as ->.
      apply mapM_Some in Hk. eapply Forall2_impl; [exact Hk|].
      intros ??; apply Hf.
    + intros [_ H].
      match goal with |- mapM ?f _ ≫= _ = _ => assert (mapM f tfSet = Some l) as -> end;
        [|done].
      apply mapM_Some. eapply Forall2_impl; [exact H|].
      intros ??; apply Hf.
  - rewrite Exists_exists. split.
    + intros H. destruct (mapM _ tfSet) as [k|] eqn:Hk; [discriminate|].
      apply mapM_None in Hk. apply Exists_exists in Hk as (item & Hin & Hnone).
      exists item. split; [done|]. intros x y Hh.
      rewrite <- (Hp1 x y) in Hh at 1. rewrite <- (Hp2 x y) in Hh at 2.
      apply Hf in Hh. congruence.
    + intros (item & Hin & Hno).
      destruct (mapM _ tfSet) as [k|] eqn:Hk; [|done]. exfalso.
      apply mapM_Some in Hk.
      apply list_elem_of_lookup in Hin as [i Hi].
      destruct (Forall2_lookup_l _ _ _ _ _ Hk Hi) as (a & _ & Ha).
      apply Hf in Ha. by apply (Hno _ _ Ha).
Qed.

(** [expandTaskEnvironment] returns nil exactly for the empty set; for a
    set whose every item is a map with a string under key and under value
    it returns one pair per item, in the order of the set, with those two
    strings; it panics exactly when some item is not such a map. *)
Theorem expandTaskEnvironment_entries (tfSet : list value) :
  (expandTaskEnvironment tfSet = Some None ↔ tfSet = [])
  ∧ (∀ l, expandTaskEnvironment tfSet = Some (Some l)
          ↔ tfSet ≠ []
            ∧ Forall2 (λ item kv, holds "key" "value" item (KvName kv) (KvValue kv))
                tfSet l)
  ∧ (expandTaskEnvironment tfSet = None
     ↔ Exists (λ item, ∀ k v, ¬ holds "key" "value" item k v) tfSet).
Proof.
  apply (pairs_spec Build_KeyValuePair KvName KvValue); try done. by intros [].
Qed.

(** [expandResourceRequirements] returns nil exactly for the empty set;
    for a set whose every item is a map with a string under type and
    under value it returns one requirement per item, in the order of the
    set; it panics exactly when some item is not such a map. *)
Theorem expandResourceRequirements_entries (tfSet : list value) :
  (expandResourceRequirements tfSet = Some None ↔ tfSet = [])
  ∧ (∀ l, expandResourceRequirements tfSet = Some (Some l)
          ↔ tfSet ≠ []
            ∧ Forall2 (λ item rr, holds "type" "value" item (RrType rr) (RrValue rr))
                tfSet l)
  ∧ (expandResourceRequirements tfSet = None
     ↔ Exists (λ item, ∀ t v, ¬ holds "type" "value" item t v) tfSet).
Proof.
  apply (pairs_spec Build_ResourceRequirement RrType RrValue); try done.
  by intros [].
Qed.

(** [expandInferenceAcceleratorOverrides] returns nil exactly for the
    empty set; for a set whose every item is a map with a string under
    device_name and under device_type it returns one override per item,
    in the order of the set; it panics exactly when some item is not such
    a map. *)
Theorem expandInferenceAcceleratorOverrides_entries (tfSet : list value) :
  (expandInferenceAcceleratorOverrides tfSet = Some None ↔ tfSet = [])
  ∧ (∀ l, expandInferenceAcceleratorOverrides tfSet = Some (Some l)
          ↔ tfSet ≠ []
            ∧ Forall2 (λ item o, holds "device_name" "device_type" item
                                   (DeviceName o) (DeviceType o))
                tfSet l)
  ∧ (expandInferenceAcceleratorOverrides tfSet = None
     ↔ Exists (λ item, ∀ n t, ¬ holds "device_name" "device_type" item n t) tfSet).
Proof.
  apply (pairs_spec Build_InferenceAcceleratorOverride DeviceName DeviceType);
    try done.
  by intros [].
Qed.

Lemma optionally_Some {A} m key (f : value → mayPanic A) r :
  optionally m key f = Some r →
  (lookupKey m key = None ∧ r = None)
  ∨ (∃ v a, lookupKey m key = Some v ∧ f v = Some a ∧ r = Some a).
Proof.
  unfold optionally. destruct (lookupKey m key) as [v|]; [|naive_solver].
  destruct (f v) as [a|] eqn:Hf; [|done]. intros [= <-]. right. eauto.
Qed.

(** A scalar field copied from a present key: set exactly to the value
    under the key, whatever it is, and [nil] exactly when the key is
    missing. *)
Lemma optionally_scalar {A} m key (as_ : value → mayPanic A) (inj : A → value) r :
  (∀ v a, as_ v = Some a ↔ v = inj a) →
  optionally m key as_ = Some r →
  (∀ a, r = Some a ↔ lookupKey m key = Some (inj a))
  ∧ (r = None ↔ lookupKey m key = None).
Proof.
  intros Has [[Hl ->] | (v & a & Hl & Hf & ->)]%optionally_Some; rewrite Hl.
  - done.
  - apply Has in Hf as ->. split; [|done]. intros a'. split.
    + by intros [= ->].
    + intros [= H]. f_equal. apply (Has (inj a)) in H. 
      assert (as_ (inj a) = Some a) as Ha by by apply Has. congruence.
Qed.

Lemma asInt_Int v z : asInt v = Some z ↔ v = Int z.
Proof. destruct v; simpl; naive_solver. Qed.

Lemma asString_Str v z : asString v = Some z ↔ v = Str z.
Proof. destruct v; simpl; naive_solver. Qed.

(** What a container override returned for an item says about the item. *)
Definition overrides (ExpandStringList : list value → list string)
    (item : value) (co : ContainerOverride) : Prop :=
  ∃ m, item = Map m
    ∧ lookupKey m "name" = Some (Str (CoName co))
    ∧ (∀ z, Cpu co = Some z ↔ lookupKey m "cpu" = Some (Int z))
    ∧ (Cpu co = None ↔ lookupKey m "cpu" = None)
    ∧ (∀ z, Memory co = Some z ↔ lookupKey m "memory" = Some (Int z))
    ∧ (Memory co = None ↔ lookupKey m "memory" = None)
    ∧ (∀ z, MemoryReservation co = Some z
            ↔ lookupKey m "memory_reservation" = Some (Int z))
    ∧ (MemoryReservation co = None ↔ lookupKey m "memory_reservation" = None)
    ∧ (∀ cmd, Command co = Some cmd
              → ∃ strs, lookupKey m "command" = Some (List strs)
                        ∧ cmd = ExpandStringList strs)
    ∧ (Command co = None ↔ lookupKey m "command" = None)
    ∧ (∀ env, Environment co = Some env
              → ∃ tfSet, lookupKey m "environment" = Some (SetOf tfSet)
                         ∧ expandTaskEnvironment tfSet = Some (Some env))
    ∧ (∀ rrs, ResourceRequirements co = Some rrs
              → ∃ tfSet, lookupKey m "resource_requirements" = Some (SetOf tfSet)
                         ∧ expandResourceRequirements tfSet = Some (Some rrs)).

Lemma containerOverride_overrides E item co :
  containerOverride E item = Some co → overrides E item co.
Proof.
  unfold containerOverride, overrides. intros H.
  destruct item as [| | | | | |m]; try discriminate. simpl in H.
  destruct (stringAt m AttrName) as [name|] eqn:Hname; [|discriminate].
  simpl in H.
  destruct (optionally m "command" _) as [command|] eqn:Hcommand; [|discriminate].
  simpl in H.
  destruct (optionally m "cpu" asInt) as [cpu|] eqn:Hcpu; [|discriminate].
  simpl in H.
  destruct (optionally m "environment" _) as [env|] eqn:Henv; [|discriminate].
  simpl in H.
  destruct (optionally m "memory" asInt) as [mem|] eqn:Hmem; [|discriminate].
  simpl in H.
  destruct (optionally m "memory_reservation" asInt) as [res|] eqn:Hres;
    [|discriminate].
  simpl in H.
  destruct (optionally m "resource_requirements" _) as [rrs|] eqn:Hrrs;
    [|discriminate].
  simpl in H. injection H as <-. simpl.
  exists m. apply stringAt_Some in Hname.
  destruct (optionally_scalar _ _ _ Int _ asInt_Int Hcpu) as [? ?].
  destruct (optionally_scalar _ _ _ Int _ asInt_Int Hmem) as [? ?].
  destruct (optionally_scalar _ _ _ Int _ asInt_Int Hres) as [? ?].
  split_and!; try done.
  - intros cmd ->.
    apply optionally_Some in Hcommand as [[_ [=]] | (v & a & Hl & Hf & [= <-])].
    destruct v; try discriminate. simpl in Hf. injection Hf as <-. eauto.
  - apply optionally_Some in Hcommand as [[Hl ->] | (v & a & Hl & Hf & ->)];
      rewrite Hl; done.
  - intros e He.
    apply optionally_Some in Henv as [[_ ->] | (v & a & Hl & Hf & ->)];
      [done|]. simpl in He. subst a.
    destruct v; try discriminate. simpl in Hf. eauto.
  - intros e He.
    apply optionally_Some in Hrrs as [[_ ->] | (v & a & Hl & Hf & ->)];
      [done|]. simpl in He. subst a.
    destruct v; try discriminate. simpl in Hf. eauto.
Qed.

(** [expandContainerOverride] returns nil exactly for the empty list and
    otherwise one override per item, in order: each item is a map with a
    string name; an integer field is set exactly to the value under its
    key, zero included, and stays nil exactly when the key is missing;
    command, environment and resource requirements come from the values
    under their keys.  An item that is no map or lacks a string name makes
    it panic. *)
Theorem expandContainerOverride_items
    (ExpandStringList : list value → list string) (tfList : list value) :
  (expandContainerOverride ExpandStringList tfList = Some None ↔ tfList = [])
  ∧ (∀ l, expandContainerOverride ExpandStringList tfList = Some (Some l)
          → tfList ≠ [] ∧ Forall2 (overrides ExpandStringList) tfList l)
  ∧ (Exists (λ item, ∀ m, item = Map m → stringAt m "name" = None) tfList
     → expandContainerOverride ExpandStringList tfList = None).
Proof.
  unfold expandContainerOverride. case_bool_decide as Hlen.
  { apply nil_length_inv in Hlen as ->. split_and!; [done | done |].
    by intros ?%Exists_nil. }
  assert (tfList ≠ []) as Hne by (by intros ->).
  split_and!.
  - split; [|done]. destruct (mapM _ tfList); discriminate.
  - intros l H. split; [done|].
    destruct (mapM _ tfList) as [k|] eqn:Hk; [|discriminate].
    simpl in H. injection H as ->. apply mapM_Some in Hk.
    eapply Forall2_impl; [exact Hk|]. apply containerOverride_overrides.
  - intros (item & Hin & Hno)%Exists_exists.
    destruct (mapM _ tfList) as [k|] eqn:Hk; [|done]. exfalso.
    apply mapM_Some in Hk.
    apply list_elem_of_lookup in Hin as [i Hi].
    destruct (Forall2_lookup_l _ _ _ _ _ Hk Hi) as (co & _ & Hco).
    apply containerOverride_overrides in Hco as (m & -> & Hname & _).
    specialize (Hno m eq_refl). apply stringAt_Some in Hname. congruence.
Qed.

(** [expandTaskOverride] returns nil exactly for the empty list and reads
    the first element only; a first element that is no map makes it
    panic; each of the four string fields of the result is set exactly to
    the string under its key, the empty string included, and stays nil
    exactly when the key is missing. *)
Theorem expandTaskOverride_first
    (ExpandStringList : list value → list string) (tfList : list value) :
  (expandTaskOverride ExpandStringList tfList = Some None ↔ tfList = [])
  ∧ (∀ first rest, tfList = first :: rest →
       expandTaskOverride ExpandStringList tfList
       = expandTaskOverride ExpandStringList [first]
       ∧ (asMap first = None → expandTaskOverride ExpandStringList tfList = None)
       ∧ ∀ o, expandTaskOverride ExpandStringList tfList = Some (Some o) →
           ∃ m, first = Map m
             ∧ (∀ s, ToCpu o = Some s ↔ lookupKey m "cpu" = Some (Str s))
             ∧ (ToCpu o = None ↔ lookupKey m "cpu" = None)
             ∧ (∀ s, ToMemory o = Some s ↔ lookupKey m "memory" = Some (Str s))
             ∧ (ToMemory o = None ↔ lookupKey m "memory" = None)
             ∧ (∀ s, ExecutionRoleArn o = Some s
                     ↔ lookupKey m "execution_role_arn" = Some (Str s))
             ∧ (∀ s, TaskRoleArn o = Some s
                     ↔ lookupKey m "task_role_arn" = Some (Str s))
             ∧ (∀ cs, ContainerOverrides o = Some cs →
                  ∃ l, lookupKey m "container_overrides" = Some (List l)
                       ∧ expandContainerOverride ExpandStringList l = Some (Some cs))).
Proof.
  split.
  { destruct tfList as [|first rest]; [done|]. split; [|done].
    simpl. intros H.
    repeat match type of H with
           | (?x ≫= _) = _ => destruct x; simpl in H; [|discriminate]
           end.
    discriminate. }
  intros first rest ->. split_and!; [done | by intros H; simpl; rewrite H |].
  intros o H. simpl in H.
  destruct first as [| | | | | |m]; try discriminate. simpl in H.
  destruct (optionally m "cpu" asString) as [cpu|] eqn:Hcpu; [|discriminate].
  simpl in H.
  destruct (optionally m "memory" asString) as [mem|] eqn:Hmem; [|discriminate].
  simpl in H.
  destruct (optionally m AttrExecutionRoleARN asString) as [ex|] eqn:Hex;
    [|discriminate].
  simpl in H.
  destruct (optionally m "task_role_arn" asString) as [tr|] eqn:Htr; [|discriminate].
  simpl in H.
  destruct (optionally m "inference_accelerator_overrides" _) as [acc|] eqn:Hacc;
    [|discriminate].
  simpl in H.
  destruct (optionally m "container_overrides" _) as [cs|] eqn:Hcs; [|discriminate].
  simpl in H. injection H as <-. simpl.
  exists m.
  destruct (optionally_scalar _ _ _ Str _ asString_Str Hcpu) as [? ?].
  destruct (optionally_scalar _ _ _ Str _ asString_Str Hmem) as [? ?].
  destruct (optionally_scalar _ _ _ Str _ asString_Str Hex) as [? ?].
  destruct (optionally_scalar _ _ _ Str _ asString_Str Htr) as [? ?].
  split_and!; try done.
  intros cs' Hc.
  apply optionally_Some in Hcs as [[_ ->] | (v & a & Hl & Hf & ->)]; [done|].
  simpl in Hc. subst a. destruct v; try discriminate. simpl in Hf. eauto.
Qed.

(** A task override with one container override that sets no memory. *)
Definition sampleOverride : list value :=
  [Map [("cpu"%string, Str "");
        ("container_overrides"%string,
         List [Map [("name"%string, Str "app"); ("cpu"%string, Int 0)]])];
   Str "ignored"].

(** The empty cpu string and the zero cpu units are sent as they are, and
    the second element is not looked at. *)
Example expandTaskOverride_sample E :
  expandTaskOverride E sampleOverride
  = Some (Some {| ToCpu := Some ""%string;
                  ToMemory := None;
                  ExecutionRoleArn := None;
                  TaskRoleArn := None;
                  InferenceAcceleratorOverrides := None;
                  ContainerOverrides :=
                    Some [{| CoName := "app";
                             Command := None;
                             Cpu := Some 0%Z;
                             Environment := None;
                             Memory := None;
                             MemoryReservation := None;
                             ResourceRequirements := None |}] |}).
Proof. reflexivity. Qed.

End TaskOverrides.

(** ** ECS task execution: what a read leaves behind *)

Module TaskExecution.

Import ECS.

(** The value a fallible expander leaves in the input, for the value of
    its attribute. *)
Definition expanded (expand : any → any + err) (v : option any) (field : option any)
  : Prop :=
  match v with
  | Some v => expand v = inl (default VNil field) ∧ is_Some field
  | None => field = None
  end.


End TaskExecution.

(** ** ACM certificate: the helpers of certificate.go *)

Module CertificateValues.

Import Tf.

Definition CertificateTypeAmazonIssued : string := "AMAZON_ISSUED".
Definition CertificateTypePrivate : string := "PRIVATE".
Definition DomainStatusPendingValidation : string := "PENDING_VALIDATION".

(** [acm.ResourceRecord], [acm.DomainValidation], [acm.CertificateOptions]
    and the fields of [acm.CertificateDetail] that the helpers read.  A
    pointer field is an option, [None] for [nil]; a slice is a list, the
    empty one for [nil]; the elements of [DomainValidationOptions] are the
    structs behind the pointers of the slice. *)
Record ResourceRecord := {
  RecordName : option string;
  RecordType : option string;
  RecordValue : option string
}.

Record DomainValidation := {
  DomainName : option string;
  ResourceRecord_ : option ResourceRecord;
  ValidationEmails : list (option string);
  ValidationMethod : option string;
  ValidationStatus : option string
}.

Record CertificateOptions := {
  CertificateTransparencyLoggingPreference : option string
}.

Record CertificateDetail := {
  CertificateArn : option string;
  CertificateAuthorityArn : option string;
  CertificateDomainName : option string;
  Type_ : option string;
  Status : option string;
  DomainValidationOptions : list DomainValidation;
  SubjectAlternativeNames : list (option string);
  Options : option CertificateOptions
}.

Local Abbreviation StringValue := ACM.StringValue.

(** *** certificateValidationMethod

    The loop returns at the first option whose method is set. *)
Fixpoint firstValidationMethod (options : list DomainValidation) : option string :=
  match options with
  | [] => None
  | v :: rest =>
      match ValidationMethod v with
      | Some _ => Some (StringValue (ValidationMethod v))
      | None => firstValidationMethod rest
      end
  end.

Definition certificateValidationMethod (certificate : CertificateDetail) : string :=
  let found :=
    if bool_decide (StringValue (Type_ certificate) = CertificateTypeAmazonIssued)
    then firstValidationMethod (DomainValidationOptions certificate)
    else None in
  match found with
  | Some method => method
  | None => "NONE"
  end.

(** *** flattenSubjectAlternativeNames *)
Definition flattenSubjectAlternativeNames (cert : CertificateDetail) : list string :=
  let sans := SubjectAlternativeNames cert in
  foldl (λ vs v, vs ++ [StringValue v]) [] sans.

Section Convert.

(** [fmt]'s [%#v] of a domain validation. *)
Variable goSyntax : DomainValidation → string.

(** The map built for an option that has a resource record. *)
Definition validationOption (o : DomainValidation) (rr : ResourceRecord) : value :=
  Map [("domain_name"%string, Str (StringValue (DomainName o)));
       ("resource_record_name"%string, Str (StringValue (RecordName rr)));
       ("resource_record_type"%string, Str (StringValue (RecordType rr)));
       ("resource_record_value"%string, Str (StringValue (RecordValue rr)))].

(** [for _, validationEmail := range emails { result = append(result,
    *validationEmail) }]: a [nil] element panics. *)
Fixpoint appendEmails (result : list string) (emails : list (option string))
  : mayPanic (list string) :=
  match emails with
  | [] => Some result
  | Some validationEmail :: rest => appendEmails (result ++ [validationEmail]) rest
  | None :: _ => None
  end.

(** The loop over the domain validation options of an Amazon-issued
    certificate, with the two results built so far. *)
Fixpoint convertOptions (options : list DomainValidation)
    (domainValidationResult : list value) (emailValidationResult : list string)
  : mayPanic (list value * list string * error) :=
  match options with
  | [] => Some (domainValidationResult, emailValidationResult, None)
  | o :: rest =>
      match ResourceRecord_ o with
      | Some rr =>
          convertOptions rest (domainValidationResult ++ [validationOption o rr])
            emailValidationResult
      | None =>
          if bool_decide (0 < length (ValidationEmails o)) then
            emails ← appendEmails emailValidationResult (ValidationEmails o);
            convertOptions rest domainValidationResult emails
          else if bool_decide (ValidationStatus o = None
                               ∨ StringValue (ValidationStatus o)
                                 = DomainStatusPendingValidation) then
            Some ([], [], Some (New
              ("asynchronous ACM service domain validation assignment not complete, need to retry: "
               +:+ goSyntax o)))
          else convertOptions rest domainValidationResult emailValidationResult
      end
  end.

(** *** convertValidationOptions *)
Definition convertValidationOptions (certificate : CertificateDetail)
  : mayPanic (list value * list string * error) :=
  let ty := StringValue (Type_ certificate) in
  if bool_decide (ty = CertificateTypeAmazonIssued) then
    if bool_decide (length (DomainValidationOptions certificate) = 0
                    ∧ StringValue (Status certificate) = DomainStatusPendingValidation)
    then Some ([], [], Some (New "No validation options need to retry."))
    else convertOptions (DomainValidationOptions certificate) [] []
  else if bool_decide (ty = CertificateTypePrivate) then
    if bool_decide (StringValue (Status certificate) = DomainStatusPendingValidation)
    then Some ([], [], Some (New "certificate still pending issuance"))
    else Some ([], [], None)
  else Some ([], [], None).

End Convert.

(** *** expandCertificateOptions: a [nil] map is [None]. *)
Definition expandCertificateOptions (tfMap : option (list (string * value)))
  : option CertificateOptions :=
  match tfMap with
  | None => None
  | Some tfMap =>
      Some {| CertificateTransparencyLoggingPreference :=
                match lookupKey tfMap "certificate_transparency_logging_preference" with
                | Some (Str v) => if bool_decide (v ≠ ""%string) then Some v else None
                | _ => None
                end |}
  end.

(** *** flattenCertificateOptions: the field access on a [nil] pointer
    panics. *)
Definition flattenCertificateOptions (co : option CertificateOptions)
  : mayPanic (list value) :=
  co ← co;
  let m := Map [("certificate_transparency_logging_preference"%string,
                 Str (StringValue (CertificateTransparencyLoggingPreference co)))] in
  Some [m].

(** An option for which ACM has assigned neither a resource record nor
    validation emails yet. *)
Definition unassigned (o : DomainValidation) : bool :=
  bool_decide (ResourceRecord_ o = None)
  && bool_decide (ValidationEmails o = [])
  && (bool_decide (ValidationStatus o = None)
      || bool_decide (ValidationStatus o = Some DomainStatusPendingValidation)).

(** The certificates whose details ACM has not filled in yet. *)
Definition needsRetry (certificate : CertificateDetail) : bool :=
  let pending :=
    bool_decide (Status certificate = Some DomainStatusPendingValidation) in
  if bool_decide (Type_ certificate = Some CertificateTypeAmazonIssued)
  then (bool_decide (DomainValidationOptions certificate = []) && pending)
       || existsb unassigned (DomainValidationOptions certificate)
  else if bool_decide (Type_ certificate = Some CertificateTypePrivate)
  then pending
  else false.

(** The maps of the options that have a resource record, and the emails
    of the options that have none, both in the order of the options. *)
Definition recordsOf (options : list DomainValidation) : list value :=
  omap (λ o, rr ← ResourceRecord_ o; Some (validationOption o rr)) options.

Definition emailsOf (options : list DomainValidation) : list string :=
  options ≫= λ o, match ResourceRecord_ o with
                  | Some _ => []
                  | None => omap id (ValidationEmails o)
                  end.

Lemma StringValue_eq (p : option string) (s : string) :
  s ≠ ""%string → (ACM.StringValue p = s ↔ p = Some s).
Proof. destruct p; simpl; naive_solver. Qed.

Lemma appendEmails_Some result emails r :
  appendEmails result emails = Some r → r = result ++ omap id emails.
Proof.
  revert result. induction emails as [|[e|] emails IH]; intros result H; simpl in *.
  - injection H as <-. by rewrite app_nil_r.
  - apply IH in H as ->. by rewrite <- app_assoc.
  - discriminate.
Qed.

Lemma appendEmails_total result emails :
  Forall is_Some emails → is_Some (appendEmails result emails).
Proof.
  intros H. revert result. induction H as [|e emails [x ->] _ IH]; intros result;
    simpl; [done | apply IH].
Qed.

Lemma unassigned_spec o :
  unassigned o = true
  ↔ ResourceRecord_ o = None
    ∧ ¬ 0 < length (ValidationEmails o)
    ∧ (ValidationStatus o = None
       ∨ ACM.StringValue (ValidationStatus o) = DomainStatusPendingValidation).
Proof.
  unfold unassigned.
  rewrite !andb_true_iff, orb_true_iff, !bool_decide_eq_true.
  rewrite (StringValue_eq _ DomainStatusPendingValidation) by done.
  destruct (ValidationEmails o); simpl;
    (split; [intros [[? ?] ?] | intros (? & ? & ?)]);
    split_and!; try done; lia.
Qed.

Lemma convertOptions_Some goSyntax options dom em r :
  convertOptions goSyntax options dom em = Some r →
  (is_Some r.2 ↔ existsb unassigned options = true)
  ∧ (is_Some r.2 → r.1 = ([], []))
  ∧ (r.2 = None → r.1 = (dom ++ recordsOf options, em ++ emailsOf options)).
Proof.
  revert dom em. induction options as [|o options IH]; intros dom em H; simpl in H.
  - injection H as <-. simpl. rewrite !app_nil_r. split_and!; done.
  - unfold recordsOf, emailsOf. simpl.
    destruct (ResourceRecord_ o) as [rr|] eqn:Hrr.
    { assert (unassigned o = false) as ->.
      { apply not_true_iff_false. rewrite unassigned_spec. intros [? _].
        congruence. }
      simpl. apply IH in H as (H1 & H2 & H3). split_and!; [done | done |].
      intros Hn. rewrite (H3 Hn). unfold recordsOf, emailsOf.
      by rewrite <- app_assoc. }
    case_bool_decide as Hlen.
    { assert (unassigned o = false) as ->.
      { apply not_true_iff_false. rewrite unassigned_spec. by intros (_ & ? & _). }
      simpl. destruct (appendEmails em _) as [em'|] eqn:Hem; [|discriminate].
      simpl in H. apply appendEmails_Some in Hem as ->.
      apply IH in H as (H1 & H2 & H3). split_and!; [done | done |].
      intros Hn. rewrite (H3 Hn). unfold recordsOf, emailsOf.
      by rewrite <- app_assoc. }
    case_bool_decide as Hst.
    { assert (unassigned o = true) as ->.
      { rewrite unassigned_spec. by split_and!. }
      injection H as <-. simpl. split_and!; try done. }
    assert (unassigned o = false) as ->.
    { apply not_true_iff_false. rewrite unassigned_spec. by intros (_ & _ & ?). }
    simpl. apply IH in H as (H1 & H2 & H3). split_and!; [done | done |].
    intros Hn. rewrite (H3 Hn). unfold recordsOf, emailsOf.
    destruct (ValidationEmails o); [|simpl in Hlen; lia]. done.
Qed.

Lemma convertOptions_total goSyntax options dom em :
  Forall (λ o, Forall is_Some (ValidationEmails o)) options →
  is_Some (convertOptions goSyntax options dom em).
Proof.
  intros H. revert dom em.
  induction H as [|o options Ho _ IH]; intros dom em; simpl; [done|].
  destruct (ResourceRecord_ o); [apply IH|].
  case_bool_decide.
  - destruct (appendEmails_total em _ Ho) as [em' ->]. simpl. apply IH.
  - case_bool_decide; [done | apply IH].
Qed.

(** [certificateValidationMethod] answers NONE for a certificate that is
    not Amazon-issued, whatever its options say; for an Amazon-issued one
    it answers the method of the first option that has one, and NONE when
    no option has one. *)
Theorem certificateValidationMethod_first (certificate : CertificateDetail) :
  let options := DomainValidationOptions certificate in
  let method := certificateValidationMethod certificate in
  (Type_ certificate ≠ Some CertificateTypeAmazonIssued → method = "NONE"%string)
  ∧ (Type_ certificate = Some CertificateTypeAmazonIssued →
     (∀ i o m, options !! i = Some o → ValidationMethod o = Some m →
        (∀ j o', j < i → options !! j = Some o' → ValidationMethod o' = None) →
        method = m)
     ∧ ((∀ o, o ∈ options → ValidationMethod o = None) → method = "NONE"%string)).
Proof.
  intros options method. subst method. unfold certificateValidationMethod.
  fold options. split.
  - intros Hty. rewrite bool_decide_false; [done|].
    by rewrite (StringValue_eq _ CertificateTypeAmazonIssued).
  - intros ->. rewrite bool_decide_true by done. clearbody options. split.
    + intros i. revert options.
      induction i as [|i IH]; intros [|v options] o m Hi Hm Hbefore;
        try discriminate; simpl in *.
      * injection Hi as ->. by rewrite Hm.
      * rewrite (Hbefore 0 v) by (done || lia).
        apply (IH options o m); [done | done |].
        intros j o' Hj Ho'. apply (Hbefore (S j) o'); [lia | done].
    + induction options as [|v options IH]; intros Hall; [done|]. simpl.
      rewrite (Hall v) by left. apply IH. intros o Ho. apply Hall. by right.
Qed.

Lemma convertValidationOptions_Some
    (goSyntax : DomainValidation → string) (certificate : CertificateDetail)
    (r : list value * list string * error) :
  convertValidationOptions goSyntax certificate = Some r →
  (is_Some r.2 ↔ needsRetry certificate = true)
  ∧ (is_Some r.2 → r.1 = ([], []))
  ∧ (r.2 = None →
     r.1 = if bool_decide (Type_ certificate = Some CertificateTypeAmazonIssued)
           then (recordsOf (DomainValidationOptions certificate),
                 emailsOf (DomainValidationOptions certificate))
           else ([], [])).
Proof.
  unfold convertValidationOptions, needsRetry.
  assert (Ha : ∀ p, ACM.StringValue p = CertificateTypeAmazonIssued
                    ↔ p = Some CertificateTypeAmazonIssued)
    by (intros; by apply StringValue_eq).
  assert (Hp : ∀ p, ACM.StringValue p = CertificateTypePrivate
                    ↔ p = Some CertificateTypePrivate)
    by (intros; by apply StringValue_eq).
  assert (Hs : ∀ p, ACM.StringValue p = DomainStatusPendingValidation
                    ↔ p = Some DomainStatusPendingValidation)
    by (intros; by apply StringValue_eq).
  rewrite !(bool_decide_ext _ _ (Ha _)), !(bool_decide_ext _ _ (Hp _)).
  intros H.
  destruct (bool_decide (Type_ certificate = Some CertificateTypeAmazonIssued)).
  - case_bool_decide as Hempty.
    + injection H as <-. destruct Hempty as [Hlen Hst].
      apply nil_length_inv in Hlen. rewrite Hlen.
      apply StringValue_eq in Hst; [|done]. rewrite Hst. simpl.
      split_and!; done.
    + assert ((bool_decide (DomainValidationOptions certificate = [])
               && bool_decide (Status certificate = Some DomainStatusPendingValidation))
              = false) as ->.
      { apply not_true_iff_false. rewrite andb_true_iff, !bool_decide_eq_true.
        intros [Hnil Hst]. apply Hempty. rewrite Hnil. split; [done|].
        by apply StringValue_eq. }
      simpl. apply convertOptions_Some in H as (H1 & H2 & H3). done.
  - destruct (bool_decide (Type_ certificate = Some CertificateTypePrivate)).
    + rewrite (bool_decide_ext _ _ (Hs _)) in H.
      destruct (bool_decide (Status certificate = Some DomainStatusPendingValidation));
        injection H as <-; simpl; split_and!; done.
    + injection H as <-. simpl. split_and!; done.
Qed.

(** [convertValidationOptions] asks for a retry exactly for the
    certificates that ACM has not filled in yet: an Amazon-issued one
    that is pending without options or has an option with no record, no
    emails and a status that is unset or pending, and a private one that
    is pending.  With the error both results are nil; without it they
    are, for an Amazon-issued certificate, the maps of the options with a
    record and the emails of the options without one, in order, and nil
    for every other type. *)
Theorem convertValidationOptions_retry
    (goSyntax : DomainValidation → string) (certificate : CertificateDetail)
    (r : list value * list string * error) :
  convertValidationOptions goSyntax certificate = Some r →
  (is_Some r.2 ↔ needsRetry certificate = true)
  ∧ (is_Some r.2 → r.1 = ([], []))
  ∧ (r.2 = None →
     r.1 = if bool_decide (Type_ certificate = Some CertificateTypeAmazonIssued)
           then (recordsOf (DomainValidationOptions certificate),
                 emailsOf (DomainValidationOptions certificate))
           else ([], [])).
Proof. apply convertValidationOptions_Some. Qed.

Lemma convertValidationOptions_total
    (goSyntax : DomainValidation → string) (certificate : CertificateDetail) :
  Forall (λ o, Forall is_Some (ValidationEmails o))
    (DomainValidationOptions certificate) →
  is_Some (convertValidationOptions goSyntax certificate).
Proof.
  intros H. unfold convertValidationOptions.
  repeat case_bool_decide; try done. by apply convertOptions_total.
Qed.

(** [convertValidationOptions] panics only on a nil validation email:
    with none among the options it returns. *)
Theorem convertValidationOptions_returns
    (goSyntax : DomainValidation → string) (certificate : CertificateDetail) :
  Forall (λ o, Forall is_Some (ValidationEmails o))
    (DomainValidationOptions certificate) →
  is_Some (convertValidationOptions goSyntax certificate).
Proof. apply convertValidationOptions_total. Qed.

(** An Amazon-issued certificate with a DNS record for one name and
    emails for another. *)
Definition issuedCert : CertificateDetail :=
  {| CertificateArn := Some "arn:aws:acm:us-east-1:123456789012:certificate/1"%string;
     CertificateAuthorityArn := None;
     CertificateDomainName := Some "example.com"%string;
     Type_ := Some CertificateTypeAmazonIssued;
     Status := Some "ISSUED"%string;
     DomainValidationOptions :=
       [{| DomainName := Some "example.com"%string;
           ResourceRecord_ := Some {| RecordName := Some "_x.example.com."%string;
                                      RecordType := Some "CNAME"%string;
                                      RecordValue := Some "_y.acm-validations.aws."%string |};
           ValidationEmails := [Some "ignored@example.com"%string];
           ValidationMethod := None;
           ValidationStatus := Some "SUCCESS"%string |};
        {| DomainName := Some "example.org"%string;
           ResourceRecord_ := None;
           ValidationEmails := [Some "admin@example.org"%string];
           ValidationMethod := Some "EMAIL"%string;
           ValidationStatus := Some "SUCCESS"%string |}];
     SubjectAlternativeNames := [Some "example.com"%string; None];
     Options := None |}.

Lemma convertValidationOptions_retry_witness :
  ∃ r, convertValidationOptions (λ _, ""%string) issuedCert = Some r
       ∧ r.2 = None
       ∧ r.1.2 = ["admin@example.org"%string].
Proof.
  eexists. split; [reflexivity|].
  destruct (convertValidationOptions_retry (λ _, ""%string) issuedCert _ eq_refl)
    as (_ & _ & H).
  split; [reflexivity|]. by rewrite (H eq_refl).
Defined.

Lemma convertValidationOptions_returns_witness :
  is_Some (convertValidationOptions (λ _, ""%string) issuedCert).
Proof.
  apply convertValidationOptions_returns.
  repeat (constructor; try (by eexists)).
Defined.

Example certificateValidationMethod_sample :
  certificateValidationMethod issuedCert = "EMAIL"%string.
Proof. reflexivity. Qed.

(** [flattenSubjectAlternativeNames] gives one string per name, in order,
    the empty string for a nil one. *)
Lemma flattenSubjectAlternativeNames_map (cert : CertificateDetail) :
  flattenSubjectAlternativeNames cert
  = ACM.StringValue <$> SubjectAlternativeNames cert.
Proof.
  unfold flattenSubjectAlternativeNames.
  assert (∀ (l : list (option string)) acc,
            foldl (λ vs v, vs ++ [ACM.StringValue v]) acc l
            = acc ++ (ACM.StringValue <$> l)) as H.
  { induction l as [|x l IH]; intros acc; simpl; [by rewrite app_nil_r|].
    by rewrite IH, <- app_assoc. }
  apply H.
Qed.

(** The options that [flattenCertificateOptions] stores expand, with
    [expandCertificateOptions], to the options they came from, except
    that an empty preference comes back as nil; an expanded preference is
    never the empty string; flattening nil options panics and expanding a
    nil map gives nil. *)
Theorem expandCertificateOptions_flattenCertificateOptions :
  (∀ co : CertificateOptions,
     ∃ m, flattenCertificateOptions (Some co) = Some [Map m]
          ∧ expandCertificateOptions (Some m)
            = Some {| CertificateTransparencyLoggingPreference :=
                        match CertificateTransparencyLoggingPreference co with
                        | Some ""%string => None
                        | p => p
                        end |})
  ∧ (∀ tfMap co, expandCertificateOptions tfMap = Some co →
       CertificateTransparencyLoggingPreference co ≠ Some ""%string)
  ∧ flattenCertificateOptions None = None
  ∧ expandCertificateOptions None = None.
Proof.
  split_and!; [| | done | done].
  - intros [[p|]]; eexists; (split; [reflexivity|]); simpl; [|done].
    case_bool_decide as Hp; [by destruct p | by rewrite Hp].
  - intros [m|] co H; [|discriminate]. simpl in H. injection H as <-. simpl.
    destruct (lookupKey m _) as [[| v | | | | |]|]; try done.
    case_bool_decide; [congruence | done].
Qed.

End CertificateValues.

(** ** Resource data whose attributes hold nested values *)

Module Resource.

Import Tf.

(** [schema.ResourceData] as in [Schema], with lists, sets and maps among
    the attribute values. *)
Record ResourceData := {
  Id : string;
  IsNewResource : bool;
  prior : gmap string value;
  planned : gmap string value
}.

Definition SetId (id : string) (d : ResourceData) : ResourceData :=
  {| Id := id; IsNewResource := IsNewResource d;
     prior := prior d; planned := planned d |}.

(** [d.Set(key, value)]. *)
Definition Set_ (key : string) (v : value) (d : ResourceData) : ResourceData :=
  {| Id := Id d; IsNewResource := IsNewResource d;
     prior := prior d; planned := <[key := v]> (planned d) |}.

(** [d.Get(key)]. *)
Definition Get (d : ResourceData) (key : string) : value :=
  default Nil (planned d !! key).

(** The Go string behind an attribute of [schema.TypeString], the empty
    one when the attribute is unset. *)
Definition stringOf (v : option value) : string :=
  match v with
  | Some (Str s) => s
  | _ => ""
  end.

(** [d.Get(key).(string)] for an attribute of [schema.TypeString]. *)
Definition GetString (d : ResourceData) (key : string) : string :=
  stringOf (planned d !! key).

Definition isZero (v : value) : bool :=
  match v with
  | Nil => true
  | Str s => bool_decide (s = ""%string)
  | Int z => bool_decide (z = 0%Z)
  | Bool b => negb b
  | List l | SetOf l => bool_decide (l = [])
  | Map m => bool_decide (m = [])
  end.

(** [d.GetOk(key)]: the value, and whether it is set to a non-zero value. *)
Definition GetOk (d : ResourceData) (key : string) : value * bool :=
  let v := Get d key in (v, negb (isZero v)).

(** [d.HasChange(key)]: the prior and the applied value differ. *)
Definition HasChange (d : ResourceData) (key : string) : bool :=
  bool_decide (prior d !! key ≠ planned d !! key).

(** [d.HasChanges(keys...)]: the first changed key answers true. *)
Fixpoint HasChanges (d : ResourceData) (keys : list string) : bool :=
  match keys with
  | [] => false
  | key :: rest => if HasChange d key then true else HasChanges d rest
  end.

(** [d.GetChange(key)]: the prior and the applied value. *)
Definition GetChange (d : ResourceData) (key : string) : value * value :=
  (default Nil (prior d !! key), default Nil (planned d !! key)).

(** [d.GetChange(key)] for an attribute of [schema.TypeString]: both
    values are Go strings. *)
Definition GetChangeString (d : ResourceData) (key : string) : any * any :=
  (VString (stringOf (prior d !! key)), VString (stringOf (planned d !! key))).

(** What [d.Set] is given for a [*string]. *)
Definition pointer (p : option string) : value :=
  match p with
  | Some s => Str s
  | None => Nil
  end.

Lemma Id_Set key v d : Id (Set_ key v d) = Id d.
Proof. done. Qed.

Lemma planned_Set key key' v d :
  planned (Set_ key v d) !! key'
  = if bool_decide (key = key') then Some v else planned d !! key'.
Proof.
  unfold Set_. simpl. case_bool_decide as H.
  - rewrite H. apply lookup_insert_eq.
  - by apply lookup_insert_ne.
Qed.

(** The attribute under a key after a sequence of [d.Set]. *)
Ltac planned_lookup :=
  repeat (rewrite planned_Set;
          first [rewrite bool_decide_true by done
                | rewrite bool_decide_false by done]).

End Resource.

(** ** ACM certificate: create, read and update *)

Module CertificateLifecycle.

Import Tf Resource CertificateValues.

(** Resource tags ([tftags.KeyValueTags]) as key and value pairs. *)
Definition tags := list (string * string).

(** [tags.Map()]. *)
Definition tagsMap (t : tags) : value := Map (prod_map id Str <$> t).

Record RequestCertificateInput := {
  RequestDomainName : string;
  IdempotencyToken : string;
  RequestCertificateAuthorityArn : option string;
  RequestOptions : option CertificateOptions;
  RequestSubjectAlternativeNames : list string;
  RequestValidationMethod : option string;
  RequestTags : option tags
}.

Record ImportCertificateInput := {
  ImportCertificateBody : bytes;
  ImportCertificateArn : option string;
  ImportPrivateKey : bytes;
  ImportCertificateChain : option bytes;
  ImportTags : option tags
}.

(** The calls of the ACM API, with what they are given. *)
Inductive call :=
| RequestCertificateCall (input : RequestCertificateInput)
| ImportCertificateCall (input : ImportCertificateInput)
| DescribeCertificateCall (arn : string)
| ListTagsCall (arn : string)
| UpdateTagsCall (arn : string) (o n : value).

(** The connection: what an operation answers when it is the k-th call.
    A [nil] output is [None]; the output of a request or an import is the
    ARN pointer it holds, that of a description the certificate pointer. *)
Record conn := {
  RequestCertificate : nat → RequestCertificateInput → option (option string) * error;
  ImportCertificate : nat → ImportCertificateInput → option (option string) * error;
  DescribeCertificate : nat → string → option (option CertificateDetail) * error;
  ListTags : nat → string → tags * error;
  UpdateTags : nat → string → value → value → error
}.

(** [[]byte(s)]. *)
Definition bytesOf (s : string) : bytes := list_ascii_of_string s.

(** [*resource.RetryError]. *)
Inductive RetryError :=
| RetryableError (e : err)
| NonRetryableError (e : err).

(** Modelled from the spec: [resource.Retry] belongs to the plugin SDK and
    is not part of these sources.  It calls [f] until [f] returns [nil] or
    an error that is not retryable; [tries] is the number of calls that
    the timeout leaves room for.  When they run out the result is the
    last retryable error, and a [TimeoutError] when [f] was never
    called.  [f] passes the state it leaves behind; [None] is its panic. *)
Fixpoint Retry {S : Type} (tries : nat)
    (f : S → mayPanic (option RetryError * S)) (s : S) (last : error)
  : mayPanic (error * S) :=
  match tries with
  | 0 =>
      Some (match last with
            | Some e => Some e
            | None => Some (TimeoutError None "")
            end, s)
  | S tries' =>
      '(rerr, s) ← f s;
      match rerr with
      | None => Some (None, s)
      | Some (NonRetryableError e) => Some (Some e, s)
      | Some (RetryableError e) => Retry tries' f s (Some e)
      end
  end.

Lemma Retry_S {S : Type} tries (f : S → mayPanic (option RetryError * S)) s last :
  Retry (Datatypes.S tries) f s last
  = match f s with
    | Some (None, s) => Some (None, s)
    | Some (Some (NonRetryableError e), s) => Some (Some e, s)
    | Some (Some (RetryableError e), s) => Retry tries f s (Some e)
    | None => None
    end.
Proof. simpl. by destruct (f s) as [[[[]|] ?]|]. Qed.

Section Lifecycle.

(** The number of calls a timeout leaves room for. *)
Variable pollsWithin : ACM.Duration → nat.

(** [fmt]'s [%#v] of a domain validation. *)
Variable goSyntax : DomainValidation → string.

(** Functions on tags of internal/tags and of the provider configuration,
    not under src/: the merge of the default tags with those of an
    attribute value, and the removal of the AWS-reserved, of the ignored
    and of the default tags. *)
Variable MergeTags : value → tags.
Variable IgnoreAWS : tags → tags.
Variable IgnoreConfig : tags → tags.
Variable RemoveDefaultConfig : tags → tags.

(** The result of [resource.PrefixedUniqueId("tf")] in this run. *)
Variable uniqueId : string.

(** [sha1.Sum] and [strings.TrimSpace]. *)
Variable sha1_Sum : bytes → bytes.
Variable TrimSpace : string → string.

Variable c : conn.

(** The function that [resourceCertificateRead] hands to
    [resource.Retry], on the resource data and the calls made so far.
    [d.Set] is given values of the types of the schema and is taken not
    to fail. *)
Definition readAttempt (st : ResourceData * list call)
  : mayPanic (option RetryError * (ResourceData * list call)) :=
  let '(d, log) := st in
  let '(resp, err) := DescribeCertificate c (length log) (Id d) in
  let log := log ++ [DescribeCertificateCall (Id d)] in
  if negb (IsNewResource d) && ErrCodeEquals err ACM.ErrCodeResourceNotFoundException
  then Some (None, (SetId "" d, log))
  else
    match err with
    | Some e =>
        Some (Some (NonRetryableError
                      (Wrapped ("error reading ACM Certificate (" +:+ Id d +:+ "): ") e)),
              (d, log))
    | None =>
        match mjoin resp with
        | None =>
            Some (Some (NonRetryableError
                          (New ("error reading ACM Certificate (" +:+ Id d
                                +:+ "): empty response"))),
                  (d, log))
        | Some certificate =>
            if negb (IsNewResource d)
               && bool_decide (ACM.StringValue (Status certificate)
                               = ACM.CertificateStatusValidationTimedOut)
            then Some (None, (SetId "" d, log))
            else
              let d := Set_ "domain_name" (pointer (CertificateDomainName certificate)) d in
              let d := Set_ "arn" (pointer (CertificateArn certificate)) d in
              let d := Set_ "certificate_authority_arn"
                         (pointer (CertificateAuthorityArn certificate)) d in
              let d := Set_ "subject_alternative_names"
                         (List (Str <$> flattenSubjectAlternativeNames certificate)) d in
              '(domainValidationOptions, emailValidationOptions, err)
                ← convertValidationOptions goSyntax certificate;
              match err with
              | Some e => Some (Some (RetryableError e), (d, log))
              | None =>
                  let d := Set_ "domain_validation_options"
                             (List domainValidationOptions) d in
                  let d := Set_ "validation_emails"
                             (List (Str <$> emailValidationOptions)) d in
                  let d := Set_ "validation_method"
                             (Str (certificateValidationMethod certificate)) d in
                  options ← flattenCertificateOptions (Options certificate);
                  let d := Set_ "options" (List options) d in
                  let d := Set_ "status" (pointer (Status certificate)) d in
                  let '(tags, err) := ListTags c (length log) (Id d) in
                  let log := log ++ [ListTagsCall (Id d)] in
                  match err with
                  | Some e =>
                      Some (Some (NonRetryableError
                                    (New ("error listing tags for ACM Certificate ("
                                          +:+ Id d +:+ "): " +:+ Error e))),
                            (d, log))
                  | None =>
                      let tags := IgnoreConfig (IgnoreAWS tags) in
                      let d := Set_ "tags" (tagsMap (RemoveDefaultConfig tags)) d in
                      let d := Set_ "tags_all" (tagsMap tags) d in
                      Some (None, (d, log))
                  end
              end
        end
    end.

(** *** resourceCertificateRead *)
Definition resourceCertificateRead (d : ResourceData) (log : list call)
  : mayPanic (error * (ResourceData * list call)) :=
  Retry (pollsWithin ACM.AcmCertificateDnsValidationAssignmentTimeout)
    readAttempt (d, log) None.

(** [if len(tags) > 0 { input.Tags = Tags(tags.IgnoreAWS()) }]. *)
Definition inputTags (t : tags) : option tags :=
  if bool_decide (0 < length t) then Some (IgnoreAWS t) else None.

(** [if v, ok := d.GetOk(key); ok { field = aws.String(v.(string)) }]. *)
Definition stringWhenSet (d : ResourceData) (key : string) : mayPanic (option string) :=
  let '(v, ok) := GetOk d key in
  if ok then s ← asString v; Some (Some s) else Some None.

(** *** resourceCertificateCreate *)
Definition resourceCertificateCreate (d : ResourceData) (log : list call)
  : mayPanic (error * (ResourceData * list call)) :=
  let tags := MergeTags (Get d "tags") in
  if (GetOk d "domain_name").2 then
    let v1 := (GetOk d "certificate_authority_arn").2 in
    let v2 := (GetOk d "validation_method").2 in
    if negb v1 && negb v2 then
      Some (Some (New "`certificate_authority_arn` or `validation_method` must be set when creating an ACM certificate"),
            (d, log))
    else
      let domainName := GetString d "domain_name" in
      certificateAuthorityArn ← stringWhenSet d "certificate_authority_arn";
      options ←
        (let '(v, ok) := GetOk d "options" in
         if ok then
           l ← asList v;
           match l with
           | first :: _ =>
               if bool_decide (first ≠ Nil)
               then tfMap ← asMap first; Some (expandCertificateOptions (Some tfMap))
               else Some None
           | [] => Some None
           end
         else Some None);
      subjectAlternativeNames ←
        (let '(v, ok) := GetOk d "subject_alternative_names" in
         if ok then l ← asSet v; mapM asString l else Some []);
      validationMethod ← stringWhenSet d "validation_method";
      let input :=
        {| RequestDomainName := domainName;
           IdempotencyToken := uniqueId;
           RequestCertificateAuthorityArn := certificateAuthorityArn;
           RequestOptions := options;
           RequestSubjectAlternativeNames := subjectAlternativeNames;
           RequestValidationMethod := validationMethod;
           RequestTags := inputTags tags |} in
      let '(output, err) := RequestCertificate c (length log) input in
      let log := log ++ [RequestCertificateCall input] in
      match err with
      | Some e =>
          Some (Some (Wrapped ("requesting ACM Certificate (" +:+ domainName +:+ "): ") e),
                (d, log))
      | None =>
          arn ← output;
          let d := SetId (ACM.StringValue arn) d in
          resourceCertificateRead d log
      end
  else
    certificateChain ← stringWhenSet d "certificate_chain";
    let input :=
      {| ImportCertificateBody := bytesOf (GetString d "certificate_body");
         ImportCertificateArn := None;
         ImportPrivateKey := bytesOf (GetString d "private_key");
         ImportCertificateChain := bytesOf <$> certificateChain;
         ImportTags := inputTags tags |} in
    let '(output, err) := ImportCertificate c (length log) input in
    let log := log ++ [ImportCertificateCall input] in
    match err with
    | Some e => Some (Some (Wrapped "importing ACM Certificate: " e), (d, log))
    | None =>
        arn ← output;
        let d := SetId (ACM.StringValue arn) d in
        resourceCertificateRead d log
    end.

(** [!a || !b || !c] on the three answers of
    [isChangeNormalizeCertRemoval], from left to right. *)
Definition notAllNormalized (d : ResourceData) : mayPanic bool :=
  let '(oCBRaw, nCBRaw) := GetChangeString d "certificate_body" in
  let '(oCCRaw, nCCRaw) := GetChangeString d "certificate_chain" in
  let '(oPKRaw, nPKRaw) := GetChangeString d "private_key" in
  cb ← ACM.isChangeNormalizeCertRemoval sha1_Sum TrimSpace oCBRaw nCBRaw;
  if negb cb then Some true else
  cc ← ACM.isChangeNormalizeCertRemoval sha1_Sum TrimSpace oCCRaw nCCRaw;
  if negb cc then Some true else
  pk ← ACM.isChangeNormalizeCertRemoval sha1_Sum TrimSpace oPKRaw nPKRaw;
  Some (negb pk).

(** *** resourceCertificateUpdate *)
Definition resourceCertificateUpdate (d : ResourceData) (log : list call)
  : mayPanic (error * (ResourceData * list call)) :=
  reimport ←
    (if HasChanges d ["private_key"; "certificate_body"; "certificate_chain"]%string
     then notAllNormalized d else Some false);
  imported ←
    (if reimport : bool then
       chain ← stringWhenSet d "certificate_chain";
       let input :=
         {| ImportCertificateBody := bytesOf (GetString d "certificate_body");
            ImportCertificateArn := Some (GetString d "arn");
            ImportPrivateKey := bytesOf (GetString d "private_key");
            ImportCertificateChain := bytesOf <$> chain;
            ImportTags := None |} in
       let '(_, err) := ImportCertificate c (length log) input in
       Some (err, log ++ [ImportCertificateCall input])
     else Some (None, log));
  let '(err, log) := imported in
  match err with
  | Some e =>
      Some (Some (Wrapped ("error re-importing ACM Certificate (" +:+ Id d +:+ "): ") e),
            (d, log))
  | None =>
      let '(err, log) :=
        if HasChange d "tags_all" then
          let '(o, n) := GetChange d "tags_all" in
          (UpdateTags c (length log) (Id d) o n, log ++ [UpdateTagsCall (Id d) o n])
        else (None, log) in
      match err with
      | Some e => Some (Some (New ("error updating tags: " +:+ Error e)), (d, log))
      | None => resourceCertificateRead d log
      end
  end.

(** The calls of a read for the certificate [arn]. *)
Definition readCall (arn : string) (x : call) : Prop :=
  x = DescribeCertificateCall arn ∨ x = ListTagsCall arn.

(** What an attempt of the read leaves behind: one description, then a
    listing of the tags unless the attempt ended before; the identifier
    is kept, or cleared with no error; a retry is asked for before the
    tags are listed. *)
Lemma readAttempt_shape d log rerr d' log' :
  readAttempt (d, log) = Some (rerr, (d', log')) →
  (log' = log ++ [DescribeCertificateCall (Id d)]
   ∨ (log' = log ++ [DescribeCertificateCall (Id d); ListTagsCall (Id d)]
      ∧ ∀ e, rerr ≠ Some (RetryableError e)))
  ∧ (Id d' = Id d ∨ (Id d' = ""%string ∧ rerr = None))
  ∧ IsNewResource d' = IsNewResource d
  ∧ prior d' = prior d.
Proof.
  unfold readAttempt. intros H.
  destruct (DescribeCertificate c (length log) (Id d)) as [resp err].
  destruct (negb (IsNewResource d) && ErrCodeEquals err _).
  { injection H as <- <- <-. split_and!; [by left | by right | done | done]. }
  destruct err as [e|].
  { injection H as <- <- <-. split_and!; [by left | by left | done | done]. }
  destruct (mjoin resp) as [certificate|].
  2:{ injection H as <- <- <-. split_and!; [by left | by left | done | done]. }
  destruct (negb (IsNewResource d) && bool_decide _).
  { injection H as <- <- <-. split_and!; [by left | by right | done | done]. }
  destruct (convertValidationOptions goSyntax certificate) as [[[dvo emails] [e|]]|];
    simpl in H; [| |discriminate].
  { injection H as <- <- <-. split_and!; [by left | by left | done | done]. }
  destruct (flattenCertificateOptions (Options certificate)) as [options|];
    simpl in H; [|discriminate].
  rewrite length_app in H. simpl in H.
  destruct (ListTags c _ (Id d)) as [t [e|]];
    injection H as <- <- <-;
    (split_and!; [right; split; [by rewrite <- app_assoc | done]
                 | by left | done | done]).
Qed.

(** The calls of a read are descriptions and tag listings of the
    certificate it was given; it keeps the identifier or clears it
    without an error. *)
Lemma Retry_readAttempt tries :
  ∀ d log last err d' log',
    Retry tries readAttempt (d, log) last = Some (err, (d', log')) →
    (∃ calls, log' = log ++ calls ∧ Forall (readCall (Id d)) calls)
    ∧ (Id d' = Id d ∨ (Id d' = ""%string ∧ err = None))
    ∧ IsNewResource d' = IsNewResource d.
Proof.
  induction tries as [|tries IH]; intros d log last err d' log' H.
  { simpl in H. injection H as <- <- <-. split_and!; [|by left | done].
    exists []. by rewrite app_nil_r. }
  rewrite Retry_S in H.
  destruct (readAttempt (d, log)) as [[rerr [d1 log1]]|] eqn:Hattempt;
    [|discriminate].
  apply readAttempt_shape in Hattempt as (Hlog & Hid & Hnew & _).
  assert (∃ calls, log1 = log ++ calls ∧ Forall (readCall (Id d)) calls) as Hcalls.
  { destruct Hlog as [-> | [-> _]]; eexists; (split; [reflexivity|]);
      repeat constructor; by right. }
  destruct rerr as [[e|e]|].
  - apply IH in H as ((calls' & -> & Hcalls') & Hid' & Hnew').
    destruct Hid as [Hid | [_ [=]]]. rewrite Hid in *.
    destruct Hcalls as (calls & -> & Hc). split_and!; [| done | congruence].
    exists (calls ++ calls'). rewrite app_assoc. split; [done|].
    by apply Forall_app.
  - injection H as <- <- <-. split_and!; [done | | done].
    destruct Hid as [? | [_ [=]]]. by left.
  - injection H as <- <- <-. split_and!; [done | | done].
    destruct Hid as [? | [? _]]; [by left | by right].
Qed.

Local Abbreviation polls :=
  (pollsWithin ACM.AcmCertificateDnsValidationAssignmentTimeout).

(** The attributes an attempt writes before it converts the validation
    options. *)
Definition described (certificate : CertificateDetail) (d : ResourceData)
  : ResourceData :=
  Set_ "subject_alternative_names"
    (List (Str <$> flattenSubjectAlternativeNames certificate))
    (Set_ "certificate_authority_arn" (pointer (CertificateAuthorityArn certificate))
       (Set_ "arn" (pointer (CertificateArn certificate))
          (Set_ "domain_name" (pointer (CertificateDomainName certificate)) d))).

(** The k-th call describes a certificate that is [certificate], and the
    read does not take it for removed. *)
Definition describes (id : string) (isNew : bool) (k : nat)
    (certificate : CertificateDetail) : Prop :=
  DescribeCertificate c k id = (Some (Some certificate), None)
  ∧ (isNew = true
     ∨ Status certificate ≠ Some ACM.CertificateStatusValidationTimedOut).

Lemma readAttempt_describes d log certificate :
  describes (Id d) (IsNewResource d) (length log) certificate →
  readAttempt (d, log)
  = ('(domainValidationOptions, emailValidationOptions, err)
       ← convertValidationOptions goSyntax certificate;
     let log := log ++ [DescribeCertificateCall (Id d)] in
     let d := described certificate d in
     match err with
     | Some e => Some (Some (RetryableError e), (d, log))
     | None =>
         let d := Set_ "domain_validation_options" (List domainValidationOptions) d in
         let d := Set_ "validation_emails" (List (Str <$> emailValidationOptions)) d in
         let d := Set_ "validation_method"
                    (Str (certificateValidationMethod certificate)) d in
         options ← flattenCertificateOptions (Options certificate);
         let d := Set_ "options" (List options) d in
         let d := Set_ "status" (pointer (Status certificate)) d in
         let '(tags, err) := ListTags c (length log) (Id d) in
         let log := log ++ [ListTagsCall (Id d)] in
         match err with
         | Some e =>
             Some (Some (NonRetryableError
                           (New ("error listing tags for ACM Certificate ("
                                 +:+ Id d +:+ "): " +:+ Error e))),
                   (d, log))
         | None =>
             let tags := IgnoreConfig (IgnoreAWS tags) in
             let d := Set_ "tags" (tagsMap (RemoveDefaultConfig tags)) d in
             let d := Set_ "tags_all" (tagsMap tags) d in
             Some (None, (d, log))
         end
     end).
Proof.
  intros [Hanswer Hkept]. unfold readAttempt. rewrite Hanswer. simpl.
  rewrite andb_false_r.
  assert ((negb (IsNewResource d)
           && bool_decide (ACM.StringValue (Status certificate)
                           = ACM.CertificateStatusValidationTimedOut)) = false) as ->.
  { destruct Hkept as [-> | Hst]; [done|]. apply andb_false_intro2.
    apply bool_decide_eq_false. intros H. apply Hst.
    by apply StringValue_eq in H. }
  done.
Qed.

Lemma Retry_pending (id : string) (isNew : bool) :
  ∀ n d log last,
    Id d = id → IsNewResource d = isNew →
    (∀ j, j < n → ∃ certificate,
        describes id isNew (length log + j) certificate
        ∧ needsRetry certificate = true
        ∧ Forall (λ o, Forall is_Some (ValidationEmails o))
            (DomainValidationOptions certificate)) →
    ∃ err d',
      Retry n readAttempt (d, log) last
      = Some (err, (d', log ++ replicate n (DescribeCertificateCall id)))
      ∧ Id d' = id
      ∧ planned d' !! "status"%string = planned d !! "status"%string
      ∧ (n = 0 → err = match last with
                       | Some e => Some e
                       | None => Some (TimeoutError None "")
                       end)
      ∧ (∀ certificate,
           0 < n →
           DescribeCertificate c (length log + (n - 1)) id
           = (Some (Some certificate), None) →
           (∃ e, err = Some e
                 ∧ convertValidationOptions goSyntax certificate
                   = Some ([], [], Some e))
           ∧ planned d' !! "arn"%string = Some (pointer (CertificateArn certificate))).
Proof.
  induction n as [|n IH]; intros d log last Hid Hnew Hpending.
  { simpl. do 2 eexists. rewrite app_nil_r.
    split_and!; [done | done | done | done | intros; lia]. }
  destruct (Hpending 0 ltac:(lia)) as (certificate & Hd & Hretry & Hemails).
  rewrite Nat.add_0_r in Hd.
  rewrite Retry_S, (readAttempt_describes d log certificate)
    by (by rewrite Hid, Hnew).
  destruct (convertValidationOptions_total goSyntax certificate Hemails)
    as [[[dvo emails] err] Hconv].
  rewrite Hconv. simpl.
  destruct (convertValidationOptions_Some goSyntax certificate _ Hconv)
    as (Hsome & Hnil & _). simpl in Hsome, Hnil.
  apply Hsome in Hretry as [e ->]. injection (Hnil ltac:(done)) as -> ->.
  destruct (IH (described certificate d)
              (log ++ [DescribeCertificateCall (Id d)]) (Some e))
    as (err & d' & HR & Hid' & Hstatus & Hzero & Hlast); [done | done | |].
  { intros j Hj. rewrite length_app. simpl.
    replace (length log + 1 + j) with (length log + S j) by lia.
    apply Hpending. lia. }
  exists err, d'. rewrite HR, Hid, <- app_assoc. simpl.
  split_and!; [done | done | | done |].
  { rewrite Hstatus. unfold described. by planned_lookup. }
  intros cert' _ Hcert'. destruct n as [|n].
  - simpl in Hcert'. rewrite Nat.add_0_r in Hcert'.
    destruct Hd as [Hd _]. rewrite Hcert' in Hd. injection Hd as ->.
    rewrite (Hzero eq_refl). simpl in HR. injection HR as _ <-.
    split; [by exists e |].
    unfold described. by planned_lookup.
  - apply Hlast; [lia|]. rewrite length_app. simpl in *.
    replace (length log + 1 + (n - 0)) with (length log + (S n - 0)) by lia.
    done.
Qed.

(** A read whose first description fails, or finds the certificate gone,
    makes that one call.  For a resource that is not new, a certificate
    that is not found, or whose validation has timed out, is removed from
    the state: the identifier is cleared and the read succeeds.  Every
    other error, and an empty answer, ends the read with the error, and
    leaves the resource data alone. *)
Theorem resourceCertificateRead_gone (d : ResourceData) (log : list call) :
  0 < polls →
  let answer := DescribeCertificate c (length log) (Id d) in
  let log' := log ++ [DescribeCertificateCall (Id d)] in
  (IsNewResource d = false →
   (ErrCodeEquals answer.2 ACM.ErrCodeResourceNotFoundException = true
    ∨ (answer.2 = None
       ∧ ∃ certificate, mjoin answer.1 = Some certificate
           ∧ Status certificate = Some ACM.CertificateStatusValidationTimedOut)) →
   resourceCertificateRead d log = Some (None, (SetId "" d, log')))
  ∧ (∀ e, answer.2 = Some e →
       (IsNewResource d = true
        ∨ errCodeEquals e ACM.ErrCodeResourceNotFoundException = false) →
       resourceCertificateRead d log
       = Some (Some (Wrapped ("error reading ACM Certificate (" +:+ Id d +:+ "): ") e),
               (d, log')))
  ∧ (answer.2 = None → mjoin answer.1 = None →
     resourceCertificateRead d log
     = Some (Some (New ("error reading ACM Certificate (" +:+ Id d
                        +:+ "): empty response")),
             (d, log'))).
Proof.
  intros Hpolls answer log'. unfold resourceCertificateRead.
  destruct polls as [|n]; [lia|]. rewrite Retry_S. unfold readAttempt.
  fold answer. destruct answer as [resp err]. simpl. split_and!.
  - intros -> [-> | (-> & certificate & -> & Hst)]; simpl; [done|].
    by rewrite Hst.
  - intros e -> [-> | He]; simpl; [done|]. rewrite He, andb_false_r. done.
  - intros -> ->. by rewrite andb_false_r.
Qed.

(** While ACM has not filled in the certificate, the read describes it
    again, as often as the timeout leaves room for, and lists no tags;
    it then ends with the error of the last conversion.  The identifier
    and the status attribute are as before, while the ARN attribute holds
    that of the last description. *)
Theorem resourceCertificateRead_pending (d : ResourceData) (log : list call) :
  0 < polls →
  (∀ j, j < polls → ∃ certificate,
      describes (Id d) (IsNewResource d) (length log + j) certificate
      ∧ needsRetry certificate = true
      ∧ Forall (λ o, Forall is_Some (ValidationEmails o))
          (DomainValidationOptions certificate)) →
  ∃ e d',
    resourceCertificateRead d log
    = Some (Some e, (d', log ++ replicate polls (DescribeCertificateCall (Id d))))
    ∧ Id d' = Id d
    ∧ planned d' !! "status"%string = planned d !! "status"%string
    ∧ ∀ certificate,
        DescribeCertificate c (length log + (polls - 1)) (Id d)
        = (Some (Some certificate), None) →
        convertValidationOptions goSyntax certificate = Some ([], [], Some e)
        ∧ planned d' !! "arn"%string = Some (pointer (CertificateArn certificate)).
Proof.
  intros Hpolls Hpending. unfold resourceCertificateRead.
  destruct (Retry_pending (Id d) (IsNewResource d) polls d log None eq_refl eq_refl
              Hpending) as (err & d' & HR & Hid & Hstatus & _ & Hlast).
  destruct (Hpending (polls - 1) ltac:(lia)) as (certificate & [Hd _] & _).
  destruct (Hlast certificate Hpolls Hd) as [(e & -> & Hconv) Harn].
  exists e, d'. split_and!; [done | done | done |].
  intros cert' Hcert'. rewrite Hcert' in Hd. injection Hd as ->. done.
Qed.

(** A read whose first description finds a certificate that ACM has
    filled in panics when the certificate has no options; otherwise it
    lists the tags, and that is its last call: it fails exactly when the
    listing does, and the attributes then hold the status and the
    validation method of the certificate. *)
Theorem resourceCertificateRead_filled (d : ResourceData) (log : list call)
    (certificate : CertificateDetail) :
  0 < polls →
  describes (Id d) (IsNewResource d) (length log) certificate →
  needsRetry certificate = false →
  Forall (λ o, Forall is_Some (ValidationEmails o))
    (DomainValidationOptions certificate) →
  (Options certificate = None → resourceCertificateRead d log = None)
  ∧ (is_Some (Options certificate) →
     ∃ err d',
       resourceCertificateRead d log
       = Some (err, (d', log ++ [DescribeCertificateCall (Id d); ListTagsCall (Id d)]))
       ∧ Id d' = Id d
       ∧ planned d' !! "status"%string = Some (pointer (Status certificate))
       ∧ planned d' !! "validation_method"%string
         = Some (Str (certificateValidationMethod certificate))
       ∧ (err = None ↔ (ListTags c (S (length log)) (Id d)).2 = None)
       ∧ (err = None →
          planned d' !! "tags_all"%string
          = Some (tagsMap (IgnoreConfig (IgnoreAWS
                     (ListTags c (S (length log)) (Id d)).1))))).
Proof.
  intros Hpolls Hd Hfilled Hemails. unfold resourceCertificateRead.
  destruct polls as [|n]; [lia|].
  rewrite Retry_S, (readAttempt_describes d log certificate) by done.
  destruct (convertValidationOptions_total goSyntax certificate Hemails)
    as [[[dvo emails] err] Hconv].
  rewrite Hconv. simpl.
  destruct (convertValidationOptions_Some goSyntax certificate _ Hconv)
    as (Hsome & _ & _). simpl in Hsome.
  destruct err as [e|].
  { assert (needsRetry certificate = true) by (apply Hsome; by eexists).
    congruence. }
  split.
  - intros ->. done.
  - intros [co ->]. simpl. rewrite length_app. simpl.
    replace (length log + 1) with (S (length log)) by lia.
    destruct (ListTags c (S (length log)) (Id d)) as [t [e|]]; simpl;
      do 2 eexists; rewrite <- app_assoc;
      (split; [reflexivity|]); unfold described;
      rewrite !Id_Set; planned_lookup; split_and!; done.
Qed.

(** A new resource keeps its identifier through a read. *)
Lemma Retry_readAttempt_new tries :
  ∀ d log last err d' log',
    IsNewResource d = true →
    Retry tries readAttempt (d, log) last = Some (err, (d', log')) →
    Id d' = Id d.
Proof.
  induction tries as [|tries IH]; intros d log last err d' log' Hnew H.
  { simpl in H. by injection H as <- <- <-. }
  rewrite Retry_S in H.
  destruct (readAttempt (d, log)) as [[rerr [d1 log1]]|] eqn:Hattempt;
    [|discriminate].
  assert (Id d1 = Id d ∧ IsNewResource d1 = true) as [Hid Hnew1].
  { unfold readAttempt in Hattempt. rewrite Hnew in Hattempt. simpl in Hattempt.
    destruct (DescribeCertificate c (length log) (Id d)) as [resp [e|]];
      [by injection Hattempt as <- <- <-|].
    destruct (mjoin resp) as [certificate|];
      [|by injection Hattempt as <- <- <-].
    destruct (convertValidationOptions goSyntax certificate)
      as [[[dvo emails] [e|]]|]; simpl in Hattempt;
      [by injection Hattempt as <- <- <- | | discriminate].
    destruct (flattenCertificateOptions (Options certificate)) as [options|];
      simpl in Hattempt; [|discriminate].
    destruct (ListTags c _ _) as [t [e|]]; by injection Hattempt as <- <- <-. }
  destruct rerr as [[e|e]|].
  - apply IH in H; [congruence | done].
  - by injection H as <- <- <-.
  - by injection H as <- <- <-.
Qed.

(** The answer to a creating call when it is the k-th call. *)
Definition answerOf (k : nat) (x : call) : option (option string) * error :=
  match x with
  | RequestCertificateCall input => RequestCertificate c k input
  | ImportCertificateCall input => ImportCertificate c k input
  | _ => (None, None)
  end.

(** The error returned for a creating call that failed with [e]. *)
Definition creationError (d : ResourceData) (x : call) (e : err) : err :=
  match x with
  | RequestCertificateCall _ =>
      Wrapped ("requesting ACM Certificate (" +:+ GetString d "domain_name" +:+ "): ") e
  | _ => Wrapped "importing ACM Certificate: " e
  end.

(** [resourceCertificateCreate] makes no call for a domain name that
    comes with neither a certificate authority nor a validation method.
    Otherwise its first call is the one creating call: a request for the
    domain name when one is set, an import of the body and the key when
    none is.  When that call fails its error is returned, the identifier
    is not set and nothing is read; when it succeeds every later call
    reads the certificate of the ARN it answered. *)
Theorem resourceCertificateCreate_calls (d : ResourceData) (log : list call) :
  let requested := (GetOk d "domain_name").2 in
  let backed := (GetOk d "certificate_authority_arn").2
                || (GetOk d "validation_method").2 in
  (requested = true → backed = false →
   resourceCertificateCreate d log
   = Some (Some (New "`certificate_authority_arn` or `validation_method` must be set when creating an ACM certificate"),
           (d, log)))
  ∧ (∀ err d' log',
       resourceCertificateCreate d log = Some (err, (d', log')) →
       requested = false ∨ backed = true →
       ∃ first rest,
         log' = log ++ first :: rest
         ∧ (if requested
            then ∃ input, first = RequestCertificateCall input
                          ∧ RequestDomainName input = GetString d "domain_name"
                          ∧ IdempotencyToken input = uniqueId
            else ∃ input, first = ImportCertificateCall input
                          ∧ ImportCertificateArn input = None
                          ∧ ImportCertificateBody input
                            = bytesOf (GetString d "certificate_body")
                          ∧ ImportPrivateKey input
                            = bytesOf (GetString d "private_key"))
         ∧ (∀ e, (answerOf (length log) first).2 = Some e →
              rest = [] ∧ d' = d ∧ err = Some (creationError d first e))
         ∧ ((answerOf (length log) first).2 = None →
            ∃ arn, (answerOf (length log) first).1 = Some arn
                   ∧ Forall (readCall (ACM.StringValue arn)) rest
                   ∧ (IsNewResource d = true → Id d' = ACM.StringValue arn))).
Proof.
  intros requested backed. subst requested backed.
  unfold resourceCertificateCreate.
  destruct (GetOk d "domain_name").2 eqn:Hreq.
  - split.
    + intros _ Hb. apply orb_false_elim in Hb as [-> ->]. done.
    + intros err d' log' H [? | Hb]; [done|].
      assert ((negb (GetOk d "certificate_authority_arn").2
               && negb (GetOk d "validation_method").2) = false) as Hguard.
      { apply orb_true_elim in Hb as [-> | ->]; [done | apply andb_false_r]. }
      rewrite Hguard in H.
      destruct (stringWhenSet d "certificate_authority_arn") as [ca|];
        simpl in H; [|discriminate].
      match type of H with
      | (?x ≫= _) = _ => destruct x as [options|]; simpl in H; [|discriminate]
      end.
      match type of H with
      | (?x ≫= _) = _ => destruct x as [sans|]; simpl in H; [|discriminate]
      end.
      destruct (stringWhenSet d "validation_method") as [vm|];
        simpl in H; [|discriminate].
      match type of H with
      | context [RequestCertificate c (length log) ?i] => set (input := i) in *
      end.
      destruct (RequestCertificate c (length log) input) as [output [e|]] eqn:Hanswer.
      * injection H as <- <- <-. exists (RequestCertificateCall input), [].
        simpl. rewrite Hanswer. simpl.
        split_and!; [done | by exists input | by intros ? [= <-] | done].
      * destruct output as [arn|]; simpl in H; [|discriminate].
        unfold resourceCertificateRead in H.
        pose proof (Retry_readAttempt _ _ _ _ _ _ _ H)
          as ((calls & -> & Hcalls) & _ & _).
        exists (RequestCertificateCall input), calls.
        simpl. rewrite Hanswer. simpl.
        split_and!; [by rewrite <- app_assoc | by exists input | done |].
        intros _. exists arn. split_and!; [done | done |].
        intros Hnew. by apply Retry_readAttempt_new in H.
  - split; [done|].
    intros err d' log' H _.
    destruct (stringWhenSet d "certificate_chain") as [chain|];
      simpl in H; [|discriminate].
    match type of H with
    | context [ImportCertificate c (length log) ?i] => set (input := i) in *
    end.
    destruct (ImportCertificate c (length log) input) as [output [e|]] eqn:Hanswer.
    + injection H as <- <- <-. exists (ImportCertificateCall input), [].
      simpl. rewrite Hanswer. simpl.
      split_and!; [done | by exists input | by intros ? [= <-] | done].
    + destruct output as [arn|]; simpl in H; [|discriminate].
      unfold resourceCertificateRead in H.
      pose proof (Retry_readAttempt _ _ _ _ _ _ _ H)
        as ((calls & -> & Hcalls) & _ & _).
      exists (ImportCertificateCall input), calls.
      simpl. rewrite Hanswer. simpl.
      split_and!; [by rewrite <- app_assoc | by exists input | done |].
      intros _. exists arn. split_and!; [done | done |].
      intros Hnew. by apply Retry_readAttempt_new in H.
Qed.

(** The stored value of an attribute is the hash of the value being
    applied: the answer of [isChangeNormalizeCertRemoval] for the change
    of the attribute. *)
Definition normalized (d : ResourceData) (key : string) : bool :=
  bool_decide (ACM.EncodeToString
                 (sha1_Sum (ACM.without_CR
                              (bytesOf (TrimSpace (stringOf (planned d !! key))))))
               = stringOf (prior d !! key)).

Lemma isChangeNormalizeCertRemoval_normalized d key :
  ACM.isChangeNormalizeCertRemoval sha1_Sum TrimSpace
    (GetChangeString d key).1 (GetChangeString d key).2
  = Some (normalized d key).
Proof.
  unfold ACM.isChangeNormalizeCertRemoval, GetChangeString, normalized, bytesOf.
  simpl. by rewrite ACM.stripCR_without_CR.
Qed.

Lemma notAllNormalized_normalized d :
  notAllNormalized d
  = Some (negb (normalized d "certificate_body"
                && normalized d "certificate_chain"
                && normalized d "private_key")).
Proof.
  unfold notAllNormalized.
  pose proof (isChangeNormalizeCertRemoval_normalized d "certificate_body") as Hcb.
  pose proof (isChangeNormalizeCertRemoval_normalized d "certificate_chain") as Hcc.
  pose proof (isChangeNormalizeCertRemoval_normalized d "private_key") as Hpk.
  unfold GetChangeString in *. simpl in Hcb, Hcc, Hpk.
  rewrite Hcb. simpl. destruct (normalized d "certificate_body"); [|done]. simpl.
  rewrite Hcc. simpl. destruct (normalized d "certificate_chain"); [|done]. simpl.
  rewrite Hpk. done.
Qed.

Lemma EncodeToString_length (src : bytes) :
  String.length (ACM.EncodeToString src) = 2 * length src.
Proof.
  unfold ACM.EncodeToString.
  assert (∀ l, String.length (string_of_list_ascii l) = length l) as ->.
  { induction l as [|a l IH]; simpl; [done | by rewrite IH]. }
  induction src as [|a src IH]; simpl; [done | rewrite IH; lia].
Qed.

(** Whether the update imports the certificate again. *)
Definition reimports (d : ResourceData) : bool :=
  HasChanges d ["private_key"; "certificate_body"; "certificate_chain"]%string
  && negb (normalized d "certificate_body"
           && normalized d "certificate_chain"
           && normalized d "private_key").

(** The end of the update: the tags, then the read. *)
Lemma update_tags_read d log err d' log' :
  (let '(err, log) :=
     if HasChange d "tags_all" then
       let '(o, n) := GetChange d "tags_all" in
       (UpdateTags c (length log) (Id d) o n, log ++ [UpdateTagsCall (Id d) o n])
     else (None, log) in
   match err with
   | Some e => Some (Some (New ("error updating tags: " +:+ Error e)), (d, log))
   | None => resourceCertificateRead d log
   end) = Some (err, (d', log')) →
  ∃ tagging reading,
    log' = log ++ tagging ++ reading
    ∧ (tagging = []
       ∨ (HasChange d "tags_all" = true
          ∧ tagging = [UpdateTagsCall (Id d) (GetChange d "tags_all").1
                         (GetChange d "tags_all").2]
          ∧ ∀ e, UpdateTags c (length log) (Id d)
                   (GetChange d "tags_all").1 (GetChange d "tags_all").2 = Some e →
                 reading = [] ∧ d' = d
                 ∧ err = Some (New ("error updating tags: " +:+ Error e))))
    ∧ (HasChange d "tags_all" = false → tagging = [])
    ∧ Forall (readCall (Id d)) reading.
Proof.
  intros H. destruct (HasChange d "tags_all") eqn:Htags.
  - destruct (GetChange d "tags_all") as [o n]. simpl.
    destruct (UpdateTags c (length log) (Id d) o n) as [e|] eqn:Hupdate.
    { injection H as <- <- <-. exists [UpdateTagsCall (Id d) o n], [].
      split_and!; [done | | done | done].
      right. split_and!; [done | done |]. by intros ? [= <-]. }
    unfold resourceCertificateRead in H.
    pose proof (Retry_readAttempt _ _ _ _ _ _ _ H)
      as ((calls & -> & Hcalls) & _ & _).
    exists [UpdateTagsCall (Id d) o n], calls.
    split_and!; [by rewrite <- !app_assoc | | done | done].
    right. split_and!; done.
  - unfold resourceCertificateRead in H.
    pose proof (Retry_readAttempt _ _ _ _ _ _ _ H)
      as ((calls & -> & Hcalls) & _ & _).
    exists [], calls. split_and!; [done | by left | done | done].
Qed.

(** The calls of [resourceCertificateUpdate] are, in this order: one
    import, made exactly when one of the body, the chain and the key
    changed and not every one of the three stored values is the hash of
    its new value; one update of the tags, made only when the tags
    changed; the calls of the read.  A failed import ends the update
    before the tags and the read, a failed update of the tags before the
    read, both with the resource data as they were. *)
Theorem resourceCertificateUpdate_calls (d : ResourceData) (log : list call)
    (err : error) (d' : ResourceData) (log' : list call) :
  resourceCertificateUpdate d log = Some (err, (d', log')) →
  ∃ imports tagging reading,
    log' = log ++ imports ++ tagging ++ reading
    ∧ (if reimports d
       then ∃ input,
              imports = [ImportCertificateCall input]
              ∧ ImportCertificateArn input = Some (GetString d "arn")
              ∧ ImportCertificateBody input = bytesOf (GetString d "certificate_body")
              ∧ ImportPrivateKey input = bytesOf (GetString d "private_key")
              ∧ ∀ e, (ImportCertificate c (length log) input).2 = Some e →
                  tagging = [] ∧ reading = [] ∧ d' = d
                  ∧ err = Some (Wrapped ("error re-importing ACM Certificate ("
                                          +:+ Id d +:+ "): ") e)
       else imports = [])
    ∧ (tagging = []
       ∨ (HasChange d "tags_all" = true
          ∧ tagging = [UpdateTagsCall (Id d) (GetChange d "tags_all").1
                         (GetChange d "tags_all").2]
          ∧ ∀ e, UpdateTags c (length (log ++ imports)) (Id d)
                   (GetChange d "tags_all").1 (GetChange d "tags_all").2 = Some e →
                 reading = [] ∧ d' = d
                 ∧ err = Some (New ("error updating tags: " +:+ Error e))))
    ∧ (HasChange d "tags_all" = false → tagging = [])
    ∧ Forall (readCall (Id d)) reading.
Proof.
  unfold resourceCertificateUpdate, reimports. intros H.
  rewrite notAllNormalized_normalized in H.
  set (allNormalized := normalized d "certificate_body"
                        && normalized d "certificate_chain"
                        && normalized d "private_key") in *.
  assert (∀ log1 : list call,
            log1 = log →
            (let '(err, log) :=
               if HasChange d "tags_all" then
                 let '(o, n) := GetChange d "tags_all" in
                 (UpdateTags c (length log1) (Id d) o n,
                  log1 ++ [UpdateTagsCall (Id d) o n])
               else (None, log1) in
             match err with
             | Some e => Some (Some (New ("error updating tags: " +:+ Error e)), (d, log))
             | None => resourceCertificateRead d log
             end) = Some (err, (d', log')) →
            ∃ imports tagging reading,
              log' = log ++ imports ++ tagging ++ reading
              ∧ imports = []
              ∧ (tagging = []
                 ∨ (HasChange d "tags_all" = true
                    ∧ tagging = [UpdateTagsCall (Id d) (GetChange d "tags_all").1
                                   (GetChange d "tags_all").2]
                    ∧ ∀ e, UpdateTags c (length (log ++ imports)) (Id d)
                             (GetChange d "tags_all").1 (GetChange d "tags_all").2
                           = Some e →
                           reading = [] ∧ d' = d
                           ∧ err = Some (New ("error updating tags: " +:+ Error e))))
              ∧ (HasChange d "tags_all" = false → tagging = [])
              ∧ Forall (readCall (Id d)) reading) as Hskip.
  { intros log1 -> Htail.
    apply update_tags_read in Htail as (tagging & reading & -> & Htag & Hno & Hread).
    exists [], tagging, reading. rewrite app_nil_r. done. }
  destruct (HasChanges d _); simpl in H;
    [destruct allNormalized; simpl in H|];
    [ by apply Hskip in H | | by apply Hskip in H ].
  destruct (stringWhenSet d "certificate_chain") as [chain|];
    simpl in H; [|discriminate].
  match type of H with
  | context [ImportCertificate c (length log) ?i] => set (input := i) in *
  end.
  destruct (ImportCertificate c (length log) input) as [output [e|]] eqn:Hanswer;
    simpl in H.
  { injection H as <- <- <-. exists [ImportCertificateCall input], [], [].
    split_and!; [done | | by left | done | done].
    simpl. exists input. split_and!; try done.
    intros e0 He0. rewrite Hanswer in He0. injection He0 as <-. done. }
  apply update_tags_read in H as (tagging & reading & -> & Htag & Hno & Hread).
  exists [ImportCertificateCall input], tagging, reading.
  split_and!; [by rewrite <- !app_assoc | | done | done | done].
  simpl. exists input. split_and!; try done.
  intros e0 He0. rewrite Hanswer in He0. discriminate.
Qed.

(** With a SHA-1 digest of twenty bytes, a stored body, chain or key that
    is not forty characters long is no hash: when one of the three
    attributes changed, the update then starts with the import. *)
Theorem resourceCertificateUpdate_reimports (d : ResourceData) (log : list call)
    (err : error) (d' : ResourceData) (log' : list call) (key : string) :
  (∀ b, length (sha1_Sum b) = 20) →
  HasChanges d ["private_key"; "certificate_body"; "certificate_chain"]%string = true →
  key ∈ ["certificate_body"; "certificate_chain"; "private_key"]%string →
  String.length (stringOf (prior d !! key)) ≠ 40 →
  resourceCertificateUpdate d log = Some (err, (d', log')) →
  ∃ input rest,
    log' = log ++ ImportCertificateCall input :: rest
    ∧ ImportCertificateArn input = Some (GetString d "arn").
Proof.
  intros Hsha Hchanged Hkey Hlen H.
  assert (normalized d key = false) as Hn.
  { apply bool_decide_eq_false. intros Heq. apply Hlen. rewrite <- Heq.
    by rewrite EncodeToString_length, Hsha. }
  assert (reimports d = true) as Hre.
  { unfold reimports. rewrite Hchanged. simpl. apply negb_true_iff.
    repeat (apply elem_of_cons in Hkey as [-> | Hkey]);
      [| | | by apply elem_of_nil in Hkey]; rewrite Hn;
      [done | by rewrite andb_false_r | by rewrite andb_false_r]. }
  unfold resourceCertificateUpdate in H.
  rewrite notAllNormalized_normalized, Hchanged in H.
  unfold reimports in Hre. rewrite Hchanged in Hre. simpl in Hre. rewrite Hre in H.
  simpl in H.
  destruct (stringWhenSet d "certificate_chain") as [chain|];
    simpl in H; [|discriminate].
  match type of H with
  | context [ImportCertificate c (length log) ?i] => set (input := i) in *
  end.
  destruct (ImportCertificate c (length log) input) as [output [e|]]; simpl in H.
  { injection H as <- <- <-. by exists input, []. }
  apply update_tags_read in H as (tagging & reading & -> & _).
  exists input, (tagging ++ reading). by rewrite <- !app_assoc.
Qed.

End Lifecycle.

(** *** Sample runs *)

Definition sampleArn : string := "arn:aws:acm:us-east-1:123456789012:certificate/1".

(** A timeout that leaves room for three calls. *)
Definition threeCalls (_ : ACM.Duration) : nat := 3.

(** A digest of twenty bytes. *)
Definition zeroDigest (_ : bytes) : bytes := replicate 20 Ascii.zero.

(** A certificate that ACM has requested and not filled in yet. *)
Definition pendingCertificate : CertificateDetail :=
  {| CertificateArn := Some sampleArn;
     CertificateAuthorityArn := None;
     CertificateDomainName := Some "example.com"%string;
     Type_ := Some CertificateTypeAmazonIssued;
     Status := Some DomainStatusPendingValidation;
     DomainValidationOptions := [];
     SubjectAlternativeNames := [Some "example.com"%string];
     Options := Some {| CertificateTransparencyLoggingPreference :=
                          Some "ENABLED"%string |} |}.

(** The connection that answers every description with [certificate] and
    refuses requests and imports. *)
Definition describing (certificate : CertificateDetail) : conn :=
  {| RequestCertificate := λ _ _, (None, Some (AwsError "AccessDeniedException" "no"));
     ImportCertificate := λ _ _, (None, Some (AwsError "AccessDeniedException" "no"));
     DescribeCertificate := λ _ _, (Some (Some certificate), None);
     ListTags := λ _ _, ([("Name"%string, "web"%string)], None);
     UpdateTags := λ _ _ _ _, None |}.

(** The connection of an account in which the certificate is gone. *)
Definition lost : conn :=
  {| RequestCertificate := λ _ _, (Some (Some sampleArn), None);
     ImportCertificate := λ _ _, (Some (Some sampleArn), None);
     DescribeCertificate := λ _ _,
       (None, Some (AwsError ACM.ErrCodeResourceNotFoundException "gone"));
     ListTags := λ _ _, ([], None);
     UpdateTags := λ _ _ _ _, None |}.

(** A certificate in the state, and one whose private key is replaced. *)
Definition kept : ResourceData :=
  {| Id := sampleArn; IsNewResource := false; prior := ∅; planned := ∅ |}.

Definition rotated : ResourceData :=
  {| Id := sampleArn; IsNewResource := false;
     prior := {[ "private_key"%string := Str "old key" ]};
     planned := {[ "private_key"%string := Str "new key";
                   "arn"%string := Str sampleArn ]} |}.

Lemma resourceCertificateRead_gone_witness :
  resourceCertificateRead threeCalls (λ _, ""%string) id id id lost kept []
  = Some (None, (SetId "" kept, [DescribeCertificateCall sampleArn])).
Proof.
  destruct (resourceCertificateRead_gone threeCalls (λ _, ""%string) id id id
              lost kept []) as (H & _ & _).
  - vm_compute. lia.
  - apply H; [reflexivity | left; reflexivity].
Defined.

Lemma resourceCertificateRead_pending_witness :
  ∃ e d',
    resourceCertificateRead threeCalls (λ _, ""%string) id id id
      (describing pendingCertificate) kept []
    = Some (Some e, (d', replicate 3 (DescribeCertificateCall sampleArn)))
    ∧ Id d' = sampleArn.
Proof.
  destruct (resourceCertificateRead_pending threeCalls (λ _, ""%string) id id id
              (describing pendingCertificate) kept [])
    as (e & d' & H & Hid & _).
  - vm_compute. lia.
  - intros j _. exists pendingCertificate. split_and!.
    + split; [reflexivity | right; discriminate].
    + reflexivity.
    + constructor.
  - exists e, d'. split; [exact H | exact Hid].
Defined.

Lemma resourceCertificateRead_filled_witness :
  resourceCertificateRead threeCalls (λ _, ""%string) id id id
    (describing issuedCert) kept [] = None.
Proof.
  destruct (resourceCertificateRead_filled threeCalls (λ _, ""%string) id id id
              (describing issuedCert) kept [] issuedCert) as (H & _).
  - vm_compute. lia.
  - split; [reflexivity | right; discriminate].
  - reflexivity.
  - repeat (constructor; try (by eexists)).
  - apply H. reflexivity.
Defined.

(** A read of a certificate that ACM has issued. *)
Example resourceCertificateRead_issued :
  let certificate :=
    {| CertificateArn := Some sampleArn;
       CertificateAuthorityArn := None;
       CertificateDomainName := Some "example.com"%string;
       Type_ := Some CertificateTypeAmazonIssued;
       Status := Some "ISSUED"%string;
       DomainValidationOptions := DomainValidationOptions issuedCert;
       SubjectAlternativeNames := [Some "example.com"%string];
       Options := Options pendingCertificate |} in
  ∃ d', resourceCertificateRead threeCalls (λ _, ""%string) id id id
          (describing certificate) kept []
        = Some (None, (d', [DescribeCertificateCall sampleArn; ListTagsCall sampleArn]))
        ∧ planned d' !! "validation_method"%string = Some (Str "EMAIL")
        ∧ planned d' !! "validation_emails"%string
          = Some (List [Str "admin@example.org"])
        ∧ planned d' !! "tags_all"%string = Some (Map [("Name"%string, Str "web")]).
Proof.
  eexists. split; [reflexivity|]. unfold described. by planned_lookup.
Qed.

(** A domain name with neither a certificate authority nor a validation
    method: no call is made. *)
Example resourceCertificateCreate_unbacked :
  let d := {| Id := ""; IsNewResource := true; prior := ∅;
              planned := {[ "domain_name"%string := Str "example.com" ]} |} in
  resourceCertificateCreate threeCalls (λ _, ""%string) (λ _, []) id id id "tf-1"
    lost d []
  = Some (Some (New "`certificate_authority_arn` or `validation_method` must be set when creating an ACM certificate"),
          (d, [])).
Proof. reflexivity. Qed.

Lemma resourceCertificateUpdate_calls_witness :
  let input :=
    {| ImportCertificateBody := [];
       ImportCertificateArn := Some sampleArn;
       ImportPrivateKey := bytesOf "new key";
       ImportCertificateChain := None;
       ImportTags := None |} in
  resourceCertificateUpdate threeCalls (λ _, ""%string) id id id zeroDigest id
    (describing pendingCertificate) rotated []
  = Some (Some (Wrapped ("error re-importing ACM Certificate (" +:+ sampleArn +:+ "): ")
                  (AwsError "AccessDeniedException" "no")),
          (rotated, [ImportCertificateCall input]))
  ∧ ∃ imports tagging reading,
      [ImportCertificateCall input] = [] ++ imports ++ tagging ++ reading
      ∧ Forall (readCall sampleArn) reading.
Proof.
  intros input.
  assert (resourceCertificateUpdate threeCalls (λ _, ""%string) id id id zeroDigest id
            (describing pendingCertificate) rotated []
          = Some (Some (Wrapped ("error re-importing ACM Certificate ("
                                  +:+ sampleArn +:+ "): ")
                          (AwsError "AccessDeniedException" "no")),
                  (rotated, [ImportCertificateCall input]))) as H
    by (vm_compute; reflexivity).
  split; [exact H|].
  destruct (resourceCertificateUpdate_calls _ _ _ _ _ _ _ _ _ _ _ _ _ H)
    as (imports & tagging & reading & Hlog & _ & _ & _ & Hread).
  exists imports, tagging, reading. split; [exact Hlog | exact Hread].
Defined.

Lemma resourceCertificateUpdate_reimports_witness :
  ∃ input rest,
    [ImportCertificateCall
       {| ImportCertificateBody := [];
          ImportCertificateArn := Some sampleArn;
          ImportPrivateKey := bytesOf "new key";
          ImportCertificateChain := None;
          ImportTags := None |}]
    = [] ++ ImportCertificateCall input :: rest
    ∧ ImportCertificateArn input = Some sampleArn.
Proof.
  apply (resourceCertificateUpdate_reimports threeCalls (λ _, ""%string) id id id
           zeroDigest id (describing pendingCertificate) rotated []
           (Some (Wrapped ("error re-importing ACM Certificate (" +:+ sampleArn +:+ "): ")
                    (AwsError "AccessDeniedException" "no")))
           rotated _ "private_key").
  - intros b. reflexivity.
  - vm_compute. reflexivity.
  - repeat constructor.
  - vm_compute. lia.
  - vm_compute. reflexivity.
Defined.

End CertificateLifecycle.

(** ** ACM certificate: the finder by ARN and the carriage-return filter *)

Module CertificateFinder.

Import ACM.

(** The error of [FindCertificateByARN]: the error of [findCertificate]
    as it is, or the [resource.NotFoundError] that the function builds
    itself, with a message and no last error. *)
Inductive finderError :=
| FromFind (e : err)
| NotFoundMessage (message : string).

(** [tfresource.NotFound] on such an error. *)
Definition finderNotFound (e : option finderError) : bool :=
  match e with
  | Some (FromFind e) => notFound e
  | Some (NotFoundMessage _) => true
  | None => false
  end.

(** *** FindCertificateByARN

    [output.Status] on a [nil] output panics: [None]. *)
Definition FindCertificateByARN (c : conn) (k : nat) (arn : string)
  : option (option CertificateDetail * option finderError) :=
  let '(output, err) := findCertificate c k arn in
  match err with
  | Some e => Some (None, Some (FromFind e))
  | None =>
      output ← output;
      let status := StringValue (Status output) in
      if bool_decide (status = CertificateStatusValidationTimedOut)
      then Some (None, Some (NotFoundMessage status))
      else Some (Some output, None)
  end.

(** [findCertificate] returns a certificate or an error, never both and
    never neither. *)
Lemma findCertificate_result c k arn :
  (∃ cert, findCertificate c k arn = (Some cert, None))
  ∨ (∃ e, findCertificate c k arn = (None, Some e)).
Proof.
  unfold findCertificate. destruct (DescribeCertificate c k arn) as [output err].
  destruct (ErrCodeEquals err _); [right; by eexists|].
  destruct err as [e|]; [right; by eexists|].
  destruct output as [[[cert|]]|]; [left | right | right]; by eexists.
Qed.

(** The cases of the statement below, once the answer is known. *)
Ltac finder_case :=
  repeat match goal with
         | |- _ ∧ _ => split
         | |- _ ↔ _ => split
         | |- _ → _ => intro
         | |- ∀ _, _ => intro
         | H : is_Some None |- _ => destruct H as [? H]; discriminate H
         | H : ∃ _, _ |- _ => destruct H
         | H : _ ∧ _ |- _ => destruct H
         | H : _ ∨ _ |- _ => destruct H
         | H : (_, _) = (_, _) |- _ => injection H as ??
         | H : Some _ = Some _ |- _ => injection H as ?
         end;
  simplify_eq/=; try done; try congruence; eauto.

(** [FindCertificateByARN] never dereferences a nil certificate.  It
    returns a certificate or an error, never both; the certificate is the
    one described when the description succeeded with a certificate whose
    status is not VALIDATION_TIMED_OUT.  Where [statusCertificate] reports
    the status VALIDATION_TIMED_OUT, it reports a not-found error with
    that message, and its error is a not-found one exactly when
    [statusCertificate] reports that status or no certificate and no
    error. *)
Theorem FindCertificateByARN_not_found (c : conn) (k : nat) (arn : string) :
  ∃ r, FindCertificateByARN c k arn = Some r
    ∧ (is_Some r.1 ↔ r.2 = None)
    ∧ (∀ cert, r.1 = Some cert
               ↔ (∃ out, DescribeCertificate c k arn = (Some out, None)
                         ∧ Certificate out = Some cert)
                 ∧ Status cert ≠ Some CertificateStatusValidationTimedOut)
    ∧ (r.2 = Some (NotFoundMessage CertificateStatusValidationTimedOut)
       ↔ (statusCertificate c arn k).1.2 = CertificateStatusValidationTimedOut)
    ∧ (finderNotFound r.2 = true
       ↔ (statusCertificate c arn k).1.2 = CertificateStatusValidationTimedOut
         ∨ ((statusCertificate c arn k).1.1 = None
            ∧ (statusCertificate c arn k).2 = None)).
Proof.
  unfold FindCertificateByARN, statusCertificate, findCertificate.
  destruct (DescribeCertificate c k arn) as [output err].
  destruct (ErrCodeEquals err ErrCodeResourceNotFoundException) eqn:Hcode.
  { destruct err as [e|]; [|discriminate]. simpl.
    eexists. split; [reflexivity|]. simpl. finder_case. }
  destruct err as [e|].
  { simpl. eexists. split; [reflexivity|]. simpl.
    destruct (notFound e) eqn:Hnf; simpl; finder_case. }
  destruct output as [[[cert|]]|]; simpl.
  - assert (StringValue (Status cert) = CertificateStatusValidationTimedOut
            ↔ Status cert = Some CertificateStatusValidationTimedOut) as Hst.
    { by apply CertificateValues.StringValue_eq. }
    case_bool_decide as Hto; eexists; (split; [reflexivity|]); simpl.
    + pose proof (proj1 Hst Hto). finder_case.
    + assert (Status cert ≠ Some CertificateStatusValidationTimedOut)
        by (by rewrite <- Hst).
      finder_case.
  - eexists. split; [reflexivity|]. simpl. finder_case.
  - eexists. split; [reflexivity|]. simpl. finder_case.
Qed.

(** [stripCR] returns for every input: its result holds no carriage
    return and is not longer than the input; stripping again changes
    nothing, an input without carriage returns comes back as it is, and
    the result for two inputs in a row is the two results in a row. *)
Theorem stripCR_idempotent (b b' : bytes) :
  ∃ s s',
    stripCR b = Some s ∧ stripCR b' = Some s'
    ∧ stripCR s = Some s
    ∧ (CR ∉ s)
    ∧ (length s ≤ length b)
    ∧ (CR ∉ b → s = b)
    ∧ stripCR (b ++ b') = Some (s ++ s')
    ∧ sublist s b.
Proof.
  exists (without_CR b), (without_CR b'). rewrite !stripCR_without_CR.
  unfold without_CR.
  assert (Hkeep : ∀ l : bytes, CR ∉ l → filter (λ ch, ch ≠ CR) l = l).
  { induction l as [|ch l IH]; intros Hno; [done|].
    rewrite (filter_cons_True (λ ch, ch ≠ CR)).
    - f_equal. apply IH. intros Hin. apply Hno. by right.
    - intros ->. apply Hno. by left. }
  assert (Hnone : CR ∉ filter (λ ch, ch ≠ CR) b)
    by (by intros [? _]%list_elem_of_filter).
  split_and!.
  - done.
  - done.
  - f_equal. by apply Hkeep.
  - exact Hnone.
  - apply length_filter.
  - apply Hkeep.
  - by rewrite (filter_app (λ ch, ch ≠ CR)).
  - apply sublist_filter.
Qed.

End CertificateFinder.

(** ** WAF acceptance tests: the existence and destruction checks *)

Module WAFChecks.

(** [terraform.ResourceState]: the resource type and the identifier of
    the primary instance. *)
Record ResourceState := { Type_ : string; PrimaryID : string }.

(** [s.RootModule().Resources], a Go map from resource names to states.
    A [range] over it visits the entries in an order of its own; the list
    holds them in the order of that visit. *)
Definition Resources := list (string * ResourceState).

(** [rs, ok := Resources[n]]. *)
Fixpoint lookupResource (s : Resources) (n : string) : option ResourceState :=
  match s with
  | [] => None
  | (name, rs) :: rest =>
      if bool_decide (name = n) then Some rs else lookupResource rest n
  end.

Record RegexMatchSet := {
  RegexMatchSetId : option string;
  MatchSetName : option string
}.

Record GetRegexMatchSetOutput := { RegexMatchSet_ : option RegexMatchSet }.

Record RegexPatternSet := {
  RegexPatternSetId : option string;
  RegexPatternStrings : list string
}.

Record GetRegexPatternSetOutput := { RegexPatternSet_ : option RegexPatternSet }.

(** [errs.IsA[*awstypes.WAFNonexistentItemException](err)]: some error of
    the chain is that exception; the exceptions of the API are told apart
    by their code. *)
Definition IsNonexistentItem (e : error) : bool :=
  ErrCodeEquals e "WAFNonexistentItemException".

Section Checks.

(** The answers of the WAF client for an identifier; a [nil] output is
    [None]. *)
Variable GetRegexMatchSet : string → option GetRegexMatchSetOutput * error.
Variable GetRegexPatternSet : string → option GetRegexPatternSetOutput * error.

(** [*resp.RegexMatchSet.RegexMatchSetId]: each of the three pointers
    panics when [nil]. *)
Definition matchSetId (resp : option GetRegexMatchSetOutput) : Tf.mayPanic string :=
  resp ← resp; set ← RegexMatchSet_ resp; RegexMatchSetId set.

Definition patternSetId (resp : option GetRegexPatternSetOutput) : Tf.mayPanic string :=
  resp ← resp; set ← RegexPatternSet_ resp; RegexPatternSetId set.

(** *** testAccCheckRegexMatchSetExists

    The result is the error and what the check stores in [*v], [None]
    when it stores nothing. *)
Definition testAccCheckRegexMatchSetExists (n : string) (s : Resources)
  : Tf.mayPanic (error * option RegexMatchSet) :=
  match lookupResource s n with
  | None => Some (Some (New ("Not found: " +:+ n)), None)
  | Some rs =>
      if bool_decide (PrimaryID rs = ""%string)
      then Some (Some (New "No WAF Regex Match Set ID is set"), None)
      else
        let '(resp, err) := GetRegexMatchSet (PrimaryID rs) in
        match err with
        | Some e => Some (Some e, None)
        | None =>
            id ← matchSetId resp;
            if bool_decide (id = PrimaryID rs)
            then Some (None, resp ≫= RegexMatchSet_)
            else Some (Some (New ("WAF Regex Match Set (" +:+ PrimaryID rs
                                  +:+ ") not found")), None)
        end
  end.

(** *** testAccCheckRegexMatchSetDestroy

    The result is the error and the identifiers looked up. *)
Fixpoint testAccCheckRegexMatchSetDestroy (s : Resources)
  : Tf.mayPanic (error * list string) :=
  match s with
  | [] => Some (None, [])
  | (_, rs) :: rest =>
      if bool_decide (Type_ rs ≠ "aws_waf_regex_match_set"%string)
      then testAccCheckRegexMatchSetDestroy rest
      else
        let '(resp, err) := GetRegexMatchSet (PrimaryID rs) in
        stillExists ←
          match err with
          | None => id ← matchSetId resp; Some (bool_decide (id = PrimaryID rs))
          | Some _ => Some false
          end;
        if stillExists : bool
        then Some (Some (New ("WAF Regex Match Set " +:+ PrimaryID rs
                              +:+ " still exists")), [PrimaryID rs])
        else if IsNonexistentItem err
        then Some (None, [PrimaryID rs])
        else Some (err, [PrimaryID rs])
  end.

(** *** testAccCheckRegexPatternSetExists *)
Definition testAccCheckRegexPatternSetExists (n : string) (s : Resources)
  : Tf.mayPanic (error * option RegexPatternSet) :=
  match lookupResource s n with
  | None => Some (Some (New ("Not found: " +:+ n)), None)
  | Some rs =>
      if bool_decide (PrimaryID rs = ""%string)
      then Some (Some (New "No WAF Regex Pattern Set ID is set"), None)
      else
        let '(resp, err) := GetRegexPatternSet (PrimaryID rs) in
        match err with
        | Some e => Some (Some e, None)
        | None =>
            id ← patternSetId resp;
            if bool_decide (id = PrimaryID rs)
            then Some (None, resp ≫= RegexPatternSet_)
            else Some (Some (New ("WAF Regex Pattern Set (" +:+ PrimaryID rs
                                  +:+ ") not found")), None)
        end
  end.

(** *** testAccCheckRegexPatternSetDestroy *)
Fixpoint testAccCheckRegexPatternSetDestroy (s : Resources)
  : Tf.mayPanic (error * list string) :=
  match s with
  | [] => Some (None, [])
  | (_, rs) :: rest =>
      if bool_decide (Type_ rs ≠ "aws_waf_regex_pattern_set"%string)
      then testAccCheckRegexPatternSetDestroy rest
      else
        let '(resp, err) := GetRegexPatternSet (PrimaryID rs) in
        stillExists ←
          match err with
          | None => id ← patternSetId resp; Some (bool_decide (id = PrimaryID rs))
          | Some _ => Some false
          end;
        if stillExists : bool
        then Some (Some (New ("WAF Regex Pattern Set " +:+ PrimaryID rs
                              +:+ " still exists")), [PrimaryID rs])
        else if IsNonexistentItem err
        then Some (None, [PrimaryID rs])
        else Some (err, [PrimaryID rs])
  end.

(** The resources of [s] that are not of type [ty]. *)
Definition others (ty : string) (s : Resources) : Prop :=
  Forall (λ entry, Type_ entry.2 ≠ ty) s.

Lemma testAccCheckRegexMatchSetDestroy_skip (pre tail : Resources) :
  others "aws_waf_regex_match_set" pre →
  testAccCheckRegexMatchSetDestroy (pre ++ tail)
  = testAccCheckRegexMatchSetDestroy tail.
Proof.
  intros Hpre. induction Hpre as [|[name x] pre Hx _ IH]; [done|].
  simpl. by rewrite bool_decide_true.
Qed.

Lemma testAccCheckRegexPatternSetDestroy_skip (pre tail : Resources) :
  others "aws_waf_regex_pattern_set" pre →
  testAccCheckRegexPatternSetDestroy (pre ++ tail)
  = testAccCheckRegexPatternSetDestroy tail.
Proof.
  intros Hpre. induction Hpre as [|[name x] pre Hx _ IH]; [done|].
  simpl. by rewrite bool_decide_true.
Qed.

(** What it is for a destruction check to look at the first resource of
    its type only: the resources before it are skipped, those after it
    do not matter, and without one of the type the check passes without
    a call.  For that first resource the check passes exactly when the
    answer is the nonexistent-item error, or is no error with a set of
    another identifier. *)
Definition checksFirst {O : Type}
    (destroy : Resources → Tf.mayPanic (error * list string)) (ty : string)
    (answer : string → option O * error) (idOf : option O → Tf.mayPanic string)
  : Prop :=
  ∀ (pre post : Resources) (n : string) (rs : ResourceState),
    others ty pre → Type_ rs = ty →
    destroy pre = Some (None, [])
    ∧ destroy (pre ++ (n, rs) :: post) = destroy [(n, rs)]
    ∧ (∀ err ids, destroy [(n, rs)] = Some (err, ids) → ids = [PrimaryID rs])
    ∧ (destroy [(n, rs)] = Some (None, [PrimaryID rs])
       ↔ IsNonexistentItem (answer (PrimaryID rs)).2 = true
         ∨ ((answer (PrimaryID rs)).2 = None
            ∧ ∃ id, idOf (answer (PrimaryID rs)).1 = Some id
                    ∧ id ≠ PrimaryID rs)).

(** The cases of one resource of the type, once the answer is known. *)
Ltac destroy_cases e idOf resp :=
  simpl; rewrite bool_decide_false by (by intros ?);
  match goal with
  | |- context [let '(_, _) := ?answer in _] =>
      destruct answer as [resp [e|]]; simpl
  end;
  [ destruct (errCodeEquals e _)
  | destruct (idOf resp) as [?id|]; simpl; [case_bool_decide|] ].

(** Both destruction checks, of the match sets and of the pattern sets,
    look at the first resource of their type only. *)
Theorem testAccCheckDestroy_first :
  checksFirst testAccCheckRegexMatchSetDestroy "aws_waf_regex_match_set"
    GetRegexMatchSet matchSetId
  ∧ checksFirst testAccCheckRegexPatternSetDestroy "aws_waf_regex_pattern_set"
      GetRegexPatternSet patternSetId.
Proof.
  split; intros pre post n rs Hpre Hty.
  - pose proof (λ tail, testAccCheckRegexMatchSetDestroy_skip pre tail Hpre) as Hskip.
    split_and!.
    + rewrite <- (app_nil_r pre) at 1. by rewrite Hskip.
    + rewrite Hskip. simpl. by rewrite bool_decide_false by (by intros ?).
    + intros err ids. destroy_cases e matchSetId resp; intros ?; by simplify_eq.
    + destroy_cases e matchSetId resp; split; try done.
      * by left.
      * by intros [? | [? _]].
      * intros [? | (_ & id' & ? & Hne)]; [done|]. by simplify_eq.
      * intros _. right. split; [done|]. by eexists.
      * by intros [? | (_ & id' & ? & _)].
  - pose proof (λ tail, testAccCheckRegexPatternSetDestroy_skip pre tail Hpre) as Hskip.
    split_and!.
    + rewrite <- (app_nil_r pre) at 1. by rewrite Hskip.
    + rewrite Hskip. simpl. by rewrite bool_decide_false by (by intros ?).
    + intros err ids. destroy_cases e patternSetId resp; intros ?; by simplify_eq.
    + destroy_cases e patternSetId resp; split; try done.
      * by left.
      * by intros [? | [? _]].
      * intros [? | (_ & id' & ? & Hne)]; [done|]. by simplify_eq.
      * intros _. right. split; [done|]. by eexists.
      * by intros [? | (_ & id' & ? & _)].
Qed.

(** A match set that the existence check has just found fails the
    destruction check, against the same answers of the API, when it is
    the first resource of its type in the order of the visit; the
    existence check has stored the set that the API returned. *)
Theorem testAccCheckRegexMatchSetExists_then_Destroy
    (pre post : Resources) (n : string) (rs : ResourceState)
    (v : option RegexMatchSet) :
  others "aws_waf_regex_match_set" pre →
  Type_ rs = "aws_waf_regex_match_set"%string →
  lookupResource (pre ++ (n, rs) :: post) n = Some rs →
  testAccCheckRegexMatchSetExists n (pre ++ (n, rs) :: post) = Some (None, v) →
  testAccCheckRegexMatchSetDestroy (pre ++ (n, rs) :: post)
  = Some (Some (New ("WAF Regex Match Set " +:+ PrimaryID rs +:+ " still exists")),
          [PrimaryID rs])
  ∧ PrimaryID rs ≠ ""%string
  ∧ ∃ set, v = Some set ∧ RegexMatchSetId set = Some (PrimaryID rs).
Proof.
  intros Hpre Hty Hlookup Hexists.
  pose proof (λ tail, testAccCheckRegexMatchSetDestroy_skip pre tail Hpre) as Hskip.
  unfold testAccCheckRegexMatchSetExists in Hexists. rewrite Hlookup in Hexists.
  rewrite Hskip. simpl. rewrite bool_decide_false by (by intros ?).
  case_bool_decide as Hid; [discriminate|].
  destruct (GetRegexMatchSet (PrimaryID rs)) as [resp [e|]]; [discriminate|].
  destruct (matchSetId resp) as [id|] eqn:Hset; simpl in *; [|discriminate].
  case_bool_decide as Hsame; [|discriminate]. injection Hexists as <-.
  split_and!; [done | done |].
  unfold matchSetId in Hset. destruct resp as [[[set|]]|]; try discriminate.
  simpl in *. exists set. by rewrite Hset, Hsame.
Qed.

End Checks.

(** Two match sets in the state: the first is destroyed, the second is
    still there. *)
Definition twoSets : Resources :=
  [("aws_waf_regex_pattern_set.test"%string,
    {| Type_ := "aws_waf_regex_pattern_set"; PrimaryID := "p-1" |});
   ("aws_waf_regex_match_set.a"%string,
    {| Type_ := "aws_waf_regex_match_set"; PrimaryID := "m-1" |});
   ("aws_waf_regex_match_set.b"%string,
    {| Type_ := "aws_waf_regex_match_set"; PrimaryID := "m-2" |})].

(** The API in which only the set [id] exists. *)
Definition onlyMatchSet (id : string) (asked : string)
  : option GetRegexMatchSetOutput * error :=
  if bool_decide (asked = id)
  then (Some {| RegexMatchSet_ :=
                  Some {| RegexMatchSetId := Some asked; MatchSetName := None |} |},
        None)
  else (None, Some (AwsError "WAFNonexistentItemException" "no such set")).

Definition onlyPatternSet (id : string) (asked : string)
  : option GetRegexPatternSetOutput * error :=
  if bool_decide (asked = id)
  then (Some {| RegexPatternSet_ :=
                  Some {| RegexPatternSetId := Some asked;
                          RegexPatternStrings := [] |} |},
        None)
  else (None, Some (AwsError "WAFNonexistentItemException" "no such set")).

Lemma testAccCheckDestroy_first_witness :
  testAccCheckRegexMatchSetDestroy (onlyMatchSet "m-2") twoSets
  = Some (None, ["m-1"%string]).
Proof.
  destruct (testAccCheckDestroy_first (onlyMatchSet "m-2") (onlyPatternSet "p-1"))
    as [Hmatch _].
  destruct (Hmatch
              [("aws_waf_regex_pattern_set.test"%string,
                {| Type_ := "aws_waf_regex_pattern_set"; PrimaryID := "p-1" |})]
              [("aws_waf_regex_match_set.b"%string,
                {| Type_ := "aws_waf_regex_match_set"; PrimaryID := "m-2" |})]
              "aws_waf_regex_match_set.a"%string
              {| Type_ := "aws_waf_regex_match_set"; PrimaryID := "m-1" |})
    as (_ & Hfirst & _ & Hpass).
  - repeat constructor. discriminate.
  - reflexivity.
  - etrans; [exact Hfirst|]. apply Hpass. left. reflexivity.
Defined.

(** The pattern set of the state is still there. *)
Example testAccCheckRegexPatternSetDestroy_still_exists :
  testAccCheckRegexPatternSetDestroy (onlyPatternSet "p-1") twoSets
  = Some (Some (New "WAF Regex Pattern Set p-1 still exists"), ["p-1"%string]).
Proof. reflexivity. Qed.

Lemma testAccCheckRegexMatchSetExists_then_Destroy_witness :
  testAccCheckRegexMatchSetDestroy (onlyMatchSet "m-1") twoSets
  = Some (Some (New "WAF Regex Match Set m-1 still exists"), ["m-1"%string]).
Proof.
  destruct (testAccCheckRegexMatchSetExists_then_Destroy (onlyMatchSet "m-1")
              [("aws_waf_regex_pattern_set.test"%string,
                {| Type_ := "aws_waf_regex_pattern_set"; PrimaryID := "p-1" |})]
              [("aws_waf_regex_match_set.b"%string,
                {| Type_ := "aws_waf_regex_match_set"; PrimaryID := "m-2" |})]
              "aws_waf_regex_match_set.a"
              {| Type_ := "aws_waf_regex_match_set"; PrimaryID := "m-1" |}
              (Some {| RegexMatchSetId := Some "m-1"%string; MatchSetName := None |}))
    as (H & _).
  - repeat constructor. discriminate.
  - reflexivity.
  - reflexivity.
  - reflexivity.
  - exact H.
Defined.

End WAFChecks.
